(** * k8s-gpu-device-plugin: a shallow embedding of the device model, the
    allocation policies, the device-plugin server and the plugin manager.

    Go values are modelled as follows.
    - [string] is a sequence of bytes ([Stdlib]'s [string]); on valid UTF-8
      text the byte-wise functions below agree with Go's rune-wise ones.
    - [int] is [Z]; every integer computed here is a length, a counter or a
      difference of such, far inside the 64-bit range, so no wrap-around is
      written.
    - [map[string]T] is [gmap string T].  Go leaves the iteration order of a
      map unspecified and [sort.Slice] promises a sorted permutation, no
      stability: both are fields of [GoRuntime], and a theorem that depends
      on them holds for every runtime that keeps these promises.
    - [(T, error)] is [result T]; a function that returns a value next to
      its error returns a pair. *)

From stdpp Require Import functions gmap strings list sorting.
From Stdlib Require Import ZArith Lia Ascii.

Local Open Scope Z_scope.

(** ** Errors *)

Inductive error : Type :=
  | ErrRegexpSyntax (pattern : string)
  | ErrProductName
  | ErrMigEnabled
  | ErrMigProfile (i j : Z)
  | ErrMatchingPattern (cause : error)
  | ErrNoMatchingPattern (name : string)
  | ErrUUID
  | ErrPaths
  | ErrNumaNode
  | ErrMemory
  | ErrComputeCapability
  | ErrBuildingDevice (cause : error)
  | ErrVisiting (cause : error)
  | ErrInvalidMigStrategy (strategy : string)
  | ErrInvalidAllocationRequest (resourceName : string)
  | ErrNotEnoughDevices
  | ErrPreferredAllocation (cause : error)
  | ErrExternal (what : string).

Inductive result (A : Type) : Type :=
  | Ok (a : A)
  | Err (e : error).
Arguments Ok {A} a.
Arguments Err {A} e.

Definition is_ok {A} (r : result A) : bool :=
  match r with Ok _ => true | Err _ => false end.

(** ** Package strings *)

Module GoStrings.

(** [s[n:]] and [s[:n]] *)
Fixpoint drop (n : nat) (s : string) : string :=
  match n, s with
  | S n', String _ s' => drop n' s'
  | _, _ => s
  end.

Fixpoint take (n : nat) (s : string) : string :=
  match n, s with
  | S n', String c s' => String c (take n' s')
  | _, _ => ""
  end.

Fixpoint HasPrefix (s prefix : string) {struct prefix} : bool :=
  match prefix, s with
  | "", _ => true
  | String p prefix', String c s' =>
      if decide (c = p) then HasPrefix s' prefix' else false
  | String _ _, "" => false
  end.

(** [strings.Index]: the position of the first occurrence of [substr];
    [None] stands for Go's -1. *)
Fixpoint Index (s substr : string) : option nat :=
  if HasPrefix s substr then Some 0%nat
  else match s with
       | "" => None
       | String _ s' => S <$> Index s' substr
       end.

Definition Contains (s substr : string) : bool :=
  match Index s substr with Some _ => true | None => false end.

(** The loop of [genSplit] for a non-empty separator: [n] is the number of
    cuts still allowed. *)
Fixpoint genSplit (n : nat) (s sep : string) : list string :=
  match n with
  | O => [s]
  | S n' =>
      match Index s sep with
      | None => [s]
      | Some m => take m s :: genSplit n' (drop (m + String.length sep) s) sep
      end
  end.

(** [strings.SplitN(s, sep, n)] for [n > 0] and a non-empty [sep]: at most
    [n] pieces, hence at most [n - 1] cuts. *)
Definition SplitN (s sep : string) (n : nat) : list string :=
  genSplit (n - 1) s sep.

(** [strings.Split(s, sep)] for a non-empty [sep]: Go allows
    [Count(s, sep)] cuts, which is at most [len(s)]. *)
Definition Split (s sep : string) : list string :=
  genSplit (String.length s) s sep.

Fixpoint Join (elems : list string) (sep : string) : string :=
  match elems with
  | [] => ""
  | [x] => x
  | x :: rest => x +:+ sep +:+ Join rest sep
  end.

End GoStrings.

(** ** Packages strconv and fmt (decimal integers) *)

Module GoStrconv.

Definition digit_of (c : ascii) : option Z :=
  let n := Z.of_N (Ascii.N_of_ascii c) in
  if (48 <=? n) && (n <=? 57) then Some (n - 48) else None.

Definition digit_char (d : Z) : ascii :=
  Ascii.ascii_of_N (Z.to_N (48 + d)).

(** The digit loop of [ParseUint] in base 10, without its cut-off: the
    value read so far is [acc]; a byte that is no digit is a syntax
    error. *)
Fixpoint parse_digits (s : string) (acc : Z) : option Z :=
  match s with
  | "" => Some acc
  | String c s' =>
      match digit_of c with
      | Some d => parse_digits s' (acc * 10 + d)
      | None => None
      end
  end.

(** [strconv.ParseUint(s, 10, 64)]: the value, saturated at [2^64 - 1] on
    overflow (Go reports a range error next to it). *)
Definition ParseUint (s : string) : result Z * bool :=
  match s with
  | "" => (Err (ErrExternal "strconv: syntax"), false)
  | _ =>
      match parse_digits s 0 with
      | None => (Err (ErrExternal "strconv: syntax"), false)
      | Some v => if v <? 2 ^ 64 then (Ok v, false) else (Ok (2 ^ 64 - 1), true)
      end
  end.

(** [strconv.ParseInt(s, 10, 0)] on a 64-bit platform, as the pair Go
    returns: the value (0 on a syntax error, the nearest bound on a range
    error) and whether an error came with it. *)
Definition ParseInt (s : string) : Z * bool :=
  match s with
  | "" => (0, true)
  | String c s' =>
      let neg := bool_decide (c = "-"%char) in
      let digits := if decide (c = "+"%char ∨ c = "-"%char) then s' else s in
      match ParseUint digits with
      | (Err _, _) => (0, true)
      | (Ok un, _) =>
          let cutoff := 2 ^ 63 in
          if negb neg && (cutoff <=? un) then (cutoff - 1, true)
          else if neg && (cutoff <? un) then (- cutoff, true)
          else (if neg then - un else un, false)
      end
  end.

(** The digits of [u >= 0], least significant last, as [formatBits]
    writes them; [fuel] bounds the number of digits (20 are enough for 64
    bits). *)
Fixpoint format_digits (fuel : nat) (u : Z) (acc : string) : string :=
  match fuel with
  | O => acc
  | S fuel' =>
      if u <? 10 then String (digit_char u) acc
      else format_digits fuel' (u / 10) (String (digit_char (u mod 10)) acc)
  end.

(** [fmt.Sprintf("%d", n)] for an [int]. *)
Definition FormatInt (n : Z) : string :=
  if n <? 0 then String "-"%char (format_digits 20 (- n) "")
  else format_digits 20 n "".

End GoStrconv.

(** ** Package device: replica-annotated ids (devices.go) *)

(** [AnnotatedID] is a defined string type. *)
Definition AnnotatedID : Type := string.

(** [fmt.Sprintf("%s::%d", id, replica)] *)
Definition NewAnnotatedID (id : string) (replica : Z) : AnnotatedID :=
  id +:+ "::" +:+ GoStrconv.FormatInt replica.

Definition HasAnnotations (r : AnnotatedID) : bool :=
  bool_decide (length (GoStrings.SplitN r "::" 2) = 2%nat).

(** [Split]: the error of [ParseInt] is dropped, its value kept. *)
Definition AnnotatedID_Split (r : AnnotatedID) : string * Z :=
  match GoStrings.SplitN r "::" 2 with
  | [s0; s1] => (s0, fst (GoStrconv.ParseInt s1))
  | _ => (r, 0)
  end.

Definition GetID (r : AnnotatedID) : string := fst (AnnotatedID_Split r).

(** [AnnotatedIDs.AnyHasAnnotations] *)
Fixpoint AnyHasAnnotations (rs : list string) : bool :=
  match rs with
  | [] => false
  | r :: rs' => if HasAnnotations r then true else AnyHasAnnotations rs'
  end.

(** [AnnotatedIDs.GetIDs] *)
Definition AnnotatedIDs_GetIDs (rs : list string) : list string :=
  GetID <$> rs.

(** ** The Go runtime: what the language leaves open *)

(** [range_order m] is the order in which one [for k, v := range m] visits
    the map; [sort_slice less l] is the slice after [sort.Slice(l, less)]. *)
Class GoRuntime : Type := {
  range_order : ∀ {V : Type}, gmap string V → list (string * V);
  sort_slice : (string → string → bool) → list string → list string
}.

(** What Go promises about them: a [range] visits every entry once, and
    [sort.Slice] returns a permutation in which no element is [less] than an
    earlier one (stated for comparisons of an integer key, the only kind this
    program passes). Ties may come out in any order. *)
Record GoRuntimeOk (rt : GoRuntime) : Prop := {
  range_order_perm : ∀ (V : Type) (m : gmap string V),
    range_order m ≡ₚ map_to_list m;
  sort_slice_perm : ∀ less l, sort_slice less l ≡ₚ l;
  sort_slice_sorted : ∀ (key : string → Z) l,
    StronglySorted (λ a b, key a ≤ key b)
      (sort_slice (λ a b, bool_decide (key a < key b)) l)
}.

(** The insertion sort that [sort.Slice] runs on a short slice (fewer than
    12 elements): it keeps equal elements in their order. *)
Fixpoint insert_sorted (less : string → string → bool) (x : string)
    (l : list string) : list string :=
  match l with
  | [] => [x]
  | y :: l' => if less y x then y :: insert_sorted less x l' else x :: y :: l'
  end.

Fixpoint insertion_sort (less : string → string → bool) (l : list string)
    : list string :=
  match l with
  | [] => []
  | x :: l' => insert_sorted less x (insertion_sort less l')
  end.

(** Two runtimes: maps visited by increasing key encoding, or the other way
    round. *)
Definition forward_runtime : GoRuntime := {|
  range_order := λ V m, map_to_list m;
  sort_slice := insertion_sort
|}.

Definition backward_runtime : GoRuntime := {|
  range_order := λ V m, reverse (map_to_list m);
  sort_slice := insertion_sort
|}.

(** ** Package device: devices and inventories (devices.go) *)

Inductive health : Type := Healthy | Unhealthy.

(** [Device] with the embedded [pluginapi.Device] (ID, Health, Topology)
    flattened; [Topology] lists the NUMA node ids when present. *)
Record Device : Type := {
  ID : string;
  Health : health;
  Topology : option (list Z);
  Paths : list string;
  Index : string;
  TotalMemory : Z;
  ComputeCapability : string;
  Replicas : Z
}.

(** [Devices] is [map[string]*Device]. *)
Abbreviation Devices := (gmap string Device).

(** [DeviceMap] is [map[string]Devices]. *)
Abbreviation DeviceMap := (gmap string (gmap string Device)).

Fixpoint Contains (ds : Devices) (ids : list string) : bool :=
  match ids with
  | [] => true
  | id :: ids' =>
      match ds !! id with
      | None => false
      | Some _ => Contains ds ids'
      end
  end.

Definition GetByID (ds : Devices) (id : string) : option Device := ds !! id.

(** [res[id] = ds[id]] for every [id] of [ids] that [ds] contains. *)
Definition Subset (ds : Devices) (ids : list string) : Devices :=
  foldl (λ res id,
           if Contains ds [id]
           then match ds !! id with Some d => <[id := d]> res | None => res end
           else res)
        ∅ ids.

(** The entries of [ds] whose key [ods] does not contain; the map built is
    the same whatever the order of the [range]. *)
Definition Difference (ds ods : Devices) : Devices :=
  filter (λ kv, Contains ods [kv.1] = false) ds.

Section Inventory.
Context {rt : GoRuntime}.

Definition GetIDs (ds : Devices) : list string :=
  (λ kv, ID kv.2) <$> range_order ds.

Definition IsMigDevice (d : Device) : bool :=
  GoStrings.Contains (Index d) ":".

(** The loop over [d.Paths] of [Device.AlignedAllocationSupported]. *)
Fixpoint no_dxg_path (paths : list string) : bool :=
  match paths with
  | [] => true
  | p :: paths' => if decide (p = "/dev/dxg") then false else no_dxg_path paths'
  end.

Definition Device_AlignedAllocationSupported (d : Device) : bool :=
  if IsMigDevice d then false else no_dxg_path (Paths d).

Fixpoint all_aligned (ds : list (string * Device)) : bool :=
  match ds with
  | [] => true
  | kv :: ds' =>
      if negb (Device_AlignedAllocationSupported kv.2) then false
      else all_aligned ds'
  end.

Definition AlignedAllocationSupported (ds : Devices) : bool :=
  all_aligned (range_order ds).

Definition Device_GetUUID (d : Device) : string := GetID (ID d).

(** [GetByIndex]: the first device the [range] meets with that index. *)
Fixpoint find_index (index : string) (ds : list (string * Device))
    : option Device :=
  match ds with
  | [] => None
  | kv :: ds' =>
      if decide (Index kv.2 = index) then Some kv.2 else find_index index ds'
  end.

Definition GetByIndex (ds : Devices) (index : string) : option Device :=
  find_index index (range_order ds).

(** The loop of [GetUUIDs]; a key missing from [seen] reads as false. *)
Fixpoint GetUUIDs_loop (ds : list (string * Device)) (seen : gmap string bool)
    (res : list string) : list string :=
  match ds with
  | [] => res
  | kv :: ds' =>
      let uuid := Device_GetUUID kv.2 in
      if default false (seen !! uuid) then GetUUIDs_loop ds' seen res
      else GetUUIDs_loop ds' (<[uuid := true]> seen) (res ++ [uuid])
  end.

Definition GetUUIDs (ds : Devices) : list string :=
  GetUUIDs_loop (range_order ds) ∅ [].

Definition GetIndices (ds : Devices) : list string :=
  (λ kv, Index kv.2) <$> range_order ds.

Definition Devices_GetPaths (ds : Devices) : list string :=
  foldl (λ res kv, res ++ Paths kv.2) [] (range_order ds).

End Inventory.

(** ** Package plugin: the device-plugin server *)

Record NvidiaDevicePlugin : Type := {
  resourceName : string;
  devices : Devices;
  socket : string
}.

(** [ContainerAllocateResponse]: only [Envs] is ever set. *)
Record ContainerAllocateResponse : Type := {
  Envs : gmap string string
}.

(** [Allocate]: the plugin is passed back next to the answer, so that what
    the call leaves of the inventory can be stated. *)
Fixpoint Allocate_loop (plugin : NvidiaDevicePlugin) (reqs : list (list string))
    (responses : list ContainerAllocateResponse)
    : result (list ContainerAllocateResponse) :=
  match reqs with
  | [] => Ok responses
  | req :: reqs' =>
      let b := Contains (devices plugin) req in
      if negb b then Err (ErrInvalidAllocationRequest (resourceName plugin))
      else
        let response :=
          {| Envs := {[ "NVIDIA_VISIBLE_DEVICES" := GoStrings.Join req "," ]} |} in
        Allocate_loop plugin reqs' (responses ++ [response])
  end.

Definition Allocate (plugin : NvidiaDevicePlugin) (reqs : list (list string))
    : NvidiaDevicePlugin * result (list ContainerAllocateResponse) :=
  (plugin, Allocate_loop plugin reqs []).

(** The health case of [ListAndWatch]: the device behind the pointer [d] is
    marked unhealthy, in the inventory that every call shares. *)
Definition mark_unhealthy (plugin : NvidiaDevicePlugin) (key : string)
    : NvidiaDevicePlugin :=
  {| resourceName := resourceName plugin;
     devices := alter (λ d, {| ID := ID d; Health := Unhealthy;
                               Topology := Topology d; Paths := Paths d;
                               Index := Index d; TotalMemory := TotalMemory d;
                               ComputeCapability := ComputeCapability d;
                               Replicas := Replicas d |}) key (devices plugin);
     socket := socket plugin |}.

(** *** Replica-distributed allocation *)

(** [struct{ total, available int }] *)
Record replica_count : Type := {
  total : Z;
  available : Z
}.

Abbreviation ReplicaMap := (gmap string replica_count).

(** First loop: one more [available] for the base id of every candidate,
    the entry being created on first sight. *)
Definition count_available (candidates : list string) : ReplicaMap :=
  foldl (λ replicas c,
           let id := GetID c in
           let r := default {| total := 0; available := 0 |} (replicas !! id) in
           <[id := {| total := total r; available := available r + 1 |}]> replicas)
        ∅ candidates.

(** The selection loop reads [replicas[id]] for candidates only, all of
    which the first loop entered; 0 stands where Go would dereference nil. *)
Definition skew (replicas : ReplicaMap) (c : string) : Z :=
  match replicas !! GetID c with
  | Some r => total r - available r
  | None => 0
  end.

Definition take_replica (replicas : ReplicaMap) (id : string) : ReplicaMap :=
  alter (λ r, {| total := total r; available := available r - 1 |}) id replicas.

Section Allocation.
Context {rt : GoRuntime}.

(** Second loop: one more [total] for every key of the inventory whose
    base id is known. *)
Definition count_total (ds : Devices) (replicas : ReplicaMap) : ReplicaMap :=
  foldl (λ replicas kv,
           let id := GetID kv.1 in
           match replicas !! id with
           | None => replicas
           | Some r =>
               <[id := {| total := total r + 1; available := available r |}]> replicas
           end)
        replicas (range_order ds).

(** The selection loop, [n] rounds to go: sort, take the head. [None] is
    the panic of [candidates[0]] on an empty slice. *)
Fixpoint select_loop (n : nat) (replicas : ReplicaMap)
    (candidates picked : list string) : option (list string) :=
  match n with
  | O => Some picked
  | S n' =>
      match sort_slice (λ a b, bool_decide (skew replicas a < skew replicas b))
              candidates with
      | [] => None
      | c0 :: candidates' =>
          select_loop n' (take_replica replicas (GetID c0)) candidates'
            (picked ++ [c0])
      end
  end.

Definition candidates_of (plugin : NvidiaDevicePlugin)
    (available required : list string) : list string :=
  GetIDs (Difference (Subset (devices plugin) available)
                     (Subset (devices plugin) required)).

Definition replicas_of (plugin : NvidiaDevicePlugin)
    (candidates : list string) : ReplicaMap :=
  count_total (devices plugin) (count_available candidates).

(** [distributedAlloc]; the outer [None] is a panic. *)
Definition distributedAlloc (plugin : NvidiaDevicePlugin)
    (available required : list string) (size : Z)
    : option (result (list string)) :=
  let candidates := candidates_of plugin available required in
  let needed := size - Z.of_nat (length required) in
  if Z.of_nat (length candidates) <? needed then Some (Err ErrNotEnoughDevices)
  else
    let replicas := replicas_of plugin candidates in
    match select_loop (Z.to_nat needed) replicas candidates [] with
    | None => None
    | Some picked => Some (Ok (required ++ picked))
    end.

(** [alignedAlloc] runs the topology allocator of go-gpuallocator over
    NVML's link data: an external function of the three arguments. *)
Variable alignedAlloc :
  NvidiaDevicePlugin → list string → list string → Z → option (result (list string)).

Definition getPreferredAllocation (plugin : NvidiaDevicePlugin)
    (availableDeviceIDs mustIncludeDeviceIDs : list string) (allocationSize : Z)
    : option (result (list string)) :=
  if AlignedAllocationSupported (devices plugin)
     && negb (AnyHasAnnotations availableDeviceIDs)
  then alignedAlloc plugin availableDeviceIDs mustIncludeDeviceIDs allocationSize
  else distributedAlloc plugin availableDeviceIDs mustIncludeDeviceIDs allocationSize.

(** One container request of [GetPreferredAllocation]. *)
Record ContainerPreferredAllocationRequest : Type := {
  AvailableDeviceIDs : list string;
  MustIncludeDeviceIDs : list string;
  AllocationSize : Z
}.

(** The handler [GetPreferredAllocation]: the responses hold the device ids
    only. The outer [None] is a panic of the allocation. *)
Fixpoint GetPreferredAllocation_loop (plugin : NvidiaDevicePlugin)
    (reqs : list ContainerPreferredAllocationRequest)
    (responses : list (list string)) : option (result (list (list string))) :=
  match reqs with
  | [] => Some (Ok responses)
  | req :: reqs' =>
      match getPreferredAllocation plugin (AvailableDeviceIDs req)
              (MustIncludeDeviceIDs req) (AllocationSize req) with
      | None => None
      | Some (Err err) => Some (Err (ErrPreferredAllocation err))
      | Some (Ok devices) =>
          GetPreferredAllocation_loop plugin reqs' (responses ++ [devices])
      end
  end.

Definition GetPreferredAllocation (plugin : NvidiaDevicePlugin)
    (reqs : list ContainerPreferredAllocationRequest)
    : option (result (list (list string))) :=
  GetPreferredAllocation_loop plugin reqs [].

End Allocation.

(** ** Package regexp, as far as [wildCardToRegexp] uses it *)

Module GoRegexp.

(** The bytes [QuoteMeta] escapes. *)
Definition special (b : ascii) : bool :=
  bool_decide (b ∈ String.list_ascii_of_string "\.+*?()|[]{}^$").

Fixpoint QuoteMeta (s : string) : string :=
  match s with
  | "" => ""
  | String b s' =>
      if special b then String "\"%char (String b (QuoteMeta s'))
      else String b (QuoteMeta s')
  end.

(** The fragment of the syntax modelled: a concatenation of single
    characters, each possibly starred. [AnyNotNL] is [.], which without the
    [s] flag matches every character but a newline. *)
Inductive atom : Type :=
  | Lit (c : ascii)
  | AnyNotNL.

Inductive piece : Type :=
  | Once (a : atom)
  | Star (a : atom).

Definition regexp : Type := list piece.

(** After an atom: a [*] stars it. *)
Definition starred (rest : string) : bool :=
  match rest with
  | String "*" _ => true
  | _ => false
  end.

(** [Compile] on that fragment; [None] is an expression outside it (an
    operator other than a starred character, a class, a group; Go compiles
    some of these and rejects others). *)
Fixpoint parse (fuel : nat) (s : string) : option regexp :=
  match fuel with
  | O => None
  | S fuel' =>
      match s with
      | "" => Some []
      | String c rest =>
          let after (a : atom) (rest : string) :=
            if starred rest
            then cons (Star a) <$> parse fuel' (GoStrings.drop 1 rest)
            else cons (Once a) <$> parse fuel' rest in
          if decide (c = "\"%char) then
            match rest with
            | String d rest' => if special d then after (Lit d) rest' else None
            | "" => None
            end
          else if decide (c = "."%char) then after AnyNotNL rest
          else if special c then None
          else after (Lit c) rest
      end
  end.

Definition Compile (expr : string) : option regexp :=
  parse (S (String.length expr)) expr.

Definition atom_matches (a : atom) (c : ascii) : bool :=
  match a with
  | Lit d => bool_decide (c = d)
  | AnyNotNL => negb (bool_decide (c = "010"%char))
  end.

(** Does the expression match a prefix of [s]? *)
Fixpoint match_here (re : regexp) : string → bool :=
  match re with
  | [] => λ _, true
  | Once a :: re' => λ s,
      match s with
      | String c s' => atom_matches a c && match_here re' s'
      | "" => false
      end
  | Star a :: re' =>
      fix star (s : string) : bool :=
        match_here re' s
        || match s with
           | String c s' => atom_matches a c && star s'
           | "" => false
           end
  end.

(** [Regexp.MatchString]: the expression is not anchored, a match may
    start anywhere in [s]. *)
Fixpoint match_anywhere (re : regexp) (s : string) : bool :=
  match_here re s
  || match s with
     | String _ s' => match_anywhere re s'
     | "" => false
     end.

(** [regexp.MatchString(pattern, s)] *)
Definition MatchString (pattern s : string) : result bool :=
  match Compile pattern with
  | None => Err (ErrRegexpSyntax pattern)
  | Some re => Ok (match_anywhere re s)
  end.

End GoRegexp.

(** ** Package resource *)

Record Resource : Type := {
  Pattern : string;
  Name : string
}.

Definition MigStrategyNone : string := "none".
Definition MigStrategySingle : string := "single".
Definition MigStrategyMixed : string := "mixed".

Definition ResourceNamePrefix : string := "nvidia.com".

Definition NewResource (pattern name : string) : Resource :=
  let name :=
    if negb (GoStrings.HasPrefix name (ResourceNamePrefix +:+ "/"))
    then ResourceNamePrefix +:+ "/" +:+ name
    else name in
  {| Pattern := pattern; Name := name |}.

(** [strings.ReplaceAll(s, old, new)] for [old] and [new] of one byte. *)
Fixpoint ReplaceAll (s : string) (old new : ascii) : string :=
  match s with
  | "" => ""
  | String c s' =>
      String (if decide (c = old) then new else c) (ReplaceAll s' old new)
  end.

(** A partition profile as [VisitMigProfiles] hands it over: its [String()]
    and the [C] and [G] of its [GetInfo()]. *)
Record MigProfile : Type := {
  profile_string : string;
  profile_C : Z;
  profile_G : Z
}.

(** What [NewResources] learns from the machine under the strategy "mixed":
    whether NVML is there, whether [Init] succeeds, and the profiles that
    [VisitMigProfiles] visits, in order. *)
Record machine : Type := {
  hasNVML : bool;
  init_succeeds : bool;
  mig_profiles : list MigProfile
}.

(** The callback of [VisitMigProfiles], which never returns an error. *)
Definition visit_profile (resources : list Resource) (mp : MigProfile)
    : list Resource :=
  if decide (profile_C mp ≠ profile_G mp) then resources
  else
    let resourceName := ReplaceAll ("mig-" +:+ profile_string mp) "+" "." in
    resources ++ [NewResource (profile_string mp) resourceName].

Definition NewResources (nvmllib : machine) (migStrategy : string)
    : list Resource :=
  if decide (migStrategy = MigStrategyNone)
  then [NewResource "GPU" "nvidia.com/gpu"]
  else if decide (migStrategy = MigStrategySingle)
  then [NewResource "GPU" "nvidia.com/gpu"]
  else if decide (migStrategy = MigStrategyMixed)
  then
    if negb (hasNVML nvmllib) then []
    else if negb (init_succeeds nvmllib) then []
    else foldl visit_profile [] (mig_profiles nvmllib)
  else [].

(** ** Package device: the device map (device_map.go) *)

Fixpoint wildCard_loop (i : nat) (literals : list string) (result : string)
    : string :=
  match literals with
  | [] => result
  | literal :: literals' =>
      let result := if (0 <? i)%nat then result +:+ ".*" else result in
      wildCard_loop (S i) literals' (result +:+ GoRegexp.QuoteMeta literal)
  end.

Definition wildCardToRegexp (pattern : string) : string :=
  wildCard_loop 0 (GoStrings.Split pattern "*") "".

(** The matcher of the two builders. *)
Definition pattern_matches (pattern name : string) : result bool :=
  GoRegexp.MatchString (wildCardToRegexp pattern) name.

(** *** The device-query adapter *)

#[global] Instance result_ret : MRet result := λ A a, Ok a.
#[global] Instance result_bind : MBind result := λ A B f r,
  match r with
  | Ok a => f a
  | Err e => Err e
  end.

(** [fmt.Errorf] around a failure. *)
Definition wrap {A} (mk : error → error) (r : result A) : result A :=
  match r with
  | Ok a => Ok a
  | Err e => Err (mk e)
  end.

(** The interface [deviceInfo]. [GetNumaNode] answers whether there is a
    node, and which. *)
Class deviceInfo (T : Type) : Type := {
  GetUUID : T → result string;
  GetPaths : T → result (list string);
  GetNumaNode : T → result (bool * Z);
  GetTotalMemory : T → result Z;
  GetComputeCapability : T → result string
}.

(** What NVML and the host answer for one unit ([nvmlDevice] and
    [nvmlMigDevice] both read it from there). *)
Record unit_info : Type := {
  info_uuid : result string;
  info_paths : result (list string);
  info_numa : result (bool * Z);
  info_memory : result Z;
  info_compute_capability : result string
}.

#[global] Instance unit_deviceInfo : deviceInfo unit_info := {|
  GetUUID := info_uuid;
  GetPaths := info_paths;
  GetNumaNode := info_numa;
  GetTotalMemory := info_memory;
  GetComputeCapability := info_compute_capability
|}.

(** A whole device as [VisitDevices] hands it over. *)
Record gpu_unit : Type := {
  gpu_name : result string;
  gpu_mig_enabled : result bool;
  gpu_info : unit_info
}.

(** A sub-partition as [VisitMigDevices] hands it over: the indices of the
    parent and of the partition, and the profile string. *)
Record mig_unit : Type := {
  mig_parent : Z;
  mig_index : Z;
  mig_profile : result string;
  mig_info : unit_info
}.

(** The NVML session: the units it enumerates, in order. *)
Record nvml : Type := {
  nvml_gpus : list gpu_unit;
  nvml_migs : list mig_unit
}.

Definition newGPUDevice (i : Z) (gpu : gpu_unit) : string * unit_info :=
  (GoStrconv.FormatInt i, gpu_info gpu).

Definition newMigDevice (i j : Z) (mig : mig_unit) : string * unit_info :=
  (GoStrconv.FormatInt i +:+ ":" +:+ GoStrconv.FormatInt j, mig_info mig).

Definition BuildDevice `{deviceInfo T} (index : string) (d : T) : result Device :=
  uuid ← wrap (λ _, ErrUUID) (GetUUID d);
  paths ← wrap (λ _, ErrPaths) (GetPaths d);
  '(hasNuma, numa) ← wrap (λ _, ErrNumaNode) (GetNumaNode d);
  totalMemory ← wrap (λ _, ErrMemory) (GetTotalMemory d);
  computeCapability ← wrap (λ _, ErrComputeCapability) (GetComputeCapability d);
  mret {| ID := uuid;
          Health := Healthy;
          Topology := if (hasNuma : bool) then Some [numa : Z] else None;
          Paths := paths;
          Index := index;
          TotalMemory := totalMemory;
          ComputeCapability := computeCapability;
          Replicas := 0 |}.

(** [setEntry] writes into the map it is called on: the map after the call
    and the error. *)
Definition setEntry `{deviceInfo T} (d : DeviceMap) (name index : string)
    (device : T) : DeviceMap * option error :=
  match BuildDevice index device with
  | Err err => (d, Some (ErrBuildingDevice err))
  | Ok dev => (<[name := <[ID dev := dev]> (default ∅ (d !! name))]> d, None)
  end.

Record deviceMapBuilder : Type := {
  Interface : nvml;
  migStrategy : string;
  resources : list Resource
}.

(** The loop over [b.resources]: the first descriptor whose pattern matches. *)
Fixpoint first_match (resources : list Resource) (name : string)
    : result (option Resource) :=
  match resources with
  | [] => Ok None
  | resource :: resources' =>
      match pattern_matches (Pattern resource) name with
      | Err err => Err (ErrMatchingPattern err)
      | Ok true => Ok (Some resource)
      | Ok false => first_match resources' name
      end
  end.

(** go-nvlib's [VisitDevices]: the units in order, stopping at the first
    error of the callback, which it wraps. The callback's captured map is
    passed along. *)
Fixpoint visit_units {U : Type} (visit : U → DeviceMap → DeviceMap * option error)
    (units : list U) (devices : DeviceMap) : DeviceMap * option error :=
  match units with
  | [] => (devices, None)
  | u :: units' =>
      match visit u devices with
      | (devices', Some err) => (devices', Some (ErrVisiting err))
      | (devices', None) => visit_units visit units' devices'
      end
  end.

(** The callback of [buildGPUDeviceMap]. *)
Definition visit_gpu (b : deviceMapBuilder) (igpu : Z * gpu_unit)
    (devices : DeviceMap) : DeviceMap * option error :=
  let '(i, gpu) := igpu in
  match gpu_name gpu with
  | Err _ => (devices, Some ErrProductName)
  | Ok name =>
      match gpu_mig_enabled gpu with
      | Err _ => (devices, Some ErrMigEnabled)
      | Ok migEnabled =>
          if migEnabled && negb (bool_decide (migStrategy b = MigStrategyNone))
          then (devices, None)
          else
            match first_match (resources b) name with
            | Err err => (devices, Some err)
            | Ok (Some resource) =>
                let '(index, info) := newGPUDevice i gpu in
                setEntry devices (Name resource) index info
            | Ok None => (devices, Some (ErrNoMatchingPattern name))
            end
      end
  end.

(** The callback of [buildMigDeviceMap]. *)
Definition visit_mig (b : deviceMapBuilder) (mig : mig_unit)
    (devices : DeviceMap) : DeviceMap * option error :=
  match mig_profile mig with
  | Err _ => (devices, Some (ErrMigProfile (mig_parent mig) (mig_index mig)))
  | Ok migProfile =>
      match first_match (resources b) migProfile with
      | Err err => (devices, Some err)
      | Ok (Some resource) =>
          let '(index, info) := newMigDevice (mig_parent mig) (mig_index mig) mig in
          setEntry devices (Name resource) index info
      | Ok None => (devices, Some (ErrNoMatchingPattern migProfile))
      end
  end.

(** Indices as [VisitDevices] counts them. *)
Definition indexed {U : Type} (units : list U) : list (Z * U) :=
  imap (λ i u, (Z.of_nat i, u)) units.

(** Both builders return the map they filled next to the error. *)
Definition buildGPUDeviceMap (b : deviceMapBuilder) : DeviceMap * option error :=
  visit_units (visit_gpu b) (indexed (nvml_gpus (Interface b))) ∅.

Definition buildMigDeviceMap (b : deviceMapBuilder) : DeviceMap * option error :=
  visit_units (visit_mig b) (nvml_migs (Interface b)) ∅.

(** [build]: [None] for the map is Go's nil. *)
Definition build (b : deviceMapBuilder) : option DeviceMap * option error :=
  if decide (migStrategy b = MigStrategyNone) then
    let '(m, err) := buildGPUDeviceMap b in (Some m, err)
  else if decide (migStrategy b = MigStrategySingle) then
    let '(m, err) := buildGPUDeviceMap b in (Some m, err)
  else if decide (migStrategy b = MigStrategyMixed) then
    let '(m, err) := buildMigDeviceMap b in (Some m, err)
  else (None, Some (ErrInvalidMigStrategy (migStrategy b))).

Definition NewDeviceMap (nvmllib : nvml) (resources : list Resource)
    (migStrategy : string) : option DeviceMap * option error :=
  build {| Interface := nvmllib; resources := resources; migStrategy := migStrategy |}.

(** *** The serving loop of [Serve] (crash-loop protection) *)

(** Times are nanoseconds on the monotonic clock. [time.Since(t).Seconds()]
    is a float64; for a whole number [d] of nanoseconds it exceeds 3600
    exactly when [d] exceeds 3600e9, the comparison written here. *)
Definition one_hour : Z := 3600 * 10 ^ 9.

Record serve_state : Type := {
  lastCrashTime : Z;
  restartCount : Z
}.

(** How one call of [plugin.server.Serve(sock)] ends: with an error at some
    time, or with nil. *)
Inductive serve_return : Type :=
  | ServeFailed (now : Z)
  | ServeReturned.

Inductive serve_outcome : Type :=
  | Fatal (crashes : nat)
  | Exited (crashes : nat)
  | Serving (st : serve_state).

(** The lines after a failed [Serve]. *)
Definition after_crash (st : serve_state) (now : Z) : serve_state :=
  let timeSinceLastCrash := now - lastCrashTime st in
  if one_hour <? timeSinceLastCrash
  then {| lastCrashTime := now; restartCount := 0 |}
  else {| lastCrashTime := now; restartCount := restartCount st + 1 |}.

(** The [for] loop of the goroutine over the returns of [Serve] still to
    come; [seen] counts the failures so far. With none left the server is
    serving. *)
Fixpoint serve_loop (st : serve_state) (seen : nat) (returns : list serve_return)
    : serve_outcome :=
  if 5 <? restartCount st then Fatal seen
  else
    match returns with
    | [] => Serving st
    | ServeReturned :: _ => Exited seen
    | ServeFailed now :: returns' => serve_loop (after_crash st now) (S seen) returns'
    end.

(** The goroutine started at time [start]. *)
Definition serve_goroutine (start : Z) (returns : list serve_return)
    : serve_outcome :=
  serve_loop {| lastCrashTime := start; restartCount := 0 |} 0 returns.

(** ** Package plugin: the plugin manager *)

(** [ResourceName.Split] and [GetResourceName] *)
Definition ResourceName_Split (rm : string) : string * string :=
  match GoStrings.SplitN rm "/" 2 with
  | [s0; s1] => (s0, s1)
  | _ => ("", rm)
  end.

Definition GetResourceName (rm : string) : string := (ResourceName_Split rm).2.

Definition GetResourceNamePrefix (rm : string) : string := (ResourceName_Split rm).1.

Definition DevicePluginPath : string := "/var/lib/kubelet/device-plugins/".

(** The cleaning of the joined path by [filepath.Join] is left out: it
    changes nothing for a name that is one path element. *)
Definition NewNvidiaDevicePlugin (resourceName : string) (devices : Devices)
    : NvidiaDevicePlugin :=
  let pluginName := "nvidia-" +:+ GetResourceName resourceName in
  let pluginPath := DevicePluginPath +:+ pluginName in
  {| resourceName := resourceName;
     devices := devices;
     socket := pluginPath +:+ ".sock" |}.

(** [pm_devices] is [None] while the field is nil; [pm_restartTimeout]
    tells whether the 30 s timer is armed. *)
Record PluginManager : Type := {
  pm_migStrategy : string;
  pm_devices : option DeviceMap;
  pm_nvmllib : nvml;
  pm_resources : list Resource;
  pm_plugins : list NvidiaDevicePlugin;
  pm_started : bool;
  pm_restart : bool;
  pm_restartTimeout : bool
}.

(** *** Starting and stopping a server *)

(** [plugin.stop] is a channel made open by [NewNvidiaDevicePlugin] and
    closed by [cleanup]; closing a closed channel panics, and nothing here
    recovers: the process ends. A panic is [None].

    The manager holds its servers as pointers in [p.plugins]; the state of
    the stop channel of the server at place [i] of that slice is [chans i],
    [true] once the channel is closed. *)
Abbreviation channels := (nat → bool).

Definition all_open : channels := λ _, false.

(** [cleanup]: [close(plugin.stop)] *)
Definition cleanup (closed : bool) : option bool :=
  if closed then None else Some true.

(** The error of a failed [Start]: that of [Serve], or that of [Register]
    joined by [errors.Join] with what [Stop] returned. *)
Inductive start_error : Type :=
  | ErrServe (err : error)
  | ErrRegister (err : error) (stopped : option error).

(** The calls a pass makes on the servers, in order. *)
Inductive call : Type :=
  | CallStart (p : NvidiaDevicePlugin)
  | CallStop (p : NvidiaDevicePlugin).

Section Manager.
Context {rt : GoRuntime}.

(** What the world outside makes of the calls of one pass on a server:
    sockets, gRPC and the node agent decide. [Serve] and [Register] are the
    results of [plugin.Serve()] and [plugin.Register()]; [Remove] is the
    result of [os.Remove(plugin.socket)] in a [Stop] called by
    [stopPlugins], and [RemoveAgain] in a [Stop] called by [Start] after a
    failed registration, [Some err] for an error other than that the file
    does not exist. *)
Variable Serve Register Remove RemoveAgain : NvidiaDevicePlugin → option error.

(** [Stop], for a server made by [NewNvidiaDevicePlugin]: neither the
    pointer nor its [server] field is nil. [closed] is the state of the
    stop channel, returned as the call leaves it. *)
Definition Stop (os_Remove : NvidiaDevicePlugin → option error)
    (plugin : NvidiaDevicePlugin) (closed : bool)
    : option (bool * option error) :=
  match os_Remove plugin with
  | Some err => Some (closed, Some err)
  | None =>
      closed ← cleanup closed;
      Some (closed, None)
  end.

Definition Start (plugin : NvidiaDevicePlugin) (closed : bool)
    : option (bool * option start_error) :=
  match Serve plugin with
  | Some err =>
      closed ← cleanup closed;
      Some (closed, Some (ErrServe err))
  | None =>
      match Register plugin with
      | Some err =>
          '(closed, stopped) ← Stop RemoveAgain plugin closed;
          Some (closed, Some (ErrRegister err stopped))
      | None => Some (closed, None)
      end
  end.

(** The loop of [stopPlugins] from place [i] on. The first component is
    [None] when a [Stop] panicked; the log holds the calls made until
    then. *)
Fixpoint stop_loop (plugins : list NvidiaDevicePlugin) (i : nat)
    (chans : channels) (log : list call) : option channels * list call :=
  match plugins with
  | [] => (Some chans, log)
  | p :: plugins' =>
      if (size (devices p) =? 0)%nat then stop_loop plugins' (S i) chans log
      else
        match Stop Remove p (chans i) with
        | None => (None, log ++ [CallStop p])
        | Some (closed, Some _) =>
            stop_loop plugins' (S i) (<[i := closed]> chans) (log ++ [CallStop p])
        | Some (closed, None) =>
            stop_loop plugins' (S i) (<[i := closed]> chans) (log ++ [CallStop p])
        end
  end.

Definition stopPlugins (p : PluginManager) (chans : channels) (log : list call)
    : option channels * list call :=
  stop_loop (pm_plugins p) 0 chans log.

(** The loop of [startPlugins] from place [i] on, with its locals
    [started] and [restart]; a failed [Start] leaves the loop. *)
Fixpoint start_loop (plugins : list NvidiaDevicePlugin) (i : nat) (started : Z)
    (restart : bool) (chans : channels) (log : list call)
    : option (Z * bool * channels) * list call :=
  match plugins with
  | [] => (Some (started, restart, chans), log)
  | p :: plugins' =>
      if (size (devices p) =? 0)%nat
      then start_loop plugins' (S i) started restart chans log
      else
        match Start p (chans i) with
        | None => (None, log ++ [CallStart p])
        | Some (closed, Some _) =>
            (Some (started, true, <[i := closed]> chans), log ++ [CallStart p])
        | Some (closed, None) =>
            start_loop plugins' (S i) (started + 1) restart
                       (<[i := closed]> chans) (log ++ [CallStart p])
        end
  end.

Definition startPlugins (p : PluginManager) (chans : channels) (log : list call)
    : option (PluginManager * channels) * list call :=
  match (if pm_started p then stopPlugins p chans log else (Some chans, log)) with
  | (None, log) => (None, log)
  | (Some chans, log) =>
      match start_loop (pm_plugins p) 0 0 false chans log with
      | (None, log) => (None, log)
      | (Some (started, restart, chans), log) =>
          (Some ({| pm_migStrategy := pm_migStrategy p;
                    pm_devices := pm_devices p;
                    pm_nvmllib := pm_nvmllib p;
                    pm_resources := pm_resources p;
                    pm_plugins := pm_plugins p;
                    pm_started := true;
                    pm_restart := pm_restart p;
                    pm_restartTimeout :=
                      if restart then true else pm_restartTimeout p |},
                 chans),
           log)
      end
  end.

Definition loadPlugins (p : PluginManager) : PluginManager * option error :=
  match NewDeviceMap (pm_nvmllib p) (pm_resources p) (pm_migStrategy p) with
  | (_, Some err) => (p, Some err)
  | (dmp, None) =>
      ({| pm_migStrategy := pm_migStrategy p;
          pm_devices := dmp;
          pm_nvmllib := pm_nvmllib p;
          pm_resources := pm_resources p;
          pm_plugins :=
            foldl (λ plugins kv, plugins ++ [NewNvidiaDevicePlugin kv.1 kv.2])
                  (pm_plugins p) (range_order (default ∅ dmp));
          pm_started := pm_started p;
          pm_restart := pm_restart p;
          pm_restartTimeout := pm_restartTimeout p |},
       None)
  end.



End Manager.

(** [NewPluginManager]: the fields this model keeps, at their first values
    ([devices] is nil, no plugin yet). *)
Definition NewPluginManager (nvmllib : nvml) (resources : list Resource)
    (migStrategy : string) : PluginManager :=
  {| pm_migStrategy := migStrategy;
     pm_devices := None;
     pm_nvmllib := nvmllib;
     pm_resources := resources;
     pm_plugins := [];
     pm_started := false;
     pm_restart := false;
     pm_restartTimeout := false |}.

(** ** Vocabulary of the properties *)

(** [sub] occurs in [s]. *)
Definition occurs_in (sub s : string) : Prop :=
  ∃ pre suf, s = pre +:+ sub +:+ suf.

(** A rendered number starts with a digit (so with no sign). *)
Definition starts_with_digit (s : string) : Prop :=
  match s with
  | String c _ => is_Some (GoStrconv.digit_of c)
  | "" => False
  end.

Fixpoint last_byte (s : string) : option ascii :=
  match s with
  | "" => None
  | String c "" => Some c
  | String _ s' => last_byte s'
  end.

(** The answer to one container request. *)
Definition env_response (req : list string) : ContainerAllocateResponse :=
  {| Envs := {[ "NVIDIA_VISIBLE_DEVICES" := GoStrings.Join req "," ]} |}.

#[global] Instance result_fmap : FMap result := λ A B f r,
  match r with
  | Ok a => Ok (f a)
  | Err e => Err e
  end.

(** A device supports aligned allocation, in the words of the
    specification: no sub-partition, no sentinel path. *)
Definition supports_aligned (d : Device) : Prop :=
  ¬ occurs_in ":" (Index d) ∧ "/dev/dxg" ∉ Paths d.

(** The condition under which the topology-aligned policy is to be used. *)
Definition aligned_applies (ds : Devices) (available : list string) : Prop :=
  (∀ k d, ds !! k = Some d → supports_aligned d)
  ∧ (∀ id, id ∈ available → ¬ occurs_in "::" id).

(** What the handler asks for one container request. *)
Definition request_allocation `{rt : GoRuntime}
    (alignedAlloc : NvidiaDevicePlugin → list string → list string → Z
                    → option (result (list string)))
    (plugin : NvidiaDevicePlugin) (req : ContainerPreferredAllocationRequest)
    : option (result (list string)) :=
  getPreferredAllocation alignedAlloc plugin (AvailableDeviceIDs req)
    (MustIncludeDeviceIDs req) (AllocationSize req).

(** ** Sample data for the examples *)

Definition sample_device (id index path : string) : Device :=
  {| ID := id; Health := Healthy; Topology := None; Paths := [path];
     Index := index; TotalMemory := 16 * 2 ^ 30; ComputeCapability := "8.0";
     Replicas := 0 |}.

Definition sample_inventory (ids : list string) : Devices :=
  list_to_map ((λ id, (id, sample_device id "0" "/dev/nvidia0")) <$> ids).

Definition sample_server (name : string) (ids : list string)
    : NvidiaDevicePlugin :=
  NewNvidiaDevicePlugin name (sample_inventory ids).

Definition sample_plugin (ids : list string) : NvidiaDevicePlugin :=
  sample_server "nvidia.com/gpu" ids.

Definition sample_info (uuid : string) : unit_info :=
  {| info_uuid := Ok uuid; info_paths := Ok ["/dev/nvidia0"];
     info_numa := Ok (false, 0); info_memory := Ok (16 * 2 ^ 30);
     info_compute_capability := Ok "8.0" |}.

Definition sample_gpu (name uuid : string) : gpu_unit :=
  {| gpu_name := Ok name; gpu_mig_enabled := Ok false;
     gpu_info := sample_info uuid |}.

(** A stand-in for the external topology allocator: the required ids, then
    available ones up to the size asked. *)
Definition sample_alignedAlloc (plugin : NvidiaDevicePlugin)
    (available required : list string) (size : Z)
    : option (result (list string)) :=
  Some (Ok (take (Z.to_nat size) (required ++ available))).

(** *** Crash-loop protection *)

(** Every failure comes more than an hour after the one before it, the
    first more than an hour after [prev]. *)
Fixpoint gaps_exceed (prev : Z) (ts : list Z) : Prop :=
  match ts with
  | [] => True
  | t :: ts' => one_hour < t - prev ∧ gaps_exceed t ts'
  end.

(** Every failure comes at most an hour after the one before it, the first
    at most an hour after [prev]. *)
Fixpoint gaps_within (prev : Z) (ts : list Z) : Prop :=
  match ts with
  | [] => True
  | t :: ts' => t - prev ≤ one_hour ∧ gaps_within t ts'
  end.

(** The failures are in time order and all lie in one window of an hour. *)
Definition within_one_hour (ts : list Z) : Prop :=
  StronglySorted Z.le ts
  ∧ match ts with
    | [] => True
    | t :: _ => Forall (λ u, u - t ≤ one_hour) ts
    end.

Definition seconds (n : Z) : Z := n * 10 ^ 9.

(** Every failure comes more than an hour after the failure before it;
    nothing is asked of the first one. *)
Definition spaced_apart (ts : list Z) : Prop :=
  match ts with
  | [] => True
  | t :: ts' => gaps_exceed t ts'
  end.

(** The time of the last failure of [ts]; the start of the loop when there
    is none. *)
Definition last_crash (start : Z) (ts : list Z) : Z := default start (last ts).

(** *** The plugin manager *)

Definition has_devices (p : NvidiaDevicePlugin) : Prop :=
  size (devices p) ≠ 0%nat.

#[global] Instance has_devices_dec p : Decision (has_devices p).
Proof. unfold has_devices. apply _. Defined.

(** Whether [Start] of a server returns an error or panics: [Serve] or
    [Register] fails. *)
Definition Start_fails (Serve Register : NvidiaDevicePlugin → option error)
    (p : NvidiaDevicePlugin) : bool :=
  match Serve p, Register p with
  | None, None => false
  | _, _ => true
  end.

(** The servers of a list up to the first whose [Start] fails, that one
    included. *)
Fixpoint up_to_first_failure (fails : NvidiaDevicePlugin → bool)
    (ps : list NvidiaDevicePlugin) : list NvidiaDevicePlugin :=
  match ps with
  | [] => []
  | p :: ps' =>
      if fails p then [p] else p :: up_to_first_failure fails ps'
  end.


Definition is_err {A} (r : result A) : Prop := ∃ e, r = Err e.

Definition info_read_fails (info : unit_info) : Prop :=
  is_err (info_uuid info) ∨ is_err (info_paths info) ∨ is_err (info_numa info)
  ∨ is_err (info_memory info) ∨ is_err (info_compute_capability info).

(** No descriptor matches the name. *)
Definition unmatched (rs : list Resource) (name : string) : Prop :=
  ∀ r, r ∈ rs → pattern_matches (Pattern r) name = Ok false.

(** A whole device with partitioning enabled is passed over unless the
    strategy is "none". *)
Definition gpu_skipped (b : deviceMapBuilder) (gpu : gpu_unit) : Prop :=
  gpu_mig_enabled gpu = Ok true ∧ migStrategy b ≠ MigStrategyNone.

(** A read of the unit fails, or the unit is not passed over and matches no
    descriptor. *)
Definition gpu_fails (b : deviceMapBuilder) (gpu : gpu_unit) : Prop :=
  is_err (gpu_name gpu) ∨ is_err (gpu_mig_enabled gpu)
  ∨ (¬ gpu_skipped b gpu
     ∧ ((∃ name, gpu_name gpu = Ok name ∧ unmatched (resources b) name)
        ∨ info_read_fails (gpu_info gpu))).

Definition mig_fails (b : deviceMapBuilder) (mig : mig_unit) : Prop :=
  is_err (mig_profile mig)
  ∨ (∃ profile, mig_profile mig = Ok profile ∧ unmatched (resources b) profile)
  ∨ info_read_fails (mig_info mig).

(** The builder a manager runs. *)
Definition builder_of (p : PluginManager) : deviceMapBuilder :=
  {| Interface := pm_nvmllib p;
     resources := pm_resources p;
     migStrategy := pm_migStrategy p |}.

(** *** Sample managers *)

Definition manager_with (nvmllib : nvml) (resources : list Resource)
    (plugins : list NvidiaDevicePlugin) : PluginManager :=
  {| pm_migStrategy := MigStrategyNone;
     pm_devices := None;
     pm_nvmllib := nvmllib;
     pm_resources := resources;
     pm_plugins := plugins;
     pm_started := false;
     pm_restart := false;
     pm_restartTimeout := false |}.


Definition no_units : nvml := {| nvml_gpus := []; nvml_migs := [] |}.

(** A [Start] that fails for the server of one resource. *)
Definition fails_for (name : string) (p : NvidiaDevicePlugin) : option error :=
  if decide (resourceName p = name) then Some (ErrExternal "listen") else None.

Definition never_fails (p : NvidiaDevicePlugin) : option error := None.

(** Two whole devices, the second of a model no descriptor names. *)
Definition two_gpus : nvml :=
  {| nvml_gpus := [sample_gpu "Model-X" "GPU-1"; sample_gpu "Other" "GPU-2"];
     nvml_migs := [] |}.

Definition model_descriptor : Resource :=
  {| Pattern := "Model*"; Name := "nvidia.com/gpu" |}.

(** *** Replica-distributed allocation *)

(** The ids an allocation may add: available, known to the inventory, not
    required. *)
Definition satisfiable (ds : Devices) (available required : list string)
    : gset string :=
  filter (λ id, id ∈ available ∧ id ∉ required) (dom ds).

(** Every key of the inventory is the id of its device, as [setEntry]
    enters them. *)
Definition keyed_by_id (ds : Devices) : Prop :=
  ∀ k d, ds !! k = Some d → ID d = k.

(** The counters after the picks [picks]. *)
Definition replicas_after (replicas : ReplicaMap) (picks : list string)
    : ReplicaMap :=
  foldl (λ r p, take_replica r (GetID p)) replicas picks.

(** [picks] is a run of greedy choices from the candidates [c] under the
    counters [r]: each pick is a candidate left whose skew is least among
    the candidates left, and it costs its base id one available replica. *)
Inductive greedy_picks : ReplicaMap → list string → list string → Prop :=
  | greedy_done r c : greedy_picks r c []
  | greedy_pick r c p c' picks :
      c ≡ₚ p :: c' →
      (∀ q, q ∈ c → skew r p ≤ skew r q) →
      greedy_picks (take_replica r (GetID p)) c' picks →
      greedy_picks r c (p :: picks).

(** The picks as the specification words them: the first candidate, in the
    order given, among those of least skew. *)
Fixpoint first_least_skew (replicas : ReplicaMap) (candidates : list string)
    : option string :=
  match candidates with
  | [] => None
  | c :: cs =>
      match first_least_skew replicas cs with
      | Some d => if skew replicas d <? skew replicas c then Some d else Some c
      | None => Some c
      end
  end.

Fixpoint input_order_picks (n : nat) (replicas : ReplicaMap)
    (candidates : list string) : list string :=
  match n with
  | O => []
  | S n' =>
      match first_least_skew replicas candidates with
      | None => []
      | Some c =>
          c :: input_order_picks n' (take_replica replicas (GetID c))
                 (filter (λ x, x ≠ c) candidates)
      end
  end.

(** Two devices shared four ways each. *)
Definition eight_replicas : list string :=
  ["A::0"; "A::1"; "A::2"; "A::3"; "B::0"; "B::1"; "B::2"; "B::3"].

(** How many ids of a list have the base id [b]. *)
Definition count_base (b : string) (ids : list string) : Z :=
  Z.of_nat (length (filter (λ id, GetID id = b) ids)).
Arguments count_base : simpl never.

(** *** Wildcard patterns *)

(** [s] holds no newline. *)
Fixpoint no_newline (s : string) : Prop :=
  match s with
  | "" => True
  | String c s' => c ≠ "010"%char ∧ no_newline s'
  end.

(** [glob_match star p s]: the whole of [s] matches the wildcard pattern
    [p], where a [*] stands for any string that satisfies [star] and every
    other character for itself. *)
Inductive glob_match (star : string → Prop) : string → string → Prop :=
  | glob_empty : glob_match star "" ""
  | glob_star p s1 s2 :
      star s1 → glob_match star p s2 →
      glob_match star (String "*" p) (s1 +:+ s2)
  | glob_char c p s :
      c ≠ "*"%char → glob_match star p s →
      glob_match star (String c p) (String c s).

(** The expression a pattern is turned into, character by character: [.*]
    for a [*], the character for any other, escaped when [QuoteMeta]
    escapes it. *)
Fixpoint quoted_pattern (p : string) : string :=
  match p with
  | "" => ""
  | String c p' =>
      if decide (c = "*"%char) then String "." (String "*" (quoted_pattern p'))
      else if GoRegexp.special c then String "\"%char (String c (quoted_pattern p'))
      else String c (quoted_pattern p')
  end.

(** Its pieces once compiled. *)
Fixpoint pattern_pieces (p : string) : GoRegexp.regexp :=
  match p with
  | "" => []
  | String c p' =>
      (if decide (c = "*"%char) then GoRegexp.Star GoRegexp.AnyNotNL
       else GoRegexp.Once (GoRegexp.Lit c)) :: pattern_pieces p'
  end.

(** *** Device maps *)

(** Every bucket is named by a descriptor, holds a device, and is keyed by
    the ids of its devices, each device being as [BuildDevice] makes it. *)
Definition well_formed_map (rs : list Resource) (m : DeviceMap) : Prop :=
  ∀ name ds, m !! name = Some ds →
    (∃ r, r ∈ rs ∧ Name r = name)
    ∧ ds ≠ ∅
    ∧ ∀ k d, ds !! k = Some d → ID d = k ∧ Health d = Healthy ∧ Replicas d = 0.

(** The bucket [name] holds a device under the id [uuid]. *)
Definition has_entry (m : DeviceMap) (name uuid : string) : Prop :=
  ∃ ds d, m !! name = Some ds ∧ ds !! uuid = Some d ∧ ID d = uuid.

(** The device at [id] in the bucket [name], if any. *)
Definition entry (m : DeviceMap) (name id : string) : option Device :=
  m !! name ≫= λ ds, ds !! id.

Definition one_gpu : nvml :=
  {| nvml_gpus := [sample_gpu "Model-X" "GPU-1"]; nvml_migs := [] |}.

(** The servers a log shows [Stop] called on. *)
Definition stop_calls (log : list call) : list NvidiaDevicePlugin :=
  omap (λ c, match c with CallStop p => Some p | CallStart _ => None end) log.

(** * Properties *)

(** ** Strings *)

Lemma append_cons c s t : String c s +:+ t = String c (s +:+ t).
Proof. reflexivity. Qed.

Lemma append_empty_l s : "" +:+ s = s.
Proof. reflexivity. Qed.

Lemma append_empty_r s : s +:+ "" = s.
Proof. induction s as [|c s IH]; [done|]. by rewrite append_cons, IH. Qed.

Lemma append_assoc s t u : (s +:+ t) +:+ u = s +:+ t +:+ u.
Proof. induction s as [|c s IH]; [done|]. by rewrite !append_cons, IH. Qed.

Lemma append_length s t :
  String.length (s +:+ t) = (String.length s + String.length t)%nat.
Proof. induction s as [|c s IH]; [done|]. rewrite append_cons. simpl. by rewrite IH. Qed.

Lemma take_app s t : GoStrings.take (String.length s) (s +:+ t) = s.
Proof. induction s as [|c s IH]; [by destruct t|]. rewrite append_cons. simpl. by rewrite IH. Qed.

Lemma drop_app s t : GoStrings.drop (String.length s) (s +:+ t) = t.
Proof. induction s as [|c s IH]; [by destruct t|]. rewrite append_cons. simpl. by rewrite IH. Qed.

Lemma take_drop n s : GoStrings.take n s +:+ GoStrings.drop n s = s.
Proof.
  revert s. induction n as [|n IH]; intros [|c s]; simpl; try done.
  by rewrite append_cons, IH.
Qed.

Lemma HasPrefix_spec s p :
  GoStrings.HasPrefix s p = true ↔ ∃ r, s = p +:+ r.
Proof.
  revert s. induction p as [|c p IH]; intros s.
  - split; [intros _; by exists s|]. by destruct s.
  - destruct s as [|d s]; simpl.
    + split; [done|]. intros [r Hr]. by rewrite append_cons in Hr.
    + case_decide as Hc.
      * rewrite IH. split; intros [r Hr]; exists r.
        -- by rewrite append_cons, Hc, Hr.
        -- rewrite append_cons in Hr. by simplify_eq.
      * split; [done|]. intros [r Hr]. rewrite append_cons in Hr. by simplify_eq.
Qed.

Lemma Index_unfold s sub :
  GoStrings.Index s sub =
    if GoStrings.HasPrefix s sub then Some 0%nat
    else match s with
         | "" => None
         | String _ s' => S <$> GoStrings.Index s' sub
         end.
Proof. by destruct s. Qed.

Lemma Index_Some s sub m :
  GoStrings.Index s sub = Some m →
  ∃ suf, s = GoStrings.take m s +:+ sub +:+ suf
         ∧ GoStrings.drop (m + String.length sub) s = suf
         ∧ String.length (GoStrings.take m s) = m.
Proof.
  revert m. induction s as [|c s IH]; intros m; rewrite Index_unfold;
    destruct (GoStrings.HasPrefix _ sub) eqn:Hp.
  - intros [= <-]. apply HasPrefix_spec in Hp as [r Hr]. exists r.
    destruct sub; [|by rewrite append_cons in Hr]. rewrite append_empty_l in Hr.
    by subst r.
  - done.
  - intros [= <-]. apply HasPrefix_spec in Hp as [r Hr]. exists r.
    split_and!; [done| |done]. cbn [GoStrings.take Nat.add]. rewrite Hr.
    apply drop_app.
  - destruct (GoStrings.Index s sub) as [m'|] eqn:Hi; [|done].
    intros [= <-]. destruct (IH m' eq_refl) as (suf & Hs & Hd & Hl).
    exists suf. simpl. by rewrite append_cons, <- Hs, Hl.
Qed.

Lemma Index_None s sub : GoStrings.Index s sub = None → ¬ occurs_in sub s.
Proof.
  induction s as [|c s IH]; rewrite Index_unfold;
    destruct (GoStrings.HasPrefix _ sub) eqn:Hp; try done.
  - intros _ (pre & suf & Heq).
    destruct pre; [|by rewrite append_cons in Heq].
    assert (GoStrings.HasPrefix "" sub = true); [|congruence].
    apply HasPrefix_spec. by exists suf.
  - destruct (GoStrings.Index s sub) eqn:Hi; [done|]. intros _ (pre & suf & Heq).
    destruct pre as [|d pre].
    + assert (GoStrings.HasPrefix (String c s) sub = true); [|congruence].
      apply HasPrefix_spec. by exists suf.
    + rewrite append_cons in Heq. simplify_eq. apply IH; [done|]. by exists pre, suf.
Qed.

Lemma Contains_spec s sub : GoStrings.Contains s sub = true ↔ occurs_in sub s.
Proof.
  unfold GoStrings.Contains. destruct (GoStrings.Index s sub) as [m|] eqn:Hi.
  - split; [intros _|done]. apply Index_Some in Hi as (suf & Hs & _).
    by exists (GoStrings.take m s), suf.
  - split; [done|]. intros Ho. by apply Index_None in Hi.
Qed.

Lemma Index_first s sub m :
  GoStrings.Index s sub = Some m →
  ∀ k, (k < m)%nat → GoStrings.HasPrefix (GoStrings.drop k s) sub = false.
Proof.
  revert m. induction s as [|c s IH]; intros m; rewrite Index_unfold;
    destruct (GoStrings.HasPrefix _ sub) eqn:Hp.
  - intros [= <-] k ?. lia.
  - done.
  - intros [= <-] k ?. lia.
  - destruct (GoStrings.Index s sub) as [m'|] eqn:Hi; [|done].
    intros [= <-] [|k] Hk; [done|]. simpl. apply (IH m'); [done|lia].
Qed.

Lemma drop_add n k s :
  GoStrings.drop (n + k) s = GoStrings.drop k (GoStrings.drop n s).
Proof.
  revert s. induction n as [|n IH]; intros [|c s]; simpl; try done.
  by destruct k.
Qed.

Lemma occurs_in_cons sub c s : occurs_in sub s → occurs_in sub (String c s).
Proof. intros (pre & suf & ->). by exists (String c pre), suf. Qed.

Lemma last_byte_cons c d s : last_byte (String c (String d s)) = last_byte (String d s).
Proof. done. Qed.

(** ** Replica-annotated ids *)

Lemma Index_separator id rest :
  ¬ occurs_in "::" id → last_byte id ≠ Some ":"%char →
  GoStrings.Index (id +:+ "::" +:+ rest) "::" = Some (String.length id).
Proof.
  induction id as [|c id IH]; intros Hno Hlast.
  { by rewrite append_empty_l, !append_cons, append_empty_l, Index_unfold. }
  rewrite append_cons, Index_unfold.
  assert (GoStrings.HasPrefix (String c (id +:+ "::" +:+ rest)) "::" = false) as ->.
  { simpl. case_decide as Hc; [|done]. subst c. destruct id as [|d id].
    - by destruct Hlast.
    - rewrite append_cons. simpl. case_decide as Hd; [|done]. subst d.
      destruct Hno. by exists "", id. }
  rewrite IH; [done| |].
  - intros Ho. by apply Hno, occurs_in_cons.
  - destruct id; [done|]. by rewrite last_byte_cons in Hlast.
Qed.

Lemma SplitN_separator id rest :
  ¬ occurs_in "::" id → last_byte id ≠ Some ":"%char →
  GoStrings.SplitN (id +:+ "::" +:+ rest) "::" 2 = [id; rest].
Proof.
  intros Hno Hlast. unfold GoStrings.SplitN. simpl.
  rewrite Index_separator by done. rewrite take_app, drop_add, drop_app.
  done.
Qed.

Lemma SplitN_no_separator r :
  ¬ occurs_in "::" r → GoStrings.SplitN r "::" 2 = [r].
Proof.
  intros Hno. unfold GoStrings.SplitN. simpl.
  destruct (GoStrings.Index r "::") as [m|] eqn:Hi; [|done].
  destruct Hno. apply Contains_spec. unfold GoStrings.Contains. by rewrite Hi.
Qed.

Lemma digit_of_digit_char d :
  0 ≤ d < 10 → GoStrconv.digit_of (GoStrconv.digit_char d) = Some d.
Proof.
  intros Hd.
  assert (d = 0 ∨ d = 1 ∨ d = 2 ∨ d = 3 ∨ d = 4 ∨ d = 5 ∨ d = 6 ∨ d = 7
          ∨ d = 8 ∨ d = 9) as Hcases by lia.
  destruct_or!; by subst d.
Qed.

Lemma parse_format_digits fuel u acc :
  0 ≤ u < 10 ^ Z.of_nat fuel →
  GoStrconv.parse_digits (GoStrconv.format_digits fuel u acc) 0
  = GoStrconv.parse_digits acc u.
Proof.
  revert u acc. induction fuel as [|fuel IH]; intros u acc Hu.
  - simpl in *. by replace u with 0 by lia.
  - simpl. destruct (Z.ltb_spec u 10) as [Hlt|Hge].
    + simpl. rewrite digit_of_digit_char by lia. done.
    + rewrite IH.
      * simpl. rewrite digit_of_digit_char by (apply Z.mod_pos_bound; lia).
        f_equal. rewrite (Z.div_mod u 10) at 3 by lia. lia.
      * rewrite Nat2Z.inj_succ, Z.pow_succ_r in Hu by lia.
        split; [apply Z.div_pos; lia|]. apply Z.div_lt_upper_bound; lia.
Qed.

Lemma format_digits_starts fuel u acc :
  0 ≤ u → fuel ≠ O ∨ starts_with_digit acc →
  starts_with_digit (GoStrconv.format_digits fuel u acc).
Proof.
  revert u acc. induction fuel as [|fuel IH]; intros u acc Hu Hor.
  - by destruct Hor.
  - simpl. destruct (Z.ltb_spec u 10) as [Hlt|Hge].
    + simpl. rewrite digit_of_digit_char by lia. done.
    + apply IH; [apply Z.div_pos; lia|]. right. simpl.
      rewrite digit_of_digit_char by (apply Z.mod_pos_bound; lia). done.
Qed.

Lemma ParseInt_FormatInt idx :
  0 ≤ idx < 2 ^ 63 → GoStrconv.ParseInt (GoStrconv.FormatInt idx) = (idx, false).
Proof.
  intros Hidx. unfold GoStrconv.FormatInt.
  destruct (Z.ltb_spec idx 0) as [?|_]; [lia|].
  assert (starts_with_digit (GoStrconv.format_digits 20 idx "")) as Hstart.
  { apply format_digits_starts; [lia|by left]. }
  pose proof (parse_format_digits 20 idx "") as Hparse.
  destruct (GoStrconv.format_digits 20 idx "") as [|c s] eqn:Hfmt; [done|].
  destruct Hstart as [d Hd]. unfold GoStrconv.ParseInt.
  assert (c ≠ "+"%char ∧ c ≠ "-"%char) as [Hplus Hminus].
  { split; intros ->; by vm_compute in Hd. }
  rewrite bool_decide_eq_false_2 by done.
  rewrite decide_False by (intros [?|?]; done).
  unfold GoStrconv.ParseUint. rewrite Hparse by (split; [lia|]; lia). simpl.
  destruct (Z.ltb_spec idx (2 ^ 64)) as [_|?]; [|lia].
  destruct (Z.leb_spec (2 ^ 63) idx) as [?|_]; [lia|]. done.
Qed.

Lemma not_occurs_in_Contains sub s :
  GoStrings.Contains s sub = false → ¬ occurs_in sub s.
Proof. intros Hc Ho%Contains_spec. congruence. Qed.

(** C9 (amended). For an id in which the separator "::" does not occur:
    when, besides, the id does not end in ':' and [idx] is a non-negative
    [int], decomposing the composed id gives back the pair,
    [Split(NewAnnotatedID(id, idx)) = (id, idx)]; and decomposing the id
    itself, which has no separator, gives index 0. *)
Theorem annotated_id_round_trip (id : string) (idx : Z) :
  ¬ occurs_in "::" id →
  (last_byte id ≠ Some ":"%char → 0 ≤ idx < 2 ^ 63 →
     AnnotatedID_Split (NewAnnotatedID id idx) = (id, idx))
  ∧ AnnotatedID_Split id = (id, 0).
Proof.
  intros Hno. split.
  - intros Hlast Hidx. unfold AnnotatedID_Split, NewAnnotatedID.
    rewrite SplitN_separator by done. by rewrite ParseInt_FormatInt.
  - unfold AnnotatedID_Split. by rewrite SplitN_no_separator.
Qed.

Lemma annotated_id_round_trip_witness :
  AnnotatedID_Split (NewAnnotatedID "GPU-1" 3) = ("GPU-1", 3)
  ∧ AnnotatedID_Split "GPU-1" = ("GPU-1", 0).
Proof.
  destruct (annotated_id_round_trip "GPU-1" 3) as [Hpair Hplain].
  - by apply not_occurs_in_Contains.
  - split; [apply Hpair|exact Hplain]; [done|lia].
Defined.

(** C9 as stated fails: "a:" holds no "::", yet composing it with 5 gives
    "a:::5", whose first "::" starts inside the id. *)
Lemma annotated_id_round_trip_counterexample :
  ¬ occurs_in "::" "a:"
  ∧ 0 ≤ 5
  ∧ AnnotatedID_Split (NewAnnotatedID "a:" 5) = ("a", 0)
  ∧ AnnotatedID_Split (NewAnnotatedID "a:" 5) ≠ ("a:", 5).
Proof.
  split_and!; [by apply not_occurs_in_Contains|lia|done|done].
Qed.

(** ** The runtimes *)

Lemma insert_sorted_perm less x l : insert_sorted less x l ≡ₚ x :: l.
Proof.
  induction l as [|y l IH]; simpl; [done|].
  destruct (less y x); [|done]. rewrite IH. apply Permutation_swap.
Qed.

Lemma insertion_sort_perm less l : insertion_sort less l ≡ₚ l.
Proof.
  induction l as [|x l IH]; simpl; [done|].
  by rewrite insert_sorted_perm, IH.
Qed.

Lemma insert_sorted_sorted (key : string → Z) x l :
  StronglySorted (λ a b, key a ≤ key b) l →
  StronglySorted (λ a b, key a ≤ key b)
    (insert_sorted (λ a b, bool_decide (key a < key b)) x l).
Proof.
  induction 1 as [|y l Hl IH Hy]; simpl.
  - by repeat constructor.
  - case_bool_decide as Hlt.
    + constructor; [done|]. rewrite insert_sorted_perm.
      constructor; [lia|done].
    + constructor; [by constructor|].
      constructor; [lia|]. eapply Forall_impl; [done|]. simpl. lia.
Qed.

Lemma insertion_sort_sorted (key : string → Z) l :
  StronglySorted (λ a b, key a ≤ key b)
    (insertion_sort (λ a b, bool_decide (key a < key b)) l).
Proof.
  induction l as [|x l IH]; simpl; [constructor|].
  by apply insert_sorted_sorted.
Qed.

Lemma forward_runtime_ok : GoRuntimeOk forward_runtime.
Proof.
  split; simpl.
  - done.
  - apply insertion_sort_perm.
  - apply insertion_sort_sorted.
Qed.

Lemma backward_runtime_ok : GoRuntimeOk backward_runtime.
Proof.
  split; simpl.
  - intros V m. apply reverse_Permutation.
  - apply insertion_sort_perm.
  - apply insertion_sort_sorted.
Qed.

Lemma range_order_lookup `{rt : GoRuntime} (ok : GoRuntimeOk rt) {V} (m : gmap string V) k v :
  (k, v) ∈ range_order m ↔ m !! k = Some v.
Proof. rewrite (range_order_perm rt ok). apply elem_of_map_to_list. Qed.

(** ** Inventories *)

Lemma Contains_Forall (ds : Devices) ids :
  Contains ds ids = true ↔ Forall (λ id, is_Some (ds !! id)) ids.
Proof.
  induction ids as [|id ids IH]; simpl; [by split|].
  rewrite Forall_cons. destruct (ds !! id) eqn:Hid.
  - rewrite IH. split; [by split|]. by intros [_ ?].
  - split; [done|]. intros [[? ?] _]. done.
Qed.

Lemma Contains_one (ds : Devices) id :
  Contains ds [id] = bool_decide (is_Some (ds !! id)).
Proof. simpl. by destruct (ds !! id). Qed.

(** ** Allocate *)

Lemma Allocate_loop_spec plugin reqs acc :
  Allocate_loop plugin reqs acc =
    if forallb (Contains (devices plugin)) reqs
    then Ok (acc ++ (env_response <$> reqs))
    else Err (ErrInvalidAllocationRequest (resourceName plugin)).
Proof.
  revert acc. induction reqs as [|req reqs IH]; intros acc; simpl.
  - by rewrite app_nil_r.
  - destruct (Contains (devices plugin) req); simpl; [|done].
    rewrite IH. destruct (forallb _ reqs); [|done]. by rewrite <- app_assoc.
Qed.

Lemma forallb_Contains (ds : Devices) (reqs : list (list string)) :
  forallb (Contains ds) reqs = true
  ↔ ∀ req id, req ∈ reqs → id ∈ req → is_Some (ds !! id).
Proof.
  rewrite <- Is_true_true, forallb_True, Forall_forall.
  setoid_rewrite Is_true_true. setoid_rewrite Contains_Forall.
  setoid_rewrite Forall_forall. naive_solver.
Qed.

(** C7. [Allocate] gives the plugin back as it was. If some requested id of
    some container is absent from the inventory, the call fails and returns
    no response; if every requested id is in the inventory, it returns one
    response per container, in order, each binding NVIDIA_VISIBLE_DEVICES to
    the container's ids joined with commas in the order requested. *)
Theorem Allocate_all_or_nothing (plugin : NvidiaDevicePlugin)
    (reqs : list (list string)) :
  (Allocate plugin reqs).1 = plugin
  ∧ ((∃ req id, req ∈ reqs ∧ id ∈ req ∧ devices plugin !! id = None) →
     (Allocate plugin reqs).2 =
       Err (ErrInvalidAllocationRequest (resourceName plugin)))
  ∧ ((∀ req id, req ∈ reqs → id ∈ req → is_Some (devices plugin !! id)) →
     (Allocate plugin reqs).2 =
       Ok ((λ req, {| Envs := {[ "NVIDIA_VISIBLE_DEVICES" :=
                                  GoStrings.Join req "," ]} |}) <$> reqs)).
Proof.
  split; [done|]. unfold Allocate. simpl. rewrite Allocate_loop_spec.
  destruct (forallb _ reqs) eqn:Hall.
  - pose proof (proj1 (forallb_Contains _ _) Hall) as Hin. split; [|done].
    intros (req & id & Hreq & Hid & Hnone).
    destruct (Hin req id Hreq Hid) as [d Hd]. congruence.
  - split; [done|]. intros Hin. apply forallb_Contains in Hin. congruence.
Qed.

Lemma Allocate_all_or_nothing_witness :
  (Allocate (sample_plugin ["GPU-0"; "GPU-1"]) [["GPU-1"; "GPU-0"]; ["GPU-0"]]).2
  = Ok [ {| Envs := {[ "NVIDIA_VISIBLE_DEVICES" := "GPU-1,GPU-0" ]} |};
         {| Envs := {[ "NVIDIA_VISIBLE_DEVICES" := "GPU-0" ]} |} ]
  ∧ (Allocate (sample_plugin ["GPU-0"; "GPU-1"]) [["GPU-0"]; ["GPU-7"]]).2
    = Err (ErrInvalidAllocationRequest "nvidia.com/gpu").
Proof.
  split.
  - apply (Allocate_all_or_nothing (sample_plugin ["GPU-0"; "GPU-1"])
             [["GPU-1"; "GPU-0"]; ["GPU-0"]]).
    by apply forallb_Contains.
  - apply (Allocate_all_or_nothing (sample_plugin ["GPU-0"; "GPU-1"])
             [["GPU-0"]; ["GPU-7"]]).
    exists ["GPU-7"], "GPU-7". split_and!; [|by left|done].
    right. by left.
Defined.

(** C10. A container request with no device id passes the containment
    test, and alone it is answered with NVIDIA_VISIBLE_DEVICES bound to the
    empty string. Put anywhere among other requests it never makes the call
    fail: the call answers as it does without it, with that same binding
    added at the request's place. *)
Theorem Allocate_empty_request (plugin : NvidiaDevicePlugin)
    (before after : list (list string)) :
  Contains (devices plugin) [] = true
  ∧ (Allocate plugin [[]]).2
    = Ok [ {| Envs := {[ "NVIDIA_VISIBLE_DEVICES" := "" ]} |} ]
  ∧ (Allocate plugin (before ++ [] :: after)).2
    = (λ rs, take (length before) rs
             ++ {| Envs := {[ "NVIDIA_VISIBLE_DEVICES" := "" ]} |}
             :: drop (length before) rs)
      <$> (Allocate plugin (before ++ after)).2.
Proof.
  split_and!; [done..|]. unfold Allocate. simpl. rewrite !Allocate_loop_spec.
  rewrite !forallb_app. simpl.
  destruct (forallb _ before), (forallb _ after); simpl; try done.
  f_equal. rewrite !fmap_app, fmap_cons.
  rewrite take_app_length', drop_app_length' by by rewrite length_fmap.
  done.
Qed.

(** ** The choice of the allocation policy *)

Lemma IsMigDevice_spec d : IsMigDevice d = true ↔ occurs_in ":" (Index d).
Proof. apply Contains_spec. Qed.

Lemma no_dxg_path_spec paths : no_dxg_path paths = true ↔ "/dev/dxg" ∉ paths.
Proof.
  induction paths as [|p paths IH]; simpl.
  - split; [intros _; apply not_elem_of_nil|done].
  - rewrite not_elem_of_cons. case_decide as Hp.
    + split; [done|]. intros [? _]. by subst.
    + rewrite IH. split; [by split|by intros [_ ?]].
Qed.

Lemma Device_AlignedAllocationSupported_spec d :
  Device_AlignedAllocationSupported d = true ↔ supports_aligned d.
Proof.
  unfold Device_AlignedAllocationSupported, supports_aligned.
  rewrite <- IsMigDevice_spec, <- no_dxg_path_spec.
  destruct (IsMigDevice d).
  - split; [done|]. by intros [[] _].
  - split; [by split|by intros [_ ?]].
Qed.

Lemma all_aligned_spec (l : list (string * Device)) :
  all_aligned l = true
  ↔ ∀ kv, kv ∈ l → Device_AlignedAllocationSupported kv.2 = true.
Proof.
  induction l as [|kv l IH]; simpl.
  - split; [|done]. intros _ kv Hkv. by apply elem_of_nil in Hkv.
  - destruct (Device_AlignedAllocationSupported kv.2) eqn:Hkv; simpl.
    + rewrite IH. split.
      * intros Hl kv' [->|?]%elem_of_cons; auto.
      * intros Hl kv' ?. apply Hl. by right.
    + split; [done|]. intros Hl. rewrite Hl in Hkv; [done|by left].
Qed.

Lemma AlignedAllocationSupported_spec `{rt : GoRuntime} (ok : GoRuntimeOk rt)
    (ds : Devices) :
  AlignedAllocationSupported ds = true
  ↔ ∀ k d, ds !! k = Some d → supports_aligned d.
Proof.
  unfold AlignedAllocationSupported. rewrite all_aligned_spec. split.
  - intros Hall k d Hkd. apply Device_AlignedAllocationSupported_spec.
    apply (Hall (k, d)). by apply range_order_lookup.
  - intros Hall [k d] Hkd. apply Device_AlignedAllocationSupported_spec.
    apply (Hall k). by apply range_order_lookup in Hkd.
Qed.

Lemma HasAnnotations_spec r : HasAnnotations r = true ↔ occurs_in "::" r.
Proof.
  rewrite <- Contains_spec. unfold HasAnnotations, GoStrings.Contains, GoStrings.SplitN.
  simpl. by destruct (GoStrings.Index r "::").
Qed.

Lemma AnyHasAnnotations_spec rs :
  AnyHasAnnotations rs = false ↔ ∀ id, id ∈ rs → ¬ occurs_in "::" id.
Proof.
  induction rs as [|r rs IH]; simpl.
  - split; [|done]. intros _ id Hid. by apply elem_of_nil in Hid.
  - destruct (HasAnnotations r) eqn:Hr.
    + split; [done|]. intros Hall. destruct (Hall r); [by left|].
      by apply HasAnnotations_spec.
    + rewrite IH. split.
      * intros Hall id [->|?]%elem_of_cons; [|by apply Hall].
        rewrite <- HasAnnotations_spec. congruence.
      * intros Hall id ?. apply Hall. by right.
Qed.

Lemma aligned_applies_spec `{rt : GoRuntime} (ok : GoRuntimeOk rt)
    (ds : Devices) available :
  AlignedAllocationSupported ds && negb (AnyHasAnnotations available) = true
  ↔ aligned_applies ds available.
Proof.
  unfold aligned_applies.
  rewrite andb_true_iff, negb_true_iff, AnyHasAnnotations_spec.
  by rewrite (AlignedAllocationSupported_spec ok).
Qed.

(** C6. Under a runtime that keeps Go's promises, and whatever the external
    topology allocator is: a preferred-allocation request is answered by the
    topology-aligned policy when every device of the inventory supports
    aligned allocation and no available id holds the separator "::", and by
    the replica-distributed policy otherwise. One device supports aligned
    allocation exactly when its topology index holds no ':' and none of its
    paths is "/dev/dxg". *)
Theorem preferred_allocation_policy `{rt : GoRuntime} (ok : GoRuntimeOk rt)
    (alignedAlloc : NvidiaDevicePlugin → list string → list string → Z
                    → option (result (list string)))
    (plugin : NvidiaDevicePlugin) (available required : list string) (size : Z) :
  (aligned_applies (devices plugin) available →
     getPreferredAllocation alignedAlloc plugin available required size
     = alignedAlloc plugin available required size)
  ∧ (¬ aligned_applies (devices plugin) available →
     getPreferredAllocation alignedAlloc plugin available required size
     = distributedAlloc plugin available required size)
  ∧ (∀ d, Device_AlignedAllocationSupported d = true
          ↔ ¬ occurs_in ":" (Index d) ∧ "/dev/dxg" ∉ Paths d).
Proof.
  split_and!.
  - intros Ha%(aligned_applies_spec ok). unfold getPreferredAllocation.
    by rewrite Ha.
  - intros Hna. unfold getPreferredAllocation.
    destruct (_ && _) eqn:Ha; [|done].
    by apply (aligned_applies_spec ok) in Ha.
  - apply Device_AlignedAllocationSupported_spec.
Qed.

Lemma preferred_allocation_policy_witness :
  getPreferredAllocation (rt := forward_runtime) sample_alignedAlloc
    (sample_plugin ["GPU-0"; "GPU-1"]) ["GPU-0"; "GPU-1"] [] 1
  = sample_alignedAlloc (sample_plugin ["GPU-0"; "GPU-1"]) ["GPU-0"; "GPU-1"] [] 1
  ∧ getPreferredAllocation (rt := forward_runtime) sample_alignedAlloc
      (sample_plugin ["GPU-0::0"; "GPU-0::1"]) ["GPU-0::0"; "GPU-0::1"] [] 1
    = distributedAlloc (rt := forward_runtime)
        (sample_plugin ["GPU-0::0"; "GPU-0::1"]) ["GPU-0::0"; "GPU-0::1"] [] 1.
Proof.
  split.
  - apply (preferred_allocation_policy forward_runtime_ok).
    by apply (aligned_applies_spec forward_runtime_ok).
  - apply (preferred_allocation_policy forward_runtime_ok).
    intros Ha. apply (aligned_applies_spec forward_runtime_ok) in Ha.
    vm_compute in Ha. discriminate Ha.
Defined.

(** ** Crash-loop protection *)

Lemma serve_loop_unfold st seen returns :
  serve_loop st seen returns =
    if 5 <? restartCount st then Fatal seen
    else match returns with
         | [] => Serving st
         | ServeReturned :: _ => Exited seen
         | ServeFailed now :: returns' =>
             serve_loop (after_crash st now) (S seen) returns'
         end.
Proof. by destruct returns. Qed.

Lemma after_crash_count st now :
  restartCount (after_crash st now) =
    if one_hour <? now - lastCrashTime st then 0 else restartCount st + 1.
Proof. unfold after_crash. simpl. by destruct (one_hour <? _). Qed.

Lemma after_crash_time st now : lastCrashTime (after_crash st now) = now.
Proof. unfold after_crash. simpl. by destruct (one_hour <? _). Qed.

(** Failures more than an hour apart keep the counter at 0. *)
Lemma serve_loop_gaps_exceed st seen ts :
  restartCount st ≤ 5 → gaps_exceed (lastCrashTime st) ts →
  ∃ st', serve_loop st seen (ServeFailed <$> ts) = Serving st'
         ∧ (ts ≠ [] → restartCount st' = 0).
Proof.
  revert st seen. induction ts as [|t ts IH]; intros st seen Hst Hgaps;
    rewrite serve_loop_unfold; destruct (Z.ltb_spec 5 (restartCount st)); try lia.
  - by exists st.
  - destruct Hgaps as [Hgap Hgaps]. simpl.
    assert (restartCount (after_crash st t) = 0) as Hzero.
    { rewrite after_crash_count. by destruct (Z.ltb_spec one_hour (t - lastCrashTime st)); [|lia]. }
    destruct (IH (after_crash st t) (S seen)) as (st' & Hrun & Hcount).
    + lia.
    + by rewrite after_crash_time.
    + exists st'. split; [done|]. intros _. destruct ts as [|u ts]; [|by apply Hcount].
      rewrite serve_loop_unfold in Hrun. rewrite Hzero in Hrun. simpl in Hrun.
      by simplify_eq.
Qed.

(** The counter grows by at most one for each failure. *)
Lemma serve_loop_few st seen ts :
  0 ≤ restartCount st →
  restartCount st + Z.of_nat (length ts) ≤ 5 →
  ∃ st', serve_loop st seen (ServeFailed <$> ts) = Serving st'.
Proof.
  revert st seen. induction ts as [|t ts IH]; intros st seen Hpos Hst;
    rewrite serve_loop_unfold; cbn [length] in Hst;
    destruct (Z.ltb_spec 5 (restartCount st)); try lia.
  - by exists st.
  - simpl. apply IH; rewrite after_crash_count; destruct (one_hour <? _); lia.
Qed.

(** Failures at most an hour apart each add one; past 5 the loop is fatal. *)
Lemma serve_loop_gaps_within st seen ts more :
  0 ≤ restartCount st → gaps_within (lastCrashTime st) ts →
  restartCount st + Z.of_nat (length ts) = 6 →
  serve_loop st seen ((ServeFailed <$> ts) ++ more) = Fatal (seen + length ts).
Proof.
  revert st seen. induction ts as [|t ts IH]; intros st seen Hpos Hgaps Hlen;
    rewrite serve_loop_unfold; simpl in Hlen.
  - destruct (Z.ltb_spec 5 (restartCount st)); [|lia]. simpl. f_equal. lia.
  - destruct (Z.ltb_spec 5 (restartCount st)); [lia|]. destruct Hgaps as [Hgap Hgaps].
    simpl. rewrite IH.
    + f_equal. lia.
    + rewrite after_crash_count. destruct (one_hour <? _); lia.
    + by rewrite after_crash_time.
    + rewrite after_crash_count.
      destruct (Z.ltb_spec one_hour (t - lastCrashTime st)); lia.
Qed.

Lemma within_one_hour_gaps prev ts :
  StronglySorted Z.le (prev :: ts) →
  (∀ t, t ∈ ts → t - prev ≤ one_hour) →
  gaps_within prev ts.
Proof.
  revert prev. induction ts as [|t ts IH]; intros prev Hsorted Hwin; [done|].
  simpl. split; [apply Hwin; by left|].
  apply StronglySorted_inv in Hsorted as [Hsorted Hprev].
  apply IH; [done|]. intros u Hu.
  apply Forall_cons in Hprev as [Hpt _].
  assert (u - prev ≤ one_hour) by (apply Hwin; by right). lia.
Qed.

Lemma last_crash_cons start t ts : last_crash start (t :: ts) = last_crash t ts.
Proof.
  unfold last_crash. rewrite last_cons. by destruct (last ts).
Qed.

(** A run of failures never ends the goroutine by a return of [Serve]. *)
Lemma serve_loop_failures st seen ts :
  (∃ st', serve_loop st seen (ServeFailed <$> ts) = Serving st')
  ∨ (∃ n, serve_loop st seen (ServeFailed <$> ts) = Fatal n).
Proof.
  revert st seen. induction ts as [|t ts IH]; intros st seen;
    rewrite serve_loop_unfold; destruct (5 <? restartCount st); eauto.
  apply IH.
Qed.

(** After failures that leave the loop serving, it goes on from the state
    they leave: the time of the last of them and a counter from 0 to 5. *)
Lemma serve_loop_app st seen before rest st' :
  serve_loop st seen (ServeFailed <$> before) = Serving st' →
  serve_loop st seen ((ServeFailed <$> before) ++ rest)
  = serve_loop st' (seen + length before) rest
  ∧ lastCrashTime st' = last_crash (lastCrashTime st) before
  ∧ restartCount st' ≤ 5
  ∧ (0 ≤ restartCount st → 0 ≤ restartCount st').
Proof.
  revert st seen. induction before as [|t before IH]; intros st seen;
    rewrite serve_loop_unfold; destruct (Z.ltb_spec 5 (restartCount st));
    try discriminate.
  - intros [= <-]. rewrite Nat.add_0_r. by split_and!.
  - cbn [fmap list_fmap app]. intros Hrun.
    rewrite (serve_loop_unfold st seen).
    destruct (Z.ltb_spec 5 (restartCount st)); [lia|].
    destruct (IH _ _ Hrun) as (Hgo & Htime & Hle & Hpos).
    rewrite Hgo. cbn [length]. rewrite <-Nat.add_succ_comm. split_and!; [done| |done|].
    + by rewrite Htime, after_crash_time, last_crash_cons.
    + intros Hst. apply Hpos. rewrite after_crash_count.
      destruct (one_hour <? _); lia.
Qed.

(** A fatal end stays one whatever comes after. *)
Lemma serve_loop_fatal_app st seen before rest n :
  serve_loop st seen (ServeFailed <$> before) = Fatal n →
  serve_loop st seen ((ServeFailed <$> before) ++ rest) = Fatal n
  ∧ (n ≤ seen + length before)%nat.
Proof.
  revert st seen. induction before as [|t before IH]; intros st seen;
    rewrite (serve_loop_unfold st seen (_ ++ _)), (serve_loop_unfold st seen (_ <$> _));
    destruct (5 <? restartCount st); try discriminate.
  - intros [= <-]. split; [done|lia].
  - intros [= <-]. split; [done|lia].
  - cbn [fmap list_fmap app length]. intros Hrun.
    destruct (IH _ _ Hrun) as [Hgo Hle]. split; [done|lia].
Qed.

(** Failures each at most an hour after the one before are fatal once the
    counter has passed 5, however the loop reached its state. *)
Lemma serve_loop_burst st seen ts more :
  0 ≤ restartCount st → gaps_within (lastCrashTime st) ts →
  6 ≤ restartCount st + Z.of_nat (length ts) →
  ∃ n, (seen ≤ n ≤ seen + length ts)%nat
       ∧ serve_loop st seen ((ServeFailed <$> ts) ++ more) = Fatal n.
Proof.
  revert st seen. induction ts as [|t ts IH]; intros st seen Hpos Hgaps Hlen;
    rewrite serve_loop_unfold; cbn [length] in *;
    destruct (Z.ltb_spec 5 (restartCount st)).
  - exists seen. split; [lia|done].
  - lia.
  - exists seen. split; [lia|done].
  - destruct Hgaps as [Hgap Hgaps]. cbn [fmap list_fmap app].
    destruct (IH (after_crash st t) (S seen)) as (n & Hn & Hrun).
    + rewrite after_crash_count. destruct (one_hour <? _); lia.
    + by rewrite after_crash_time.
    + rewrite after_crash_count.
      destruct (Z.ltb_spec one_hour (t - lastCrashTime st)); lia.
    + exists n. split; [lia|done].
Qed.

(** Failures each more than an hour after the one before leave the loop
    serving, whenever the first of them comes. *)
Lemma serve_loop_spaced_apart st seen ts :
  0 ≤ restartCount st ≤ 4 → spaced_apart ts →
  ∃ st', serve_loop st seen (ServeFailed <$> ts) = Serving st'.
Proof.
  intros Hst Hts. destruct ts as [|t ts].
  - rewrite serve_loop_unfold. destruct (Z.ltb_spec 5 (restartCount st)); [lia|].
    by exists st.
  - rewrite serve_loop_unfold. destruct (Z.ltb_spec 5 (restartCount st)); [lia|].
    cbn [fmap list_fmap].
    destruct (serve_loop_gaps_exceed (after_crash st t) (S seen) ts)
      as (st' & Hrun & _).
    + rewrite after_crash_count. destruct (one_hour <? _); lia.
    + by rewrite after_crash_time.
    + by exists st'.
Qed.

(** C4 (amended). The serving loop starts with the counter at 0 and the
    time of the last crash at its own start. Each failure sets the counter
    to 0 when it comes more than an hour after the failure before it (after
    the start, for the first) and adds 1 to it otherwise, and becomes the
    last crash; before each start of the server the loop is fatal exactly
    when the counter has passed 5. Hence:
    - failures each more than an hour after the one before never are fatal,
      however many they are and whenever the first of them comes;
    - no run of at most 5 failures is;
    - 6 failures each at most an hour after the one before, the first at
      most an hour after the failure that precedes it (after the start when
      it is the first of all), always are, at the 6th at the latest,
      whatever failures came earlier; the loop ends exactly at the failure
      that takes the counter to 6;
    - 7 failures in time order within one hour always are, whatever came
      earlier, and so are 6 failures within the first hour of the loop. *)
Theorem crash_loop_protection (start : Z) :
  (∀ st now,
     after_crash st now =
       {| lastCrashTime := now;
          restartCount := if one_hour <? now - lastCrashTime st
                          then 0 else restartCount st + 1 |})
  ∧ (∀ st seen returns,
       5 < restartCount st → serve_loop st seen returns = Fatal seen)
  ∧ (∀ st seen, restartCount st ≤ 5 →
       serve_loop st seen [] = Serving st
       ∧ ∀ now returns,
           serve_loop st seen (ServeFailed now :: returns)
           = serve_loop (after_crash st now) (S seen) returns)
  ∧ (∀ ts, spaced_apart ts →
       ∃ st, serve_goroutine start (ServeFailed <$> ts) = Serving st)
  ∧ (∀ ts, (length ts ≤ 5)%nat →
       ∃ st, serve_goroutine start (ServeFailed <$> ts) = Serving st)
  ∧ (∀ before ts more,
       length ts = 6%nat → gaps_within (last_crash start before) ts →
       ∃ n, (n ≤ length before + 6)%nat
            ∧ serve_goroutine start
                ((ServeFailed <$> before ++ ts) ++ more) = Fatal n)
  ∧ (∀ before ts more st,
       serve_goroutine start (ServeFailed <$> before) = Serving st →
       gaps_within (last_crash start before) ts →
       restartCount st + Z.of_nat (length ts) = 6 →
       serve_goroutine start ((ServeFailed <$> before ++ ts) ++ more)
       = Fatal (length before + length ts))
  ∧ (∀ before ts more,
       length ts = 7%nat → within_one_hour ts →
       ∃ n, (n ≤ length before + 7)%nat
            ∧ serve_goroutine start
                ((ServeFailed <$> before ++ ts) ++ more) = Fatal n)
  ∧ (∀ ts more,
       length ts = 6%nat → StronglySorted Z.le (start :: ts) →
       (∀ t, t ∈ ts → t - start ≤ one_hour) →
       serve_goroutine start ((ServeFailed <$> ts) ++ more) = Fatal 6).
Proof.
  assert (∀ before ts more, (6 ≤ length ts)%nat →
            gaps_within (last_crash start before) ts →
            ∃ n, (n ≤ length before + length ts)%nat
                 ∧ serve_goroutine start
                     ((ServeFailed <$> before ++ ts) ++ more) = Fatal n)
    as Hburst.
  { intros before ts more Hlen Hgaps. unfold serve_goroutine.
    rewrite fmap_app, <-(assoc_L (++)).
    destruct (serve_loop_failures
                {| lastCrashTime := start; restartCount := 0 |} 0 before)
      as [[st Hrun]|[n Hrun]].
    - destruct (serve_loop_app _ _ _ ((ServeFailed <$> ts) ++ more) _ Hrun)
        as (-> & Htime & Hle & Hpos). cbn [lastCrashTime restartCount] in *.
      destruct (serve_loop_burst st (0 + length before) ts more)
        as (n & Hn & Hfatal); [lia|by rewrite Htime|lia|].
      exists n. split; [lia|done].
    - destruct (serve_loop_fatal_app _ _ _ ((ServeFailed <$> ts) ++ more) _ Hrun)
        as [-> Hn]. exists n. split; [lia|done]. }
  split_and!.
  - intros st now. unfold after_crash. cbn zeta. by destruct (one_hour <? _).
  - intros st seen returns Hst. rewrite serve_loop_unfold.
    by destruct (Z.ltb_spec 5 (restartCount st)); [|lia].
  - intros st seen Hst. split; [|intros now returns];
      rewrite serve_loop_unfold;
      by destruct (Z.ltb_spec 5 (restartCount st)); [lia|].
  - intros ts Hts. apply serve_loop_spaced_apart; [simpl; lia|done].
  - intros ts Hlen. apply serve_loop_few; simpl; lia.
  - intros before ts more Hlen Hgaps.
    destruct (Hburst before ts more) as (n & Hn & Hrun); [lia|done|].
    exists n. split; [lia|done].
  - intros before ts more st Hrun Hgaps Hlen. unfold serve_goroutine in *.
    rewrite fmap_app, <-(assoc_L (++)).
    destruct (serve_loop_app _ _ _ ((ServeFailed <$> ts) ++ more) _ Hrun)
      as (-> & Htime & Hle & Hpos). cbn [lastCrashTime restartCount] in *.
    rewrite serve_loop_gaps_within; [done|lia|by rewrite Htime|done].
  - intros before ts more Hlen [Hsorted Hwin].
    destruct ts as [|t ts]; [done|]. cbn [length] in Hlen.
    destruct (Hburst (before ++ [t]) ts more) as (n & Hn & Hrun); [lia| |].
    + unfold last_crash. rewrite last_snoc. cbn [default].
      apply within_one_hour_gaps; [done|].
      intros u Hu. apply Forall_cons in Hwin as [_ Hwin].
      by eapply Forall_forall in Hwin.
    + rewrite length_app in Hn. cbn [length] in Hn.
      exists n. split; [lia|]. by rewrite <-(assoc_L (++)) in Hrun.
  - intros ts more Hlen Hsorted Hwin. unfold serve_goroutine.
    rewrite serve_loop_gaps_within; cbn [lastCrashTime restartCount];
      [by rewrite Hlen|lia|by apply within_one_hour_gaps|lia].
Qed.

(** Seven failures at 600 s, 8000 s, 16000 s, ... after the start leave the
    server serving; a failure after two hours followed by six more one
    second apart is fatal at the seventh failure. *)
Lemma crash_loop_protection_witness :
  (∃ st, serve_goroutine 0
           (ServeFailed <$> [seconds 600; seconds 8000; seconds 16000;
                             seconds 24000; seconds 32000; seconds 40000;
                             seconds 48000]) = Serving st)
  ∧ serve_goroutine 0
      ((ServeFailed <$> [seconds 7200] ++
                        [seconds 7201; seconds 7202; seconds 7203;
                         seconds 7204; seconds 7205; seconds 7206])
       ++ [ServeFailed (seconds 9000)])
    = Fatal 7.
Proof.
  split.
  - destruct (crash_loop_protection 0) as (_ & _ & _ & Hspaced & _).
    apply Hspaced. vm_compute. by repeat split.
  - destruct (crash_loop_protection 0) as (_ & _ & _ & _ & _ & _ & Hexact & _).
    refine (Hexact [seconds 7200]
              [seconds 7201; seconds 7202; seconds 7203; seconds 7204;
               seconds 7205; seconds 7206]
              [ServeFailed (seconds 9000)]
              {| lastCrashTime := seconds 7200; restartCount := 0 |} _ _ _).
    + reflexivity.
    + vm_compute. repeat split; discriminate.
    + reflexivity.
Defined.

(** C4 as stated fails: a server that has run for two hours and then fails
    6 times within 5 seconds is restarted a 6th time; the first of these
    failures came more than an hour after the start and set the counter
    to 0. *)
Lemma crash_loop_counterexample :
  within_one_hour [seconds 7200; seconds 7201; seconds 7202; seconds 7203;
                   seconds 7204; seconds 7205]
  ∧ serve_goroutine 0
      (ServeFailed <$> [seconds 7200; seconds 7201; seconds 7202; seconds 7203;
                        seconds 7204; seconds 7205])
    = Serving {| lastCrashTime := seconds 7205; restartCount := 5 |}.
Proof.
  split; [|done]. split.
  - repeat constructor; by vm_compute.
  - repeat constructor; by vm_compute.
Qed.

(** ** StartPlugins *)


(** [Stop] panics exactly on a closed channel whose socket it can remove. *)
Lemma Stop_panics os_Remove p closed :
  Stop os_Remove p closed = None ↔ os_Remove p = None ∧ closed = true.
Proof.
  unfold Stop. destruct (os_Remove p), closed; simpl; split; try done;
    by intros [? ?].
Qed.


(** [Start] returns nil exactly when neither [Serve] nor [Register] fails,
    and then leaves the stop channel as it was. *)
Lemma Start_succeeds Serve Register RemoveAgain p closed closed' :
  Start Serve Register RemoveAgain p closed = Some (closed', None)
  ↔ Start_fails Serve Register p = false ∧ closed' = closed.
Proof.
  unfold Start, Start_fails, Stop.
  destruct (Serve p), (Register p), (RemoveAgain p), closed; simpl;
    split; try done; try (by intros [? ?]); try (by intros [= ->]);
    by intros [_ ->].
Qed.

(** A [Start] that does not return nil fails [Start_fails]. *)
Lemma Start_not_nil Serve Register RemoveAgain p closed :
  (∀ closed', Start Serve Register RemoveAgain p closed ≠ Some (closed', None)) →
  Start_fails Serve Register p = true.
Proof.
  intros Hnot. destruct (Start_fails Serve Register p) eqn:Hfails; [done|].
  destruct (Hnot closed). by apply Start_succeeds.
Qed.



(** The loop of [stopPlugins] panics exactly when it meets a server with
    devices whose channel is closed and whose socket can be removed. *)
Lemma stop_loop_panics Remove plugins i chans log :
  (stop_loop Remove plugins i chans log).1 = None
  ↔ ∃ j p, plugins !! j = Some p ∧ has_devices p
           ∧ chans (i + j)%nat = true ∧ Remove p = None.
Proof.
  revert i chans log.
  induction plugins as [|p plugins IH]; intros i chans log; cbn [stop_loop].
  { split; [done|]. by intros (j & q & Hq & _). }
  assert (∀ chans' : channels,
            (∀ j, chans' (S i + j)%nat = chans (S i + j)%nat) →
            ¬ (has_devices p ∧ chans i = true ∧ Remove p = None) →
            (∃ j q, plugins !! j = Some q ∧ has_devices q
                    ∧ chans' (S i + j)%nat = true ∧ Remove q = None)
            ↔ (∃ j q, (p :: plugins) !! j = Some q ∧ has_devices q
                      ∧ chans (i + j)%nat = true ∧ Remove q = None)) as Hshift.
  { intros chans' Hsame Hnot. split.
    - intros (j & q & Hq & Hdev & Hc & Hr). exists (S j), q.
      replace (i + S j)%nat with (S i + j)%nat by lia.
      rewrite <-Hsame. by split_and!.
    - intros ([|j] & q & Hq & Hdev & Hc & Hr).
      + simpl in Hq. simplify_eq. rewrite Nat.add_0_r in Hc. by destruct Hnot.
      + exists j, q. rewrite Hsame.
        replace (S i + j)%nat with (i + S j)%nat by lia. by split_and!. }
  destruct (Nat.eqb_spec (size (devices p)) 0) as [Hz|Hnz].
  { rewrite IH. apply Hshift; [done|]. by intros [Hdev _]. }
  destruct (Stop Remove p (chans i)) as [[closed [err|]]|] eqn:Hstop.
  - rewrite IH. apply Hshift.
    + intros j. apply fn_lookup_insert_ne. lia.
    + intros (_ & Hc & Hr).
      assert (Stop Remove p (chans i) = None) as Hnone by by apply Stop_panics.
      by rewrite Hnone in Hstop.
  - rewrite IH. apply Hshift.
    + intros j. apply fn_lookup_insert_ne. lia.
    + intros (_ & Hc & Hr).
      assert (Stop Remove p (chans i) = None) as Hnone by by apply Stop_panics.
      by rewrite Hnone in Hstop.
  - apply Stop_panics in Hstop as [Hr Hc]. split; [intros _|done].
    exists 0%nat, p. rewrite Nat.add_0_r. by split_and!.
Qed.










(** ** Building the device map *)

Lemma BuildDevice_fails index (info : unit_info) :
  info_read_fails info → is_err (BuildDevice index info).
Proof.
  unfold info_read_fails, BuildDevice. simpl.
  destruct info as [uuid paths numa memory cc]; simpl.
  intros Hfail.
  destruct uuid; simpl; [|by eexists].
  destruct paths; simpl; [|by eexists].
  destruct numa as [[hasNuma node]|]; simpl; [|by eexists].
  destruct memory; simpl; [|by eexists].
  destruct cc; simpl; [|by eexists].
  destruct Hfail as [[? ?]|[[? ?]|[[? ?]|[[? ?]|[? ?]]]]]; done.
Qed.

Lemma setEntry_fails (d : DeviceMap) name index (info : unit_info) :
  info_read_fails info → is_Some (setEntry d name index info).2.
Proof.
  intros [e He]%(BuildDevice_fails index). unfold setEntry. by rewrite He.
Qed.

Lemma first_match_unmatched rs name :
  unmatched rs name → first_match rs name = Ok None.
Proof.
  induction rs as [|r rs IH]; intros Hun; simpl; [done|].
  rewrite (Hun r) by by left. apply IH. intros r' ?. apply Hun. by right.
Qed.

Lemma visit_gpu_fails b i gpu devices :
  gpu_fails b gpu → is_Some (visit_gpu b (i, gpu) devices).2.
Proof.
  unfold gpu_fails, gpu_skipped, visit_gpu.
  intros [[e He]|[[e He]|[Hskip Hbad]]].
  - by rewrite He.
  - rewrite He. by destruct (gpu_name gpu).
  - destruct (gpu_name gpu) as [name|]; [|done].
    destruct (gpu_mig_enabled gpu) as [migEnabled|]; [|done].
    destruct (migEnabled && _) eqn:Hcond.
    { apply andb_true_iff in Hcond as [-> Hstrat]. destruct Hskip.
      split; [done|]. apply negb_true_iff in Hstrat.
      by apply bool_decide_eq_false in Hstrat. }
    destruct Hbad as [(name' & [= <-] & Hun)|Hinfo].
    + by rewrite first_match_unmatched.
    + destruct (first_match (resources b) name) as [[resource|]|]; [|done..].
      by apply setEntry_fails.
Qed.

Lemma visit_mig_fails b mig devices :
  mig_fails b mig → is_Some (visit_mig b mig devices).2.
Proof.
  unfold mig_fails, visit_mig. intros [[e He]|[(profile & Hp & Hun)|Hinfo]].
  - by rewrite He.
  - rewrite Hp. by rewrite first_match_unmatched.
  - destruct (mig_profile mig) as [profile|]; [|done].
    destruct (first_match (resources b) profile) as [[resource|]|]; [|done..].
    by apply setEntry_fails.
Qed.

(** One failing unit makes the whole visit fail. *)
Lemma visit_units_fails {U} (visit : U → DeviceMap → DeviceMap * option error)
    units devices :
  (∃ u, u ∈ units ∧ ∀ devices, is_Some (visit u devices).2) →
  is_Some (visit_units visit units devices).2.
Proof.
  revert devices. induction units as [|u units IH]; intros devices (v & Hv & Hfail).
  - by apply elem_of_nil in Hv.
  - simpl. destruct (visit u devices) as [devices' [err|]] eqn:Hvisit; [done|].
    apply elem_of_cons in Hv as [->|Hv].
    + specialize (Hfail devices). rewrite Hvisit in Hfail. by destruct Hfail.
    + apply IH. by exists v.
Qed.

Lemma elem_of_indexed {U} (units : list U) u :
  u ∈ units → ∃ i, (i, u) ∈ indexed units.
Proof.
  intros [n Hn]%list_elem_of_lookup. exists (Z.of_nat n).
  apply list_elem_of_lookup. exists n. unfold indexed.
  by rewrite list_lookup_imap, Hn.
Qed.

Lemma buildGPUDeviceMap_fails b :
  (∃ gpu, gpu ∈ nvml_gpus (Interface b) ∧ gpu_fails b gpu) →
  is_Some (buildGPUDeviceMap b).2.
Proof.
  intros (gpu & [i Hi]%elem_of_indexed & Hfail). apply visit_units_fails.
  exists (i, gpu). split; [done|]. intros devices. by apply visit_gpu_fails.
Qed.

Lemma buildMigDeviceMap_fails b :
  (∃ mig, mig ∈ nvml_migs (Interface b) ∧ mig_fails b mig) →
  is_Some (buildMigDeviceMap b).2.
Proof.
  intros (mig & Hmig & Hfail). apply visit_units_fails.
  exists mig. split; [done|]. intros devices. by apply visit_mig_fails.
Qed.

Lemma loadPlugins_build_error `{rt : GoRuntime} (p : PluginManager) err :
  (build (builder_of p)).2 = Some err → loadPlugins p = (p, Some err).
Proof.
  unfold loadPlugins, NewDeviceMap, builder_of.
  destruct (build _) as [dmp [err'|]]; simpl; [|done]. by intros [= ->].
Qed.

(** C5 (amended). A build in which a unit fails (a read of it fails, or it
    is not passed over and matches no descriptor) returns an error. The map
    returned next to the error may hold the units classified before the
    failure, but LoadPlugins drops it: it returns the error and leaves the
    manager as it was, with no server created and its device map not
    assigned. *)
Theorem failed_build_loads_nothing `{rt : GoRuntime} (p : PluginManager) :
  (pm_migStrategy p = MigStrategyNone ∨ pm_migStrategy p = MigStrategySingle →
   (∃ gpu, gpu ∈ nvml_gpus (pm_nvmllib p) ∧ gpu_fails (builder_of p) gpu) →
   ∃ err, (build (builder_of p)).2 = Some err ∧ loadPlugins p = (p, Some err))
  ∧ (pm_migStrategy p = MigStrategyMixed →
     (∃ mig, mig ∈ nvml_migs (pm_nvmllib p) ∧ mig_fails (builder_of p) mig) →
     ∃ err, (build (builder_of p)).2 = Some err ∧ loadPlugins p = (p, Some err))
  ∧ (∀ err, (build (builder_of p)).2 = Some err →
       loadPlugins p = (p, Some err)
       ∧ pm_plugins (loadPlugins p).1 = pm_plugins p
       ∧ pm_devices (loadPlugins p).1 = pm_devices p).
Proof.
  assert (∀ err, (build (builder_of p)).2 = Some err →
                 loadPlugins p = (p, Some err)) as Hload.
  { apply loadPlugins_build_error. }
  split_and!.
  - intros Hstrategy Hfail.
    destruct (buildGPUDeviceMap_fails (builder_of p) Hfail) as [err Herr].
    exists err. split; [|apply Hload]; unfold build; simpl;
      destruct (buildGPUDeviceMap (builder_of p)) as [m e]; simpl in *; subst e;
      destruct Hstrategy as [-> | ->]; done.
  - intros Hstrategy Hfail.
    destruct (buildMigDeviceMap_fails (builder_of p) Hfail) as [err Herr].
    exists err. split; [|apply Hload]; unfold build; simpl;
      destruct (buildMigDeviceMap (builder_of p)) as [m e]; simpl in *; subst e;
      rewrite Hstrategy; done.
  - intros err Herr. by rewrite (Hload err Herr).
Qed.

Lemma failed_build_loads_nothing_witness :
  ∃ err,
    (build (builder_of (manager_with two_gpus [model_descriptor] []))).2 = Some err
    ∧ loadPlugins (rt := forward_runtime) (manager_with two_gpus [model_descriptor] [])
      = (manager_with two_gpus [model_descriptor] [], Some err).
Proof.
  destruct (failed_build_loads_nothing (rt := forward_runtime)
              (manager_with two_gpus [model_descriptor] [])) as (Hgpu & _).
  apply Hgpu.
  - by left.
  - exists (sample_gpu "Other" "GPU-2"). split; [right; by left|].
    right. right. split; [by intros [? _]|].
    left. exists "Other". split; [done|].
    intros r ->%list_elem_of_singleton. reflexivity.
Defined.

(** C5 as stated fails: the first device is classified, the second matches
    no descriptor; the builder returns its error together with a map that
    holds the first device. *)
Lemma failed_build_counterexample :
  (buildGPUDeviceMap (builder_of (manager_with two_gpus [model_descriptor] []))).2
  = Some (ErrVisiting (ErrNoMatchingPattern "Other"))
  ∧ (buildGPUDeviceMap (builder_of (manager_with two_gpus [model_descriptor] []))).1
    = {[ "nvidia.com/gpu" := {[ "GPU-1" := sample_device "GPU-1" "0" "/dev/nvidia0" ]} ]}
  ∧ (NewDeviceMap two_gpus [model_descriptor] MigStrategyNone).1
    ≠ Some ∅.
Proof. split_and!; [reflexivity|reflexivity|discriminate]. Qed.

(** ** Subsets and differences of an inventory *)

Lemma Subset_fold_lookup (ds acc : Devices) ids k :
  foldl (λ res id,
           if Contains ds [id]
           then match ds !! id with Some d => <[id := d]> res | None => res end
           else res) acc ids !! k
  = match ds !! k with
    | Some d => if decide (k ∈ ids) then Some d else acc !! k
    | None => acc !! k
    end.
Proof.
  revert acc. induction ids as [|id ids IH]; intros acc; cbn [foldl].
  - destruct (ds !! k); [|done]. case_decide as Hin; [|done].
    by apply elem_of_nil in Hin.
  - rewrite IH. rewrite Contains_one. destruct (ds !! k) as [d|] eqn:Hk.
    + destruct (decide (k ∈ ids)) as [Hin|Hnin].
      * rewrite decide_True by by right. done.
      * destruct (decide (k = id)) as [->|Hne].
        -- rewrite decide_True by by left. rewrite Hk. simpl.
           by rewrite lookup_insert_eq.
        -- rewrite decide_False by (rewrite elem_of_cons; tauto).
           destruct (ds !! id); simpl; [|done]. by rewrite lookup_insert_ne.
    + destruct (ds !! id) as [d|] eqn:Hid; simpl; [|done].
      rewrite lookup_insert_ne; [done|]. intros ->. congruence.
Qed.

Lemma Subset_lookup (ds : Devices) ids k :
  Subset ds ids !! k = if decide (k ∈ ids) then ds !! k else None.
Proof.
  unfold Subset. rewrite Subset_fold_lookup, lookup_empty.
  destruct (ds !! k); by case_decide.
Qed.

Lemma Difference_lookup (ds ods : Devices) k :
  Difference ds ods !! k = if ods !! k is Some _ then None else ds !! k.
Proof.
  unfold Difference. destruct (ds !! k) as [d|] eqn:Hk.
  - destruct (ods !! k) as [d'|] eqn:Hok.
    + apply map_lookup_filter_None. right. intros d'' _. simpl. by rewrite Hok.
    + apply map_lookup_filter_Some. split; [done|]. simpl. by rewrite Hok.
  - replace (if ods !! k is Some _ then None else None) with (@None Device)
      by by destruct (ods !! k).
    apply map_lookup_filter_None. by left.
Qed.

(** X1: [Subset] keeps exactly the entries of the inventory whose key is
    listed; a listed id the inventory does not know is passed over, and
    listing an id twice changes nothing. *)
Theorem Subset_spec (ds : Devices) (ids : list string) (k : string) (d : Device) :
  (Subset ds ids !! k = Some d ↔ k ∈ ids ∧ ds !! k = Some d)
  ∧ Subset ds ids ⊆ ds
  ∧ Subset ds (ids ++ ids) = Subset ds ids
  ∧ Contains (Subset ds ids) ids = Contains ds ids.
Proof.
  split_and!.
  - rewrite Subset_lookup. case_decide; [by split; [|intros [_ ?]]|].
    split; [done|tauto].
  - apply map_subseteq_spec. intros i x. rewrite Subset_lookup.
    by case_decide.
  - apply map_eq. intros i. rewrite !Subset_lookup.
    destruct (decide (i ∈ ids)) as [Hin|Hnin].
    + rewrite decide_True; [done|]. apply elem_of_app. by left.
    + rewrite decide_False; [done|]. rewrite elem_of_app. tauto.
  - destruct (Contains ds ids) eqn:Hc.
    + apply Contains_Forall. apply Contains_Forall in Hc.
      rewrite Forall_forall in *. intros id Hid. rewrite Subset_lookup.
      rewrite decide_True by done. by apply Hc.
    + apply not_true_is_false. intros Hs. apply Contains_Forall in Hs.
      assert (Contains ds ids = true); [|congruence].
      apply Contains_Forall. rewrite Forall_forall in *. intros id Hid.
      specialize (Hs id Hid). rewrite Subset_lookup in Hs.
      by rewrite decide_True in Hs by done.
Qed.

(** X2: [Difference] keeps exactly the entries of the first inventory whose
    key the second does not have; what it returns is disjoint from the
    second and, with the part the two share, makes up the first. *)
Theorem Difference_spec (ds ods : Devices) (k : string) (d : Device) :
  (Difference ds ods !! k = Some d ↔ ds !! k = Some d ∧ ods !! k = None)
  ∧ Difference ds ods ⊆ ds
  ∧ dom (Difference ds ods) = dom ds ∖ dom ods
  ∧ Difference ds ds = ∅
  ∧ Difference ds ∅ = ds.
Proof.
  split_and!.
  - rewrite Difference_lookup. destruct (ods !! k).
    + split; [done|by intros [_ ?]].
    + split; [done|by intros [? _]].
  - apply map_subseteq_spec. intros i x. rewrite Difference_lookup.
    by destruct (ods !! i).
  - apply set_eq. intros i. rewrite elem_of_difference, !elem_of_dom.
    rewrite Difference_lookup. destruct (ods !! i) as [x|] eqn:Hi.
    + split; [by intros [? ?]|]. intros [_ []]. by exists x.
    + split; [|by intros [? _]]. intros ?. split; [done|]. by intros [? ?].
  - apply map_eq. intros i. rewrite Difference_lookup, lookup_empty.
    by destruct (ds !! i).
  - apply map_eq. intros i. by rewrite Difference_lookup, lookup_empty.
Qed.

(** ** Replica-distributed allocation *)

Lemma candidates_dom (ds : Devices) available required :
  dom (Difference (Subset ds available) (Subset ds required))
  = satisfiable ds available required.
Proof.
  apply set_eq. intros k. unfold satisfiable.
  rewrite elem_of_filter, !elem_of_dom, Difference_lookup, !Subset_lookup.
  destruct (decide (k ∈ available)) as [Ha|Ha],
           (decide (k ∈ required)) as [Hr|Hr];
    destruct (ds !! k) as [d|] eqn:Hk; simpl;
    rewrite <- ?not_eq_None_Some; split; try tauto; try by intros [].
  all: try by intros [_ []]. all: by intros [[] _].
Qed.

Lemma GetIDs_length `{rt : GoRuntime} (ok : GoRuntimeOk rt) (ds : Devices) :
  length (GetIDs ds) = size ds.
Proof.
  unfold GetIDs. rewrite length_fmap, (range_order_perm rt ok).
  apply length_map_to_list.
Qed.

Lemma candidates_length `{rt : GoRuntime} (ok : GoRuntimeOk rt) plugin
    available required :
  length (candidates_of plugin available required)
  = size (satisfiable (devices plugin) available required).
Proof.
  unfold candidates_of. rewrite (GetIDs_length ok), <- candidates_dom.
  symmetry. apply size_dom.
Qed.

Lemma GetIDs_keyed `{rt : GoRuntime} (ok : GoRuntimeOk rt) (ds : Devices) :
  keyed_by_id ds → GetIDs ds ≡ₚ elements (dom ds).
Proof.
  intros Hkeyed. unfold GetIDs. rewrite (range_order_perm rt ok).
  assert ((λ kv : string * Device, ID kv.2) <$> map_to_list ds
          = (map_to_list ds).*1) as ->.
  { apply Forall_fmap_ext_1. apply Forall_forall. intros [k d] Hkd.
    apply elem_of_map_to_list in Hkd. simpl. by apply Hkeyed. }
  apply NoDup_Permutation.
  - apply NoDup_fst_map_to_list.
  - apply NoDup_elements.
  - intros k. rewrite elem_of_elements, elem_of_dom, list_elem_of_fmap. split.
    + intros ([k' d] & -> & Hkd). exists d. by apply elem_of_map_to_list.
    + intros [d Hd]. exists (k, d). split; [done|]. by apply elem_of_map_to_list.
Qed.

Lemma select_loop_unfold `{rt : GoRuntime} n replicas candidates picked :
  select_loop (S n) replicas candidates picked =
    match sort_slice (λ a b, bool_decide (skew replicas a < skew replicas b))
            candidates with
    | [] => None
    | c0 :: candidates' =>
        select_loop n (take_replica replicas (GetID c0)) candidates'
          (picked ++ [c0])
    end.
Proof. done. Qed.

(** With enough candidates the loop never reads an empty slice; its picks
    are greedy. *)
Lemma select_loop_greedy `{rt : GoRuntime} (ok : GoRuntimeOk rt) n replicas
    candidates picked :
  (n ≤ length candidates)%nat →
  ∃ picks rest,
    select_loop n replicas candidates picked = Some (picked ++ picks)
    ∧ length picks = n
    ∧ candidates ≡ₚ picks ++ rest
    ∧ greedy_picks replicas candidates picks.
Proof.
  revert replicas candidates picked.
  induction n as [|n IH]; intros replicas candidates picked Hn.
  - exists [], candidates. rewrite app_nil_r. split_and!; [done..|constructor].
  - rewrite select_loop_unfold.
    pose proof (sort_slice_perm rt ok
      (λ a b, bool_decide (skew replicas a < skew replicas b)) candidates) as Hperm.
    pose proof (sort_slice_sorted rt ok (skew replicas) candidates) as Hsorted.
    destruct (sort_slice _ candidates) as [|c0 sorted].
    { apply Permutation_length in Hperm. simpl in Hperm. lia. }
    destruct (IH (take_replica replicas (GetID c0)) sorted (picked ++ [c0]))
      as (picks & rest & Hrun & Hlen & Hrest & Hgreedy).
    { apply Permutation_length in Hperm. simpl in Hperm. lia. }
    exists (c0 :: picks), rest. split_and!.
    + by rewrite Hrun, <- app_assoc.
    + simpl. by rewrite Hlen.
    + by rewrite <- Hperm, Hrest.
    + apply (greedy_pick _ _ _ sorted); [done| |done].
      intros q Hq. rewrite <- Hperm in Hq.
      apply StronglySorted_inv in Hsorted as [_ Hhead].
      apply elem_of_cons in Hq as [->|Hq]; [lia|].
      rewrite Forall_forall in Hhead. by apply Hhead.
Qed.

Lemma skew_take_replica replicas id c :
  skew (take_replica replicas id) c
  = if decide (GetID c = id)
    then (if replicas !! id is Some _ then skew replicas c + 1 else skew replicas c)
    else skew replicas c.
Proof.
  unfold skew, take_replica. case_decide as Hid.
  - rewrite Hid, lookup_alter_eq. destruct (replicas !! id); simpl; lia.
  - by rewrite lookup_alter_ne.
Qed.

Lemma skew_take_replica_le replicas id c :
  skew replicas c ≤ skew (take_replica replicas id) c.
Proof.
  rewrite skew_take_replica. case_decide; [|lia]. destruct (replicas !! id); lia.
Qed.

Lemma skew_same_base replicas c c' :
  GetID c = GetID c' → skew replicas c = skew replicas c'.
Proof. unfold skew. by intros ->. Qed.

Lemma distributedAlloc_cases `{rt : GoRuntime} (ok : GoRuntimeOk rt) plugin
    available required size :
  if Z.of_nat (length (candidates_of plugin available required))
     <? size - Z.of_nat (length required)
  then distributedAlloc plugin available required size
       = Some (Err ErrNotEnoughDevices)
  else ∃ picks rest,
    distributedAlloc plugin available required size
    = Some (Ok (required ++ picks))
    ∧ length picks = Z.to_nat (size - Z.of_nat (length required))
    ∧ candidates_of plugin available required ≡ₚ picks ++ rest
    ∧ greedy_picks
        (replicas_of plugin (candidates_of plugin available required))
        (candidates_of plugin available required) picks.
Proof.
  unfold distributedAlloc.
  destruct (Z.ltb_spec (Z.of_nat (length (candidates_of plugin available required)))
              (size - Z.of_nat (length required))) as [Hlt|Hge]; [done|].
  destruct (select_loop_greedy ok
              (Z.to_nat (size - Z.of_nat (length required)))
              (replicas_of plugin (candidates_of plugin available required))
              (candidates_of plugin available required) [])
    as (picks & rest & Hrun & Hlen & Hperm & Hgreedy); [lia|].
  exists picks, rest. by rewrite Hrun.
Qed.

Lemma candidates_satisfiable `{rt : GoRuntime} (ok : GoRuntimeOk rt) plugin
    available required :
  keyed_by_id (devices plugin) →
  candidates_of plugin available required
  ≡ₚ elements (satisfiable (devices plugin) available required).
Proof.
  intros Hkeyed. unfold candidates_of. rewrite (GetIDs_keyed ok).
  - by rewrite candidates_dom.
  - intros k d Hkd. apply Hkeyed.
    rewrite Difference_lookup in Hkd. destruct (Subset _ required !! k); [done|].
    rewrite Subset_lookup in Hkd. by case_decide.
Qed.

(** C2 (amended). The contract of [distributedAlloc], under a runtime that
    keeps Go's promises. When [count - len(required)] exceeds the number of satisfiable
    ids (available, in the inventory, not required) the call fails with an
    error and no id. Otherwise it succeeds, without a panic: it returns
    [required] unchanged, followed by [max(0, count - len(required))] picks;
    so it returns exactly [count] ids whenever [count] is at least
    [len(required)]. In an inventory keyed by device id the picks are
    distinct satisfiable ids. *)
Theorem distributedAlloc_contract `{rt : GoRuntime} (ok : GoRuntimeOk rt)
    (plugin : NvidiaDevicePlugin) (available required : list string) (count : Z) :
  (Z.of_nat (size (satisfiable (devices plugin) available required))
     < count - Z.of_nat (length required) →
   distributedAlloc plugin available required count
   = Some (Err ErrNotEnoughDevices))
  ∧ (count - Z.of_nat (length required)
       ≤ Z.of_nat (size (satisfiable (devices plugin) available required)) →
     ∃ picks,
       distributedAlloc plugin available required count
       = Some (Ok (required ++ picks))
       ∧ Z.of_nat (length picks) = Z.max 0 (count - Z.of_nat (length required))
       ∧ (Z.of_nat (length required) ≤ count →
          Z.of_nat (length (required ++ picks)) = count)
       ∧ (keyed_by_id (devices plugin) →
          NoDup picks
          ∧ ∀ p, p ∈ picks →
                 p ∈ available ∧ (p ∉ required) ∧ is_Some (devices plugin !! p))).
Proof.
  pose proof (distributedAlloc_cases ok plugin available required count) as Hcases.
  rewrite (candidates_length ok) in Hcases.
  destruct (Z.ltb_spec
              (Z.of_nat (size (satisfiable (devices plugin) available required)))
              (count - Z.of_nat (length required))) as [Hlt|Hge].
  - split; [done|lia].
  - split; [lia|]. intros _.
    destruct Hcases as (picks & rest & Hrun & Hlen & Hperm & _).
    exists picks. split_and!; [done|lia|rewrite length_app; lia|].
    intros Hkeyed. rewrite (candidates_satisfiable ok) in Hperm by done.
    split.
    + assert (NoDup (picks ++ rest)) as Hnd
        by (rewrite <- Hperm; apply NoDup_elements).
      by apply NoDup_app in Hnd as [? _].
    + intros p Hp.
      assert (p ∈ satisfiable (devices plugin) available required) as Hsat.
      { apply elem_of_elements. rewrite Hperm. apply elem_of_app. by left. }
      unfold satisfiable in Hsat. apply elem_of_filter in Hsat as [[? ?] Hdom].
      by apply elem_of_dom in Hdom.
Qed.

Lemma distributedAlloc_contract_witness :
  distributedAlloc (rt := forward_runtime) (sample_plugin eight_replicas)
    eight_replicas [] 9 = Some (Err ErrNotEnoughDevices)
  ∧ ∃ picks,
      distributedAlloc (rt := forward_runtime) (sample_plugin eight_replicas)
        eight_replicas ["A::1"] 3 = Some (Ok (["A::1"] ++ picks))
      ∧ Z.of_nat (length picks) = Z.max 0 (3 - 1).
Proof.
  split.
  - destruct (distributedAlloc_contract forward_runtime_ok
                (sample_plugin eight_replicas) eight_replicas [] 9) as [Hfail _].
    apply Hfail. by vm_compute.
  - destruct (distributedAlloc_contract forward_runtime_ok
                (sample_plugin eight_replicas) eight_replicas ["A::1"] 3)
      as [_ Hok].
    destruct Hok as (picks & Hrun & Hlen & _); [by vm_compute|].
    exists picks. split; [exact Hrun|exact Hlen].
Defined.

(** C2 as stated fails: with more required ids than [count] the call
    succeeds and returns all the required ids, 2 where 1 was asked for. *)
Lemma distributedAlloc_contract_counterexample :
  distributedAlloc (rt := forward_runtime) (sample_plugin eight_replicas)
    eight_replicas ["A::0"; "A::1"] 1
  = Some (Ok ["A::0"; "A::1"])
  ∧ length ["A::0"; "A::1"] ≠ 1%nat.
Proof. split; [reflexivity|discriminate]. Qed.

(** *** The greedy order *)

Lemma take_replica_lookup replicas id k :
  is_Some (take_replica replicas id !! k) ↔ is_Some (replicas !! k).
Proof.
  unfold take_replica. destruct (decide (id = k)) as [->|Hne].
  - rewrite lookup_alter_eq. by rewrite fmap_is_Some.
  - by rewrite lookup_alter_ne.
Qed.

Lemma replicas_after_lookup replicas picks k :
  is_Some (replicas_after replicas picks !! k) ↔ is_Some (replicas !! k).
Proof.
  revert replicas. induction picks as [|p picks IH]; intros replicas; [done|].
  unfold replicas_after in *. simpl. by rewrite IH, take_replica_lookup.
Qed.

Lemma replicas_after_skew_le replicas picks c :
  skew replicas c ≤ skew (replicas_after replicas picks) c.
Proof.
  revert replicas. induction picks as [|p picks IH]; intros replicas; [done|].
  unfold replicas_after in *. simpl.
  etrans; [apply (skew_take_replica_le _ (GetID p))|apply IH].
Qed.

(** The picks after a prefix are greedy from the state the prefix leaves. *)
Lemma greedy_picks_app r c l1 l2 :
  greedy_picks r c (l1 ++ l2) →
  ∃ c', c ≡ₚ l1 ++ c' ∧ greedy_picks (replicas_after r l1) c' l2.
Proof.
  revert r c. induction l1 as [|p l1 IH]; intros r c Hg.
  - by exists c.
  - inversion Hg as [|? ? ? c1 ? Hperm Hmin Hrest]; subst.
    destruct (IH _ _ Hrest) as (c' & Hperm' & Hg').
    exists c'. split; [|done]. simpl. by rewrite Hperm, Hperm'.
Qed.

(** A candidate left whose skew is below that of [p'] bars [p'] from being
    picked until a replica of its own base id has been. *)
Lemma greedy_picks_blocked r c mid p' rest q :
  greedy_picks r c (mid ++ p' :: rest) →
  q ∈ c → skew r q < skew r p' →
  Forall (λ m, GetID m ≠ GetID q) mid → False.
Proof.
  revert r c. induction mid as [|m mid IH]; intros r c Hg Hq Hlt Hmid.
  - inversion Hg as [|? ? ? c1 ? Hperm Hmin Hrest]; subst.
    specialize (Hmin q Hq). lia.
  - inversion Hg as [|? ? ? c1 ? Hperm Hmin Hrest]; subst.
    apply Forall_cons in Hmid as [Hm Hmid].
    apply (IH _ _ Hrest); [| |done].
    + rewrite Hperm in Hq. apply elem_of_cons in Hq as [->|Hq]; [done|done].
    + rewrite (skew_take_replica _ _ q), decide_False by done.
      pose proof (skew_take_replica_le r (GetID m) p'). lia.
Qed.

Lemma greedy_picks_no_repick r c p mid p' rest q :
  greedy_picks r c (p :: mid ++ p' :: rest) →
  is_Some (r !! GetID p) → GetID p' = GetID p →
  q ∈ c → GetID q ≠ GetID p → skew r q ≤ skew r p →
  ∃ m, m ∈ mid ∧ GetID m = GetID q.
Proof.
  intros Hg [x Hx] Hsame Hq Hbase Hle.
  destruct (decide (Exists (λ m, GetID m = GetID q) mid)) as [Hex|Hnex].
  { by apply Exists_exists in Hex. }
  exfalso. apply not_Exists_Forall in Hnex; [|intros m; apply _].
  inversion Hg as [|? ? ? c1 ? Hperm Hmin Hrest]; subst.
  apply (greedy_picks_blocked _ _ _ _ _ q Hrest).
  - rewrite Hperm in Hq. apply elem_of_cons in Hq as [->|Hq]; done.
  - rewrite (skew_take_replica _ _ q), decide_False by done.
    rewrite (skew_take_replica _ _ p'), decide_True by done.
    rewrite Hx. rewrite (skew_same_base r p' p) by done. lia.
  - eapply Forall_impl; [exact Hnex|]. by intros m Hm.
Qed.

(** *** The counters *)

Lemma count_base_cons b id ids :
  count_base b (id :: ids)
  = (if decide (GetID id = b) then 1 else 0) + count_base b ids.
Proof.
  unfold count_base. case_decide.
  - rewrite filter_cons_True by done. cbn [length].
    rewrite Nat2Z.inj_succ. symmetry. apply Z.add_1_l.
  - rewrite filter_cons_False by done. symmetry. apply Z.add_0_l.
Qed.

Lemma count_base_nonneg b ids : 0 ≤ count_base b ids.
Proof. unfold count_base. lia. Qed.

Lemma count_base_pos b ids : 0 < count_base b ids ↔ b ∈ GetID <$> ids.
Proof.
  induction ids as [|id ids IH].
  - split; [by unfold count_base|]. intros Hin. by apply elem_of_nil in Hin.
  - rewrite count_base_cons, fmap_cons, elem_of_cons.
    pose proof (count_base_nonneg b ids). case_decide as Hid.
    + split; [by left|lia].
    + rewrite <- IH. split; [right; lia|]. intros [?|?]; [congruence|lia].
Qed.

Lemma count_base_Permutation b ids ids' :
  ids ≡ₚ ids' → count_base b ids = count_base b ids'.
Proof. intros Hperm. unfold count_base. by rewrite Hperm. Qed.

Lemma count_available_fold (acc : ReplicaMap) candidates b :
  foldl (λ replicas c,
           let id := GetID c in
           let r := default {| total := 0; available := 0 |} (replicas !! id) in
           <[id := {| total := total r; available := available r + 1 |}]> replicas)
        acc candidates !! b
  = match acc !! b with
    | Some r =>
        Some {| total := total r; available := available r + count_base b candidates |}
    | None =>
        if decide (0 < count_base b candidates)
        then Some {| total := 0; available := count_base b candidates |}
        else None
    end.
Proof.
  revert acc. induction candidates as [|c candidates IH]; intros acc.
  - simpl. unfold count_base. simpl. destruct (acc !! b) as [[t a]|]; [|done].
    simpl. do 2 f_equal; lia.
  - cbn [foldl]. rewrite IH, count_base_cons.
    pose proof (count_base_nonneg b candidates).
    destruct (decide (GetID c = b)) as [Heq|Hne].
    + rewrite Heq, lookup_insert_eq. destruct (acc !! b) as [[t a]|]; simpl.
      * do 2 f_equal; lia.
      * rewrite decide_True by lia. do 2 f_equal; lia.
    + rewrite lookup_insert_ne by done. destruct (acc !! b) as [[t a]|]; simpl.
      * done.
      * destruct (decide (0 < count_base b candidates)).
        -- rewrite decide_True by lia. done.
        -- rewrite decide_False by lia. done.
Qed.

Lemma count_total_fold (l : list (string * Device)) (acc : ReplicaMap) b :
  foldl (λ replicas kv,
           let id := GetID kv.1 in
           match replicas !! id with
           | None => replicas
           | Some r =>
               <[id := {| total := total r + 1; available := available r |}]> replicas
           end)
        acc l !! b
  = match acc !! b with
    | Some r =>
        Some {| total := total r + count_base b l.*1; available := available r |}
    | None => None
    end.
Proof.
  revert acc. induction l as [|[k d] l IH]; intros acc.
  - simpl. unfold count_base. simpl. destruct (acc !! b) as [[t a]|]; [|done].
    simpl. do 2 f_equal; lia.
  - cbn [foldl]. rewrite IH, fmap_cons, count_base_cons. simpl.
    destruct (decide (GetID k = b)) as [Heq|Hne].
    + rewrite Heq. destruct (acc !! b) as [[t a]|] eqn:Hacc.
      * rewrite lookup_insert_eq. simpl. do 2 f_equal; lia.
      * by rewrite Hacc.
    + destruct (acc !! GetID k) as [[t a]|] eqn:Hacc.
      * rewrite lookup_insert_ne by done. destruct (acc !! b); [|done].
        do 2 f_equal; lia.
      * destruct (acc !! b); [|done]. do 2 f_equal; lia.
Qed.

Lemma map_to_list_keys {V} (m : gmap string V) :
  (map_to_list m).*1 ≡ₚ elements (dom m).
Proof.
  apply NoDup_Permutation.
  - apply NoDup_fst_map_to_list.
  - apply NoDup_elements.
  - intros k. rewrite elem_of_elements, elem_of_dom, list_elem_of_fmap. split.
    + intros ([k' d] & -> & Hkd). exists d. by apply elem_of_map_to_list.
    + intros [d Hd]. exists (k, d). split; [done|]. by apply elem_of_map_to_list.
Qed.

Lemma replicas_of_lookup `{rt : GoRuntime} (ok : GoRuntimeOk rt)
    (plugin : NvidiaDevicePlugin) (candidates : list string) (b : string) :
  replicas_of plugin candidates !! b
  = if decide (b ∈ GetID <$> candidates)
    then Some {| total := count_base b (elements (dom (devices plugin)));
                 available := count_base b candidates |}
    else None.
Proof.
  unfold replicas_of, count_total, count_available.
  rewrite count_total_fold, count_available_fold, lookup_empty.
  rewrite (count_base_Permutation b (range_order (devices plugin)).*1
             (elements (dom (devices plugin)))).
  2:{ rewrite (range_order_perm rt ok). apply map_to_list_keys. }
  destruct (decide (0 < count_base b candidates)) as [Hpos|Hzero].
  - rewrite decide_True by by apply count_base_pos. simpl. do 2 f_equal; lia.
  - rewrite decide_False; [done|]. by rewrite <- count_base_pos.
Qed.

(** X3: the two counting loops of [distributedAlloc]. Under a runtime that
    keeps Go's promises, the map [replicas] holds an entry for exactly the
    base ids of the candidates; for such a base id, [available] is the
    number of candidates with that base id and [total] the number of keys
    of the inventory with it. *)
Theorem replica_counters `{rt : GoRuntime} (ok : GoRuntimeOk rt)
    (plugin : NvidiaDevicePlugin) (candidates : list string) (b : string) :
  replicas_of plugin candidates !! b
  = if decide (b ∈ GetID <$> candidates)
    then Some {| total := count_base b (elements (dom (devices plugin)));
                 available := count_base b candidates |}
    else None.
Proof. by apply replicas_of_lookup. Qed.

Lemma replica_counters_witness :
  replicas_of (rt := forward_runtime) (sample_plugin eight_replicas)
    ["A::0"; "A::1"; "B::0"] !! "A"
  = Some {| total := 4; available := 2 |}.
Proof.
  rewrite (replica_counters forward_runtime_ok (sample_plugin eight_replicas)
             ["A::0"; "A::1"; "B::0"] "A").
  vm_compute. reflexivity.
Defined.

Lemma replicas_of_candidate `{rt : GoRuntime} (ok : GoRuntimeOk rt) plugin
    candidates c :
  c ∈ candidates → is_Some (replicas_of plugin candidates !! GetID c).
Proof.
  intros Hc. rewrite (replicas_of_lookup ok). rewrite decide_True; [done|].
  by apply list_elem_of_fmap_2.
Qed.

(** The picks of [distributedAlloc] are least-skew picks. Under a
    runtime that keeps Go's promises, when the call succeeds its result is
    [required] followed by picks such that every pick [p], made after the
    picks [l1], is a candidate whose skew (total minus available of its
    base id, after the counters have been lowered for [l1]) is at most that
    of every candidate not picked before. *)
Lemma picks_least_skew `{rt : GoRuntime} (ok : GoRuntimeOk rt)
    (plugin : NvidiaDevicePlugin) (available required : list string)
    (count : Z) (res : list string) :
  distributedAlloc plugin available required count = Some (Ok res) →
  ∃ picks,
    res = required ++ picks
    ∧ ∀ l1 p l2, picks = l1 ++ p :: l2 →
        p ∈ candidates_of plugin available required
        ∧ ∀ q, q ∈ candidates_of plugin available required → q ∉ l1 →
            skew (replicas_after
                    (replicas_of plugin (candidates_of plugin available required))
                    l1) p
            ≤ skew (replicas_after
                      (replicas_of plugin (candidates_of plugin available required))
                      l1) q.
Proof.
  intros Hres.
  pose proof (distributedAlloc_cases ok plugin available required count) as Hcases.
  destruct (_ <? _); [congruence|].
  destruct Hcases as (picks & rest & Hrun & _ & Hperm & Hgreedy).
  exists picks. split; [congruence|]. intros l1 p l2 ->.
  split.
  { rewrite Hperm. apply elem_of_app. left. apply elem_of_app. right. by left. }
  intros q Hq Hql1.
  apply greedy_picks_app in Hgreedy as (c' & Hc' & Hg').
  inversion Hg' as [|? ? ? c1 ? Hperm' Hmin Hrest]; subst.
  apply Hmin. rewrite Hc' in Hq. by apply elem_of_app in Hq as [?|?].
Qed.

(** No base id is picked again before its turn. Under a runtime that
    keeps Go's promises, when [distributedAlloc] succeeds and picks [p] and
    later [p'] of the same base id, then for every candidate [q] of another
    base id that was not picked before [p] and whose skew was at most that
    of [p] when [p] was picked, a replica of the base id of [q] is picked
    between [p] and [p']. *)
Lemma picks_no_repick `{rt : GoRuntime} (ok : GoRuntimeOk rt)
    (plugin : NvidiaDevicePlugin) (available required : list string)
    (count : Z) (res : list string) :
  distributedAlloc plugin available required count = Some (Ok res) →
  ∃ picks,
    res = required ++ picks
    ∧ ∀ l1 p mid p' l3 q,
        picks = l1 ++ p :: mid ++ p' :: l3 →
        GetID p' = GetID p →
        q ∈ candidates_of plugin available required → q ∉ l1 →
        GetID q ≠ GetID p →
        skew (replicas_after
                (replicas_of plugin (candidates_of plugin available required))
                l1) q
        ≤ skew (replicas_after
                  (replicas_of plugin (candidates_of plugin available required))
                  l1) p →
        ∃ m, m ∈ mid ∧ GetID m = GetID q.
Proof.
  intros Hres.
  pose proof (distributedAlloc_cases ok plugin available required count) as Hcases.
  destruct (_ <? _); [congruence|].
  destruct Hcases as (picks & rest & Hrun & _ & Hperm & Hgreedy).
  exists picks. split; [congruence|]. intros l1 p mid p' l3 q -> Hsame Hq Hql1 Hbase Hle.
  assert (p ∈ candidates_of plugin available required) as Hp.
  { rewrite Hperm. apply elem_of_app. left. apply elem_of_app. right. by left. }
  apply greedy_picks_app in Hgreedy as (c' & Hc' & Hg').
  apply (greedy_picks_no_repick _ _ _ _ _ _ _ Hg'); [|done| |done..].
  - apply replicas_after_lookup. by apply (replicas_of_candidate ok).
  - rewrite Hc' in Hq. by apply elem_of_app in Hq as [?|?].
Qed.

(** C3 (amended). Under a runtime that keeps Go's promises, a successful
    replica-distributed allocation returns [required] followed by
    [count - len(required)] picks made greedily: every pick is a candidate
    whose skew (total minus available replicas of its base id, after the
    available counters have been lowered by one for each earlier pick) is
    least among the candidates not picked before. Which of several
    candidates of least skew is picked is not fixed: the candidates come out
    of a map iteration and [sort.Slice] is not stable. No base id is picked
    again before its turn: between two picks [p] and [p'] of one base id, a
    replica is picked of every other base id that had a candidate left
    whose skew was at most that of [p] when [p] was picked. *)
Theorem distributedAlloc_greedy `{rt : GoRuntime} (ok : GoRuntimeOk rt)
    (plugin : NvidiaDevicePlugin) (available required : list string)
    (count : Z) (res : list string) :
  distributedAlloc plugin available required count = Some (Ok res) →
  ∃ picks,
    res = required ++ picks
    ∧ length picks = Z.to_nat (count - Z.of_nat (length required))
    ∧ (∀ l1 p l2, picks = l1 ++ p :: l2 →
         p ∈ candidates_of plugin available required
         ∧ ∀ q, q ∈ candidates_of plugin available required → q ∉ l1 →
             skew (replicas_after
                     (replicas_of plugin (candidates_of plugin available required))
                     l1) p
             ≤ skew (replicas_after
                       (replicas_of plugin (candidates_of plugin available required))
                       l1) q)
    ∧ (∀ l1 p mid p' l3 q,
         picks = l1 ++ p :: mid ++ p' :: l3 →
         GetID p' = GetID p →
         q ∈ candidates_of plugin available required → q ∉ l1 →
         GetID q ≠ GetID p →
         skew (replicas_after
                 (replicas_of plugin (candidates_of plugin available required))
                 l1) q
         ≤ skew (replicas_after
                   (replicas_of plugin (candidates_of plugin available required))
                   l1) p →
         ∃ m, m ∈ mid ∧ GetID m = GetID q).
Proof.
  intros Hres.
  destruct (picks_least_skew ok plugin available required count res Hres)
    as (picks & Hpicks & Hleast).
  destruct (picks_no_repick ok plugin available required count res Hres)
    as (picks' & Hpicks' & Hfair).
  assert (picks' = picks) as -> by (apply (app_inv_head required); congruence).
  exists picks. split_and!; [done| |done|done].
  pose proof (distributedAlloc_cases ok plugin available required count) as Hcases.
  destruct (_ <? _); [congruence|].
  destruct Hcases as (picks0 & rest & Hrun & Hlen & _).
  assert (picks0 = picks) as -> by (apply (app_inv_head required); congruence).
  done.
Qed.

(** Two devices shared four ways each, four ids asked for, none required:
    between the two picks of the first device, the second is picked. *)
Lemma distributedAlloc_greedy_witness :
  ∃ m, m ∈ ["B::3"; "B::1"] ∧ GetID m = GetID "B::0".
Proof.
  destruct (distributedAlloc_greedy forward_runtime_ok
              (sample_plugin eight_replicas) eight_replicas [] 4
              ["A::3"; "B::3"; "B::1"; "A::1"])
    as (picks & Hres & _ & _ & Hfair).
  - vm_compute. reflexivity.
  - apply (Hfair [] "A::3" ["B::3"; "B::1"] "A::1" [] "B::0").
    + symmetry. exact Hres.
    + vm_compute. reflexivity.
    + vm_compute. do 7 right. left.
    + apply not_elem_of_nil.
    + vm_compute. discriminate.
    + vm_compute. discriminate.
Defined.

(** C3 as stated fails in its tie-breaking: with all skews equal the first
    pick is not the first id of the input, and the three picks are not
    those that input order would give. *)
Lemma distributedAlloc_greedy_counterexample :
  GoRuntimeOk forward_runtime
  ∧ distributedAlloc (rt := forward_runtime) (sample_plugin eight_replicas)
      eight_replicas [] 3
    = Some (Ok ["A::3"; "B::3"; "B::1"])
  ∧ input_order_picks 3
      (replicas_of (rt := forward_runtime) (sample_plugin eight_replicas)
         eight_replicas)
      eight_replicas
    = ["A::0"; "B::0"; "A::1"].
Proof.
  split_and!; [apply forward_runtime_ok|reflexivity|reflexivity].
Qed.


(** ** The wildcard matcher *)

Lemma drop_length n s :
  String.length (GoStrings.drop n s) = (String.length s - n)%nat.
Proof.
  revert s. induction n as [|n IH]; intros [|c s]; simpl; first [done|lia].
Qed.

Lemma Index_star_cons c s :
  GoStrings.Index (String c s) "*"
  = if decide (c = "*"%char) then Some 0%nat else S <$> GoStrings.Index s "*".
Proof. rewrite Index_unfold. simpl. by case_decide. Qed.

Lemma Index_star_empty : GoStrings.Index "" "*" = None.
Proof. done. Qed.

Lemma QuoteMeta_cons c s :
  GoRegexp.QuoteMeta (String c s)
  = if GoRegexp.special c then String "\"%char (String c (GoRegexp.QuoteMeta s))
    else String c (GoRegexp.QuoteMeta s).
Proof. done. Qed.

Lemma quoted_pattern_no_star s :
  GoStrings.Index s "*" = None → quoted_pattern s = GoRegexp.QuoteMeta s.
Proof.
  induction s as [|c s IH]; [done|]. rewrite Index_star_cons.
  case_decide as Hc; [done|]. intros Hnone.
  destruct (GoStrings.Index s "*") eqn:Hs; [done|].
  simpl. rewrite decide_False by done. by rewrite IH.
Qed.

Lemma quoted_pattern_star s m :
  GoStrings.Index s "*" = Some m →
  quoted_pattern s
  = GoRegexp.QuoteMeta (GoStrings.take m s) +:+ ".*"
    +:+ quoted_pattern (GoStrings.drop (m + 1) s).
Proof.
  revert m. induction s as [|c s IH]; intros m; [done|].
  rewrite Index_star_cons. case_decide as Hc.
  - intros [= <-]. subst c. done.
  - destruct (GoStrings.Index s "*") as [m'|] eqn:Hs; [|done].
    intros [= <-]. cbn [GoStrings.take GoStrings.drop Nat.add quoted_pattern].
    rewrite decide_False by done. rewrite QuoteMeta_cons, (IH m' eq_refl).
    by destruct (GoRegexp.special c).
Qed.

Lemma wildCard_loop_quoted n p i acc :
  (String.length p ≤ n)%nat →
  wildCard_loop i (GoStrings.genSplit n p "*") acc
  = (if (0 <? i)%nat then acc +:+ ".*" else acc) +:+ quoted_pattern p.
Proof.
  revert p i acc. induction n as [|n IH]; intros p i acc Hlen.
  - destruct p; [|simpl in Hlen; lia]. simpl.
    by rewrite !append_empty_r.
  - cbn [GoStrings.genSplit]. destruct (GoStrings.Index p "*") as [m|] eqn:Hi.
    + pose proof (Index_Some _ _ _ Hi) as (suf & Hp & Hdrop & Hm).
      cbn [wildCard_loop]. rewrite IH.
      * simpl. rewrite (quoted_pattern_star p m) by done.
        by rewrite !append_assoc.
      * rewrite drop_length. apply (f_equal String.length) in Hp.
        rewrite !append_length, Hm in Hp. simpl in *. lia.
    + cbn [wildCard_loop]. by rewrite quoted_pattern_no_star.
Qed.

Lemma wildCardToRegexp_quoted p : wildCardToRegexp p = quoted_pattern p.
Proof.
  unfold wildCardToRegexp, GoStrings.Split. by rewrite wildCard_loop_quoted.
Qed.

Lemma parse_unfold fuel c rest :
  GoRegexp.parse (S fuel) (String c rest) =
    let after (a : GoRegexp.atom) (rest : string) :=
      if GoRegexp.starred rest
      then cons (GoRegexp.Star a) <$> GoRegexp.parse fuel (GoStrings.drop 1 rest)
      else cons (GoRegexp.Once a) <$> GoRegexp.parse fuel rest in
    if decide (c = "\"%char) then
      match rest with
      | String d rest' =>
          if GoRegexp.special d then after (GoRegexp.Lit d) rest' else None
      | "" => None
      end
    else if decide (c = "."%char) then after GoRegexp.AnyNotNL rest
    else if GoRegexp.special c then None
    else after (GoRegexp.Lit c) rest.
Proof. done. Qed.

Lemma quoted_pattern_not_starred p : GoRegexp.starred (quoted_pattern p) = false.
Proof.
  destruct p as [|c p]; [done|]. simpl. case_decide as Hstar; [done|].
  destruct (GoRegexp.special c) eqn:Hc; [done|]. simpl.
  destruct (decide (c = "*"%char)) as [->|Hne]; [done|].
  destruct c as [[] [] [] [] [] [] [] []]; try done.
Qed.

Lemma parse_more_fuel fuel fuel' s re :
  GoRegexp.parse fuel s = Some re → (fuel ≤ fuel')%nat →
  GoRegexp.parse fuel' s = Some re.
Proof.
  revert fuel' s re. induction fuel as [|fuel IH]; intros fuel' s re; [done|].
  intros Hparse Hle. destruct fuel' as [|fuel']; [lia|].
  destruct s as [|c rest]; [done|].
  rewrite parse_unfold in *. cbv zeta in *.
  assert (∀ a r, (if GoRegexp.starred r
                  then cons (GoRegexp.Star a) <$> GoRegexp.parse fuel (GoStrings.drop 1 r)
                  else cons (GoRegexp.Once a) <$> GoRegexp.parse fuel r) = Some re →
                 (if GoRegexp.starred r
                  then cons (GoRegexp.Star a) <$> GoRegexp.parse fuel' (GoStrings.drop 1 r)
                  else cons (GoRegexp.Once a) <$> GoRegexp.parse fuel' r) = Some re)
    as Hafter.
  { intros a r. destruct (GoRegexp.starred r).
    - destruct (GoRegexp.parse fuel _) as [re'|] eqn:Hp; [|done].
      intros [= <-]. by rewrite (IH fuel' _ re') by (done || lia).
    - destruct (GoRegexp.parse fuel _) as [re'|] eqn:Hp; [|done].
      intros [= <-]. by rewrite (IH fuel' _ re') by (done || lia). }
  repeat case_decide; try done; try by apply Hafter.
  - destruct rest as [|d rest']; [done|]. destruct (GoRegexp.special d); [|done].
    by apply Hafter.
  - destruct (GoRegexp.special c); [done|]. by apply Hafter.
Qed.

Lemma parse_quoted_pattern p :
  GoRegexp.parse (S (String.length (quoted_pattern p))) (quoted_pattern p)
  = Some (pattern_pieces p).
Proof.
  induction p as [|c p IH]; [done|].
  pose proof (quoted_pattern_not_starred p) as Hns.
  cbn [quoted_pattern pattern_pieces]. case_decide as Hstar.
  - rewrite parse_unfold. cbv zeta.
    rewrite decide_False by done. rewrite decide_True by done.
    cbn [GoRegexp.starred GoStrings.drop String.length].
    rewrite (parse_more_fuel _ (S (S (String.length (quoted_pattern p)))) _ _ IH)
      by lia.
    done.
  - destruct (GoRegexp.special c) eqn:Hc.
    + rewrite parse_unfold. cbv zeta. rewrite decide_True by done.
      rewrite Hc, Hns. cbn [String.length].
      rewrite (parse_more_fuel _ (S (S (String.length (quoted_pattern p)))) _ _ IH)
        by lia.
      done.
    + rewrite parse_unfold. cbv zeta.
      rewrite decide_False by (intros ->; done).
      rewrite decide_False by (intros ->; done).
      rewrite Hc, Hns. cbn [String.length].
      by rewrite IH.
Qed.

Lemma Compile_wildCardToRegexp p :
  GoRegexp.Compile (wildCardToRegexp p) = Some (pattern_pieces p).
Proof.
  rewrite wildCardToRegexp_quoted. apply parse_quoted_pattern.
Qed.

Lemma match_here_star a re s :
  GoRegexp.match_here (GoRegexp.Star a :: re) s
  = GoRegexp.match_here re s
    || match s with
       | String c s' =>
           GoRegexp.atom_matches a c && GoRegexp.match_here (GoRegexp.Star a :: re) s'
       | "" => false
       end.
Proof. by destruct s. Qed.

Lemma match_anywhere_unfold re s :
  GoRegexp.match_anywhere re s
  = GoRegexp.match_here re s
    || match s with
       | String _ s' => GoRegexp.match_anywhere re s'
       | "" => false
       end.
Proof. by destruct s. Qed.

Lemma glob_match_star_inv star p m :
  glob_match star (String "*" p) m
  ↔ ∃ s1 s2, m = s1 +:+ s2 ∧ star s1 ∧ glob_match star p s2.
Proof.
  split.
  - inversion 1; subst; [by eauto|done].
  - intros (s1 & s2 & -> & ? & ?). by constructor.
Qed.

Lemma glob_match_char_inv star c p m :
  c ≠ "*"%char →
  glob_match star (String c p) m
  ↔ ∃ m', m = String c m' ∧ glob_match star p m'.
Proof.
  intros Hc. split.
  - inversion 1; subst; [done|by eauto].
  - intros (m' & -> & ?). by constructor.
Qed.

(** A starred [.] followed by [re] matches a prefix exactly when, after
    some characters that are no newline, [re] matches a prefix. *)
Lemma match_here_any_star re s :
  GoRegexp.match_here (GoRegexp.Star GoRegexp.AnyNotNL :: re) s = true
  ↔ ∃ s1 s2, s = s1 +:+ s2 ∧ no_newline s1 ∧ GoRegexp.match_here re s2 = true.
Proof.
  induction s as [|c s IH]; rewrite match_here_star.
  - rewrite orb_false_r. split.
    + intros Hm. by exists "", "".
    + intros (s1 & s2 & Heq & _ & Hm). destruct s1; [|done].
      rewrite append_empty_l in Heq. by subst.
  - rewrite orb_true_iff, andb_true_iff, IH. split.
    + intros [Hm|[Hc (s1 & s2 & -> & Hs1 & Hm)]].
      * by exists "", (String c s).
      * exists (String c s1), s2. split_and!; [done| |done].
        simpl in *. split; [|done]. apply negb_true_iff in Hc.
        by apply bool_decide_eq_false in Hc.
    + intros (s1 & s2 & Heq & Hs1 & Hm). destruct s1 as [|d s1].
      * left. rewrite append_empty_l in Heq. by subst.
      * right. rewrite append_cons in Heq. simplify_eq. destruct Hs1 as [Hd Hs1].
        split; [|by exists s1, s2]. simpl. apply negb_true_iff.
        by apply bool_decide_eq_false.
Qed.

Lemma match_here_pattern p s :
  GoRegexp.match_here (pattern_pieces p) s = true
  ↔ ∃ m r, s = m +:+ r ∧ glob_match no_newline p m.
Proof.
  revert s. induction p as [|c p IH]; intros s.
  - split; [|done]. intros _. exists "", s. split; [done|constructor].
  - cbn [pattern_pieces]. case_decide as Hc.
    + subst c. rewrite match_here_any_star. setoid_rewrite IH.
      setoid_rewrite glob_match_star_inv. split.
      * intros (s1 & s2 & -> & Hs1 & m & r & -> & Hm).
        exists (s1 +:+ m), r. split; [by rewrite append_assoc|]. by exists s1, m.
      * intros (m & r & -> & s1 & s2 & -> & Hs1 & Hm).
        exists s1, (s2 +:+ r). split_and!; [by rewrite append_assoc|done|].
        by exists s2, r.
    + setoid_rewrite (glob_match_char_inv _ _ _ _ Hc). destruct s as [|d s]; simpl.
      * split; [done|]. intros (m & r & Heq & m' & -> & _). done.
      * rewrite andb_true_iff, bool_decide_eq_true, IH. split.
        -- intros [-> (m & r & -> & Hm)]. exists (String c m), r.
           split; [done|]. by exists m.
        -- intros (m & r & Heq & m' & -> & Hm). rewrite append_cons in Heq.
           simplify_eq. split; [done|]. by exists m', r.
Qed.

Lemma match_anywhere_spec re s :
  GoRegexp.match_anywhere re s = true
  ↔ ∃ pre rest, s = pre +:+ rest ∧ GoRegexp.match_here re rest = true.
Proof.
  induction s as [|c s IH]; rewrite match_anywhere_unfold.
  - rewrite orb_false_r. split.
    + intros Hm. by exists "", "".
    + intros (pre & rest & Heq & Hm). destruct pre; [|done].
      rewrite append_empty_l in Heq. by subst.
  - rewrite orb_true_iff, IH. split.
    + intros [Hm|(pre & rest & -> & Hm)].
      * by exists "", (String c s).
      * by exists (String c pre), rest.
    + intros (pre & rest & Heq & Hm). destruct pre as [|d pre].
      * left. rewrite append_empty_l in Heq. by subst.
      * right. rewrite append_cons in Heq. simplify_eq. by exists pre, rest.
Qed.

(** The matcher of the device-map builders. The expression made from a
    wildcard pattern always compiles, so matching never reports an error;
    and it is not anchored: a name is accepted exactly when some part of it
    (not necessarily the whole) matches the pattern, where [*] stands for
    any run of characters other than a newline and every other character
    for itself. *)
Lemma pattern_matches_spec (pattern name : string) :
  ∃ b, pattern_matches pattern name = Ok b
       ∧ (b = true ↔ ∃ pre mid suf, name = pre +:+ mid +:+ suf
                                    ∧ glob_match no_newline pattern mid).
Proof.
  unfold pattern_matches, GoRegexp.MatchString.
  rewrite Compile_wildCardToRegexp. eexists. split; [done|].
  rewrite match_anywhere_spec. setoid_rewrite match_here_pattern. split.
  - intros (pre & rest & -> & m & r & -> & Hm). by exists pre, m, r.
  - intros (pre & mid & suf & -> & Hm). exists pre, (mid +:+ suf).
    split; [done|]. by exists mid, suf.
Qed.

Lemma glob_match_literal star p m :
  GoStrings.Index p "*" = None → glob_match star p m ↔ m = p.
Proof.
  revert m. induction p as [|c p IH]; intros m Hp.
  - split; [by inversion 1|intros ->; constructor].
  - rewrite Index_star_cons in Hp. case_decide as Hc; [done|].
    destruct (GoStrings.Index p "*") eqn:Hi; [done|].
    rewrite (glob_match_char_inv _ _ _ _ Hc). split.
    + intros (m' & -> & Hm). f_equal. by apply IH.
    + intros ->. exists p. split; [done|]. by apply IH.
Qed.






Lemma pattern_matches_no_star pattern name :
  GoStrings.Contains pattern "*" = false →
  pattern_matches pattern name = Ok (GoStrings.Contains name pattern).
Proof.
  intros Hstar.
  destruct (pattern_matches_spec pattern name) as (b & -> & Hb).
  f_equal. unfold GoStrings.Contains in Hstar.
  destruct (GoStrings.Index pattern "*") eqn:Hi; [done|].
  apply eq_true_iff_eq. rewrite Hb, Contains_spec. unfold occurs_in. split.
  - intros (pre & mid & suf & -> & Hm%glob_match_literal); [|done].
    subst mid. by exists pre, suf.
  - intros (pre & suf & ->). exists pre, pattern, suf. split; [done|].
    by apply glob_match_literal.
Qed.



Lemma first_match_spec (rs : list Resource) (name : string) :
  ∃ found, first_match rs name = Ok found
    ∧ (found = None ↔ unmatched rs name)
    ∧ ∀ r, found = Some r →
        ∃ before after, rs = before ++ r :: after
          ∧ pattern_matches (Pattern r) name = Ok true
          ∧ unmatched before name.
Proof.
  induction rs as [|r0 rs IH]; simpl.
  - exists None. split_and!; [done| |done].
    split; [|done]. intros _ r Hr. by apply elem_of_nil in Hr.
  - destruct (pattern_matches_spec (Pattern r0) name) as (b & Hb & _).
    rewrite Hb. destruct b.
    + exists (Some r0). split_and!; [done| |].
      * split; [done|]. intros Hun. rewrite (Hun r0) in Hb by by left. done.
      * intros r [= <-]. exists [], rs. split_and!; [done..|].
        intros r Hr. by apply elem_of_nil in Hr.
    + destruct IH as (found & Hfound & Hnone & Hsome).
      exists found. split_and!; [done| |].
      * rewrite Hnone. split.
        -- intros Hun r [->|Hr]%elem_of_cons; [done|by apply Hun].
        -- intros Hun r Hr. apply Hun. by right.
      * intros r Hr. destruct (Hsome r Hr) as (before & after & -> & Hm & Hun).
        exists (r0 :: before), after. split_and!; [done..|].
        intros r' [->|Hr']%elem_of_cons; [done|by apply Hun].
Qed.


(** ** Devices and device maps *)

Lemma BuildDevice_fields (index : string) (info : unit_info) :
  (is_err (BuildDevice index info) ↔ info_read_fails info)
  ∧ (is_err (info_uuid info) → BuildDevice index info = Err ErrUUID)
  ∧ ∀ d, BuildDevice index info = Ok d →
      info_uuid info = Ok (ID d)
      ∧ info_paths info = Ok (Paths d)
      ∧ info_memory info = Ok (TotalMemory d)
      ∧ info_compute_capability info = Ok (ComputeCapability d)
      ∧ Index d = index ∧ Health d = Healthy ∧ Replicas d = 0
      ∧ ∃ hasNuma node, info_numa info = Ok (hasNuma, node)
          ∧ Topology d = if hasNuma then Some [node] else None.
Proof.
  split_and!.
  - split; [|apply BuildDevice_fails].
    unfold info_read_fails, is_err, BuildDevice. simpl.
    destruct info as [[uuid|e1] [paths|e2] [[hasNuma node]|e3] [memory|e4] [cc|e5]];
      simpl; intros [e He]; try done;
      first [ by left; eexists
            | by right; left; eexists
            | by right; right; left; eexists
            | by right; right; right; left; eexists
            | by right; right; right; right; eexists ].
  - intros [e He]. unfold BuildDevice. simpl. by rewrite He.
  - unfold BuildDevice. simpl.
    destruct info as [[uuid|e1] [paths|e2] [[hasNuma node]|e3] [memory|e4] [cc|e5]];
      simpl; intros d Hd; try done.
    cbv [mret result_ret] in Hd. simplify_eq. simpl.
    split_and!; try done. exists hasNuma, node. done.
Qed.

(** X6: what [BuildDevice] builds. It fails exactly when one of the five
    reads fails, with the error of the first read that fails; a device it
    returns carries the unit's id, paths, memory and compute capability and
    the index passed in, is healthy, is not replicated, and has a topology
    exactly when the unit reports a NUMA node. *)
Theorem BuildDevice_spec (index : string) (info : unit_info) :
  (is_err (BuildDevice index info) ↔ info_read_fails info)
  ∧ (is_err (info_uuid info) → BuildDevice index info = Err ErrUUID)
  ∧ ∀ d, BuildDevice index info = Ok d →
      info_uuid info = Ok (ID d)
      ∧ info_paths info = Ok (Paths d)
      ∧ info_memory info = Ok (TotalMemory d)
      ∧ info_compute_capability info = Ok (ComputeCapability d)
      ∧ Index d = index ∧ Health d = Healthy ∧ Replicas d = 0
      ∧ ∃ hasNuma node, info_numa info = Ok (hasNuma, node)
          ∧ Topology d = if hasNuma then Some [node] else None.
Proof. by apply BuildDevice_fields. Qed.

Lemma entry_insert (m : DeviceMap) name (ds : Devices) name' id :
  entry (<[name := ds]> m) name' id
  = if decide (name' = name) then ds !! id else entry m name' id.
Proof.
  unfold entry. case_decide as Hn.
  - subst. by rewrite lookup_insert_eq.
  - by rewrite lookup_insert_ne.
Qed.

Lemma setEntry_lookup (m : DeviceMap) (name index : string) (info : unit_info) :
  (info_read_fails info →
   ∃ err, setEntry m name index info = (m, Some err))
  ∧ ∀ m', setEntry m name index info = (m', None) →
      ∃ dev, BuildDevice index info = Ok dev
        ∧ entry m' name (ID dev) = Some dev
        ∧ ∀ name' id, (name', id) ≠ (name, ID dev) →
            entry m' name' id = entry m name' id.
Proof.
  unfold setEntry. split.
  - intros [e He]%(BuildDevice_fails index). rewrite He. by eexists.
  - intros m'. destruct (BuildDevice index info) as [dev|e]; [|done].
    intros [= <-]. exists dev. split_and!; [done| |].
    + rewrite entry_insert, decide_True by done. apply lookup_insert_eq.
    + intros name' id Hne. rewrite entry_insert. case_decide as Hn; [|done].
      subst name'. rewrite lookup_insert_ne by congruence.
      unfold entry. by destruct (m !! name).
Qed.

(** X7: [setEntry] writes one place of the map. When the device cannot be
    built the map is left as it was and the error is returned; otherwise
    the device is found afterwards in the bucket [name] under its own id,
    and every other place of the map (another bucket, or another id of the
    same bucket) holds what it held before. *)
Theorem setEntry_frame (m : DeviceMap) (name index : string) (info : unit_info) :
  (info_read_fails info →
   ∃ err, setEntry m name index info = (m, Some err))
  ∧ ∀ m', setEntry m name index info = (m', None) →
      ∃ dev, BuildDevice index info = Ok dev
        ∧ entry m' name (ID dev) = Some dev
        ∧ ∀ name' id, (name', id) ≠ (name, ID dev) →
            entry m' name' id = entry m name' id.
Proof. by apply setEntry_lookup. Qed.

Lemma setEntry_well_formed rs (m m' : DeviceMap) r index (info : unit_info) err :
  r ∈ rs → well_formed_map rs m →
  setEntry m (Name r) index info = (m', err) → well_formed_map rs m'.
Proof.
  intros Hr Hwf. unfold setEntry.
  destruct (BuildDevice index info) as [dev|e] eqn:Hdev; intros [= <- <-]; [|done].
  destruct (BuildDevice_fields index info) as (_ & _ & Hfields).
  destruct (Hfields dev Hdev) as (_ & _ & _ & _ & _ & Hhealth & Hrep & _).
  intros name ds. destruct (decide (name = Name r)) as [->|Hne].
  - rewrite lookup_insert_eq. intros [= <-]. split_and!.
    + by exists r.
    + apply insert_non_empty.
    + intros k d. destruct (decide (k = ID dev)) as [->|Hk].
      * rewrite lookup_insert_eq. by intros [= <-].
      * rewrite lookup_insert_ne by done. destruct (m !! Name r) as [ds|] eqn:Hds.
        -- simpl. by apply (Hwf _ _ Hds).
        -- simpl. by rewrite lookup_empty.
  - rewrite lookup_insert_ne by done. apply Hwf.
Qed.

Lemma first_match_elem rs name r :
  first_match rs name = Ok (Some r) → r ∈ rs.
Proof.
  intros Hfm. destruct (first_match_spec rs name) as (found & Hf & _ & Hsome).
  rewrite Hfm in Hf. simplify_eq.
  destruct (Hsome r eq_refl) as (before & after & -> & _).
  apply elem_of_app. right. by left.
Qed.

Lemma visit_gpu_well_formed b igpu m m' err :
  well_formed_map (resources b) m →
  visit_gpu b igpu m = (m', err) → well_formed_map (resources b) m'.
Proof.
  intros Hwf. unfold visit_gpu. destruct igpu as [i gpu].
  destruct (gpu_name gpu) as [name|]; [|by intros [= <- <-]].
  destruct (gpu_mig_enabled gpu) as [migEnabled|]; [|by intros [= <- <-]].
  destruct (migEnabled && _); [by intros [= <- <-]|].
  destruct (first_match (resources b) name) as [[r|]|] eqn:Hfm;
    [|by intros [= <- <-]..].
  simpl. apply setEntry_well_formed; [|done]. by eapply first_match_elem.
Qed.

Lemma visit_mig_well_formed b mig m m' err :
  well_formed_map (resources b) m →
  visit_mig b mig m = (m', err) → well_formed_map (resources b) m'.
Proof.
  intros Hwf. unfold visit_mig.
  destruct (mig_profile mig) as [profile|]; [|by intros [= <- <-]].
  destruct (first_match (resources b) profile) as [[r|]|] eqn:Hfm;
    [|by intros [= <- <-]..].
  simpl. apply setEntry_well_formed; [|done]. by eapply first_match_elem.
Qed.

Lemma visit_units_invariant {U} (P : DeviceMap → Prop)
    (visit : U → DeviceMap → DeviceMap * option error) units m :
  (∀ u m m' err, P m → visit u m = (m', err) → P m') →
  P m → P (visit_units visit units m).1.
Proof.
  intros Hstep. revert m. induction units as [|u units IH]; intros m Hm; [done|].
  simpl. destruct (visit u m) as [m' [err|]] eqn:Hvisit.
  - simpl. by eapply Hstep.
  - apply IH. by eapply Hstep.
Qed.

Lemma well_formed_empty rs : well_formed_map rs ∅.
Proof. intros name ds Hds. by rewrite lookup_empty in Hds. Qed.

Lemma NewDeviceMap_well_formed (nvmllib : nvml) (rs : list Resource)
    (strategy : string) (m : DeviceMap) :
  (NewDeviceMap nvmllib rs strategy).1 = Some m → well_formed_map rs m.
Proof.
  unfold NewDeviceMap, build. simpl.
  set (b := {| Interface := nvmllib; migStrategy := strategy; resources := rs |}).
  assert (well_formed_map rs (buildGPUDeviceMap b).1) as Hgpu.
  { apply (visit_units_invariant (well_formed_map rs)).
    - intros u m0 m' err. apply (visit_gpu_well_formed b).
    - apply well_formed_empty. }
  assert (well_formed_map rs (buildMigDeviceMap b).1) as Hmig.
  { apply (visit_units_invariant (well_formed_map rs)).
    - intros u m0 m' err. apply (visit_mig_well_formed b).
    - apply well_formed_empty. }
  repeat case_decide.
  - destruct (buildGPUDeviceMap b). simpl in *. by intros [= <-].
  - destruct (buildGPUDeviceMap b). simpl in *. by intros [= <-].
  - destruct (buildMigDeviceMap b). simpl in *. by intros [= <-].
  - done.
Qed.

(** X8: the shape of a built device map. Whatever map a build returns, with
    or without an error, every bucket of it is named by one of the
    descriptors, holds at least one device, and holds each device under the
    device's own id, healthy and not replicated. *)
Theorem built_map_well_formed (nvmllib : nvml) (rs : list Resource)
    (strategy : string) (m : DeviceMap) :
  (NewDeviceMap nvmllib rs strategy).1 = Some m → well_formed_map rs m.
Proof. by apply NewDeviceMap_well_formed. Qed.

Lemma built_map_well_formed_witness :
  well_formed_map [model_descriptor]
    {[ "nvidia.com/gpu" := {[ "GPU-1" := sample_device "GPU-1" "0" "/dev/nvidia0" ]} ]}.
Proof.
  apply (built_map_well_formed two_gpus [model_descriptor] MigStrategyNone).
  reflexivity.
Defined.

Lemma setEntry_has_entry (m m' : DeviceMap) n index (info : unit_info) err name uuid :
  has_entry m name uuid →
  setEntry m n index info = (m', err) → has_entry m' name uuid.
Proof.
  intros (ds & d & Hds & Hd & Hid). unfold setEntry.
  destruct (BuildDevice index info) as [dev|e]; intros [= <- <-];
    [|by exists ds, d].
  destruct (decide (n = name)) as [->|Hn].
  - rewrite Hds. simpl. destruct (decide (ID dev = uuid)) as [Hu|Hu].
    + exists (<[ID dev := dev]> ds), dev. rewrite lookup_insert_eq.
      split_and!; [done| |done]. rewrite <- Hu. apply lookup_insert_eq.
    + exists (<[ID dev := dev]> ds), d. rewrite lookup_insert_eq.
      split_and!; [done| |done]. by rewrite lookup_insert_ne.
  - exists ds, d. by rewrite lookup_insert_ne.
Qed.

Lemma visit_gpu_has_entry b igpu m m' err name uuid :
  has_entry m name uuid → visit_gpu b igpu m = (m', err) →
  has_entry m' name uuid.
Proof.
  intros Hentry. unfold visit_gpu. destruct igpu as [i gpu].
  destruct (gpu_name gpu) as [nm|]; [|by intros [= <- <-]].
  destruct (gpu_mig_enabled gpu) as [migEnabled|]; [|by intros [= <- <-]].
  destruct (migEnabled && _); [by intros [= <- <-]|].
  destruct (first_match (resources b) nm) as [[r|]|]; [|by intros [= <- <-]..].
  simpl. by apply setEntry_has_entry.
Qed.

Lemma visit_units_all {U} (Q : U → DeviceMap → Prop)
    (visit : U → DeviceMap → DeviceMap * option error) units m0 m :
  (∀ u m m', visit u m = (m', None) → Q u m') →
  (∀ u v m m' err, Q u m → visit v m = (m', err) → Q u m') →
  visit_units visit units m0 = (m, None) →
  ∀ u, u ∈ units → Q u m.
Proof.
  intros Hpost Hkeep. revert m0. induction units as [|v units IH]; intros m0 Hrun u Hu.
  { by apply elem_of_nil in Hu. }
  simpl in Hrun. destruct (visit v m0) as [m1 [err|]] eqn:Hv; [done|].
  assert (∀ w m1, Q w m1 → visit_units visit units m1 = (m, None) → Q w m)
    as Hrest.
  { clear -Hkeep. intros w. induction units as [|x units IH]; intros m1 Hq Hrun.
    - simpl in Hrun. by simplify_eq.
    - simpl in Hrun. destruct (visit x m1) as [m2 [err|]] eqn:Hx; [done|].
      apply (IH m2); [|done]. by eapply Hkeep. }
  apply elem_of_cons in Hu as [->|Hu].
  - apply (Hrest v m1); [|done]. by eapply Hpost.
  - by apply (IH m1).
Qed.

(** X9: a build that succeeds has classified every unit. When
    [buildGPUDeviceMap] returns no error, every whole device it was given
    either was passed over (partitioning enabled, strategy other than
    "none") or has a name, an id and a first matching descriptor, and the
    map holds a device with that id in the bucket of that descriptor. *)
Theorem built_map_complete (b : deviceMapBuilder) (m : DeviceMap) (gpu : gpu_unit) :
  buildGPUDeviceMap b = (m, None) →
  gpu ∈ nvml_gpus (Interface b) →
  gpu_skipped b gpu
  ∨ ∃ name uuid r,
      gpu_name gpu = Ok name
      ∧ info_uuid (gpu_info gpu) = Ok uuid
      ∧ first_match (resources b) name = Ok (Some r)
      ∧ has_entry m (Name r) uuid.
Proof.
  intros Hbuild [i Hi]%elem_of_indexed. unfold buildGPUDeviceMap in Hbuild.
  set (Q := λ (igpu : Z * gpu_unit) (m : DeviceMap),
              gpu_skipped b igpu.2
              ∨ ∃ name uuid r,
                  gpu_name igpu.2 = Ok name
                  ∧ info_uuid (gpu_info igpu.2) = Ok uuid
                  ∧ first_match (resources b) name = Ok (Some r)
                  ∧ has_entry m (Name r) uuid).
  assert (∀ u m m', visit_gpu b u m = (m', None) → Q u m') as Hpost.
  { clear. intros [i gpu] m m'. unfold Q, visit_gpu, gpu_skipped. simpl.
    destruct (gpu_name gpu) as [name|]; [|done].
    destruct (gpu_mig_enabled gpu) as [migEnabled|]; [|done].
    destruct (migEnabled && _) eqn:Hcond.
    { intros _. left. apply andb_true_iff in Hcond as [-> Hs]. split; [done|].
      apply negb_true_iff in Hs. by apply bool_decide_eq_false in Hs. }
    destruct (first_match (resources b) name) as [[r|]|] eqn:Hfm; [|done..].
    intros Hset. right.
    destruct (setEntry_lookup m (Name r) (GoStrconv.FormatInt i) (gpu_info gpu))
      as [_ Hok].
    destruct (Hok m' Hset) as (dev & Hdev & Hentry & _).
    destruct (BuildDevice_fields (GoStrconv.FormatInt i) (gpu_info gpu))
      as (_ & _ & Hfields).
    destruct (Hfields dev Hdev) as (Huuid & _).
    exists name, (ID dev), r. split_and!; [done..|].
    unfold entry in Hentry. destruct (m' !! Name r) as [ds|] eqn:Hds; [|done].
    by exists ds, dev. }
  assert (∀ u v m m' err, Q u m → visit_gpu b v m = (m', err) → Q u m') as Hkeep.
  { clear. intros u v m m' err [Hskip|(name & uuid & r & ? & ? & ? & Hentry)] Hv.
    - by left.
    - right. exists name, uuid, r. split_and!; [done..|].
      by eapply visit_gpu_has_entry. }
  apply (visit_units_all Q (visit_gpu b) _ ∅ m Hpost Hkeep Hbuild (i, gpu) Hi).
Qed.

Lemma built_map_complete_witness :
  gpu_skipped (builder_of (manager_with one_gpu [model_descriptor] []))
    (sample_gpu "Model-X" "GPU-1")
  ∨ ∃ name uuid r,
      gpu_name (sample_gpu "Model-X" "GPU-1") = Ok name
      ∧ info_uuid (gpu_info (sample_gpu "Model-X" "GPU-1")) = Ok uuid
      ∧ first_match [model_descriptor] name = Ok (Some r)
      ∧ has_entry
          {[ "nvidia.com/gpu" :=
               {[ "GPU-1" := sample_device "GPU-1" "0" "/dev/nvidia0" ]} ]}
          (Name r) uuid.
Proof.
  apply (built_map_complete (builder_of (manager_with one_gpu [model_descriptor] []))
           {[ "nvidia.com/gpu" :=
                {[ "GPU-1" := sample_device "GPU-1" "0" "/dev/nvidia0" ]} ]}
           (sample_gpu "Model-X" "GPU-1")).
  - reflexivity.
  - left.
Defined.

(** ** The plugin manager *)





(** ** Servers and their stop channel *)

(** X11: [Start], [Stop] and the stop channel of a server. [Stop] returns the
    error of removing the socket and then leaves the channel alone;
    otherwise it closes the channel, so it panics exactly when the channel
    is closed already and the socket can be removed: a second [Stop] after
    one that returned nil panics. [Start] returns nil exactly when neither
    [Serve] nor [Register] fails, and then leaves the channel as it was; a
    failed [Start] closes the channel when [Serve] failed, or when
    [Register] failed and the socket could be removed, and so panics
    exactly when the channel is closed already in one of these two cases. *)
Theorem Start_Stop_channel
    (Serve Register RemoveAgain os_Remove : NvidiaDevicePlugin → option error)
    (p : NvidiaDevicePlugin) (closed : bool) :
  (Stop os_Remove p closed = None ↔ os_Remove p = None ∧ closed = true)
  ∧ (∀ err, os_Remove p = Some err →
       Stop os_Remove p closed = Some (closed, Some err))
  ∧ (os_Remove p = None →
     Stop os_Remove p false = Some (true, None) ∧ Stop os_Remove p true = None)
  ∧ (Start Serve Register RemoveAgain p closed = None
     ↔ closed = true
       ∧ (is_Some (Serve p) ∨ is_Some (Register p) ∧ RemoveAgain p = None))
  ∧ (∀ closed',
       Start Serve Register RemoveAgain p closed = Some (closed', None)
       ↔ Serve p = None ∧ Register p = None ∧ closed' = closed)
  ∧ (∀ closed' err,
       Start Serve Register RemoveAgain p false = Some (closed', Some err) →
       (closed' = true
        ↔ is_Some (Serve p) ∨ is_Some (Register p) ∧ RemoveAgain p = None)
       ∧ (∀ e, Serve p = Some e → err = ErrServe e)
       ∧ (Serve p = None →
          ∃ e, Register p = Some e ∧ err = ErrRegister e (RemoveAgain p))).
Proof.
  unfold Start, Stop.
  split_and!.
  - destruct (os_Remove p), closed; simpl; split; try done; by intros [? ?].
  - by intros err ->.
  - by intros ->.
  - destruct (Serve p), (Register p), (RemoveAgain p), closed; simpl;
      split; try done;
      try (by intros [_ [[? [=]]|[[? [=]] [=]]]]); try (by intros [[=] _]);
      intros _; (split; [done|]); eauto.
  - intros closed'.
    destruct (Serve p), (Register p), (RemoveAgain p), closed; simpl;
      split; try done; try (by intros (? & ? & ?)); try (by intros [= ->]);
      by intros (_ & _ & ->).
  - intros closed' err.
    destruct (Serve p), (Register p), (RemoveAgain p); simpl;
      intros [= <- <-]; (split_and!; [split| |]); try done; eauto;
      try (by intros [[? [=]]|[[? [=]] [=]]]); try (by intros ? [=]);
      try (by intros ? [= ->]).
Qed.

Lemma stop_loop_spec Remove plugins i (chans : channels) log :
  match stop_loop Remove plugins i chans log with
  | (Some chans', log') =>
      log' = log ++ (CallStop <$> filter has_devices plugins)
      ∧ (∀ j p, plugins !! j = Some p →
           (has_devices p → Remove p = None →
            chans (i + j)%nat = false ∧ chans' (i + j)%nat = true)
           ∧ (¬ (has_devices p ∧ Remove p = None) →
              chans' (i + j)%nat = chans (i + j)%nat))
      ∧ (∀ k, (k < i)%nat → chans' k = chans k)
  | (None, log') =>
      ∃ n, log' = log ++ (CallStop <$> take n (filter has_devices plugins))
  end.
Proof.
  revert i chans log.
  induction plugins as [|p plugins IH]; intros i chans log; cbn [stop_loop].
  { rewrite filter_nil, app_nil_r. split_and!; [done| |done].
    by intros j p Hp. }
  assert (∀ (chans0 chans' : channels),
            (∀ k, k ≠ i → chans0 k = chans k) →
            ((has_devices p → Remove p = None →
              chans i = false ∧ chans' i = true)
             ∧ (¬ (has_devices p ∧ Remove p = None) → chans' i = chans i)) →
            (∀ j q, plugins !! j = Some q →
               (has_devices q → Remove q = None →
                chans0 (S i + j)%nat = false ∧ chans' (S i + j)%nat = true)
               ∧ (¬ (has_devices q ∧ Remove q = None) →
                  chans' (S i + j)%nat = chans0 (S i + j)%nat)) →
            ∀ j q, (p :: plugins) !! j = Some q →
               (has_devices q → Remove q = None →
                chans (i + j)%nat = false ∧ chans' (i + j)%nat = true)
               ∧ (¬ (has_devices q ∧ Remove q = None) →
                  chans' (i + j)%nat = chans (i + j)%nat)) as Hshift.
  { intros chans0 chans' Hother Hhead Htail [|j] q Hq.
    - simpl in Hq. simplify_eq. by rewrite Nat.add_0_r.
    - simpl in Hq. replace (i + S j)%nat with (S i + j)%nat by lia.
      rewrite <-(Hother (S i + j)%nat) by lia. by apply Htail. }
  destruct (Nat.eqb_spec (size (devices p)) 0) as [Hz|Hnz].
  { rewrite filter_cons_False by (unfold has_devices; tauto).
    specialize (IH (S i) chans log).
    destruct (stop_loop Remove plugins (S i) chans log) as [[chans'|] log'];
      [|done].
    destruct IH as (Hlog & Hin & Hbefore). split_and!; [done| |].
    - apply (Hshift chans chans'); [done| |done].
      split; [by intros Hdev|]. intros _. apply Hbefore. lia.
    - intros k Hk. apply Hbefore. lia. }
  rewrite filter_cons_True by done.
  unfold Stop. destruct (Remove p) as [err|] eqn:Hremove.
  - specialize (IH (S i) (<[i := chans i]> chans) (log ++ [CallStop p])).
    destruct (stop_loop Remove plugins (S i) (<[i := chans i]> chans)
                (log ++ [CallStop p])) as [[chans'|] log'].
    + destruct IH as (Hlog & Hin & Hbefore).
      split_and!.
      * rewrite Hlog, <-(assoc_L (++)). done.
      * apply (Hshift (<[i := chans i]> chans) chans').
        -- intros k Hk. by apply fn_lookup_insert_ne.
        -- split; [by intros _ [=]|]. intros _.
           rewrite Hbefore by lia. apply fn_lookup_insert.
        -- done.
      * intros k Hk. rewrite Hbefore by lia. apply fn_lookup_insert_ne. lia.
    + destruct IH as [n Hlog]. exists (S n).
      rewrite Hlog, <-(assoc_L (++)). done.
  - destruct (chans i) eqn:Hci; cbn [cleanup mbind option_bind].
    + exists 1%nat. done.
    + specialize (IH (S i) (<[i := true]> chans) (log ++ [CallStop p])).
      destruct (stop_loop Remove plugins (S i) (<[i := true]> chans)
                  (log ++ [CallStop p])) as [[chans'|] log'].
      * destruct IH as (Hlog & Hin & Hbefore).
        split_and!.
        -- rewrite Hlog, <-(assoc_L (++)). done.
        -- apply (Hshift (<[i := true]> chans) chans').
           ++ intros k Hk. by apply fn_lookup_insert_ne.
           ++ split; [|by intros []].
              intros _ _. split; [done|].
              rewrite Hbefore by lia. apply fn_lookup_insert.
           ++ done.
        -- intros k Hk. rewrite Hbefore by lia. apply fn_lookup_insert_ne. lia.
      * destruct IH as [n Hlog]. exists (S n).
        rewrite Hlog, <-(assoc_L (++)). done.
Qed.

(** The log of the loop of [startPlugins], and its local [restart]. *)
Lemma start_loop_log Serve Register RemoveAgain plugins i started restart
    (chans : channels) log :
  (start_loop Serve Register RemoveAgain plugins i started restart chans log).2
  = log ++ (CallStart <$> up_to_first_failure (Start_fails Serve Register)
                            (filter has_devices plugins))
  ∧ ∀ started' restart' chans',
      (start_loop Serve Register RemoveAgain plugins i started restart chans log).1
      = Some (started', restart', chans') →
      restart' = restart || existsb (Start_fails Serve Register)
                              (filter has_devices plugins).
Proof.
  revert i started restart chans log.
  induction plugins as [|p plugins IH]; intros i started restart chans log;
    cbn [start_loop].
  { rewrite filter_nil. cbn [fst snd up_to_first_failure existsb fmap list_fmap].
    rewrite app_nil_r, orb_false_r. split; [done|]. by intros ? ? ? [= _ -> _]. }
  destruct (Nat.eqb_spec (size (devices p)) 0) as [Hz|Hnz].
  { rewrite filter_cons_False by (unfold has_devices; tauto). apply IH. }
  rewrite filter_cons_True by done. cbn [up_to_first_failure existsb].
  destruct (Start Serve Register RemoveAgain p (chans i))
    as [[closed [err|]]|] eqn:Hstart.
  - rewrite (Start_not_nil Serve Register RemoveAgain p (chans i))
      by (intros c; by rewrite Hstart).
    cbn [fst snd]. split; [done|]. intros ? ? ? [= _ <- _].
    by rewrite orb_true_r.
  - apply Start_succeeds in Hstart as [-> _].
    destruct (IH (S i) (started + 1) restart (<[i := closed]> chans)
                (log ++ [CallStart p])) as [Hlog Hrestart].
    split; [by rewrite Hlog, <-(assoc_L (++))|]. apply Hrestart.
  - rewrite (Start_not_nil Serve Register RemoveAgain p (chans i))
      by (intros c; by rewrite Hstart).
    cbn [fst snd]. split; [done|]. by intros ? ? ?.
Qed.

(** X12: what [stopPlugins] does. It calls [Stop] on the servers with devices
    only, in the order of the list, and goes on after a [Stop] that returned
    an error. It panics exactly when one of these servers has its stop
    channel closed already and its socket can be removed; the calls made
    until then are all it has done. When it does not panic it has called
    [Stop] on every server with devices, the stop channel of each of them
    whose socket could be removed is closed, and every other channel is as
    it was. *)
Theorem stopPlugins_stops (Remove : NvidiaDevicePlugin → option error)
    (pm : PluginManager) (chans : channels) :
  ((stopPlugins Remove pm chans []).1 = None
   ↔ ∃ i p, pm_plugins pm !! i = Some p ∧ has_devices p
            ∧ chans i = true ∧ Remove p = None)
  ∧ (∃ n, (stopPlugins Remove pm chans []).2
          = CallStop <$> take n (filter has_devices (pm_plugins pm)))
  ∧ (∀ chans', (stopPlugins Remove pm chans []).1 = Some chans' →
       (stopPlugins Remove pm chans []).2
       = CallStop <$> filter has_devices (pm_plugins pm)
       ∧ ∀ i p, pm_plugins pm !! i = Some p →
           (has_devices p → Remove p = None → chans' i = true)
           ∧ (¬ (has_devices p ∧ Remove p = None) → chans' i = chans i)).
Proof.
  unfold stopPlugins.
  pose proof (stop_loop_spec Remove (pm_plugins pm) 0 chans []) as Hspec.
  split_and!.
  - apply (stop_loop_panics Remove (pm_plugins pm) 0 chans []).
  - destruct (stop_loop Remove (pm_plugins pm) 0 chans []) as [[chans'|] log].
    + destruct Hspec as (-> & _). exists (length (filter has_devices (pm_plugins pm))).
      by rewrite firstn_all.
    + exact Hspec.
  - intros chans' Hrun.
    destruct (stop_loop Remove (pm_plugins pm) 0 chans []) as [[chans''|] log];
      [|done].
    cbn [fst snd] in *. simplify_eq. destruct Hspec as (-> & Hin & _).
    split; [done|]. intros i p Hp. destruct (Hin i p Hp) as [Hclose Hkeep].
    split; [intros Hdev Hr; by apply Hclose|exact Hkeep].
Qed.

(** A failed or successful [Start] never opens a channel. *)
Lemma start_loop_keeps_closed Serve Register RemoveAgain plugins i started
    restart (chans : channels) log started' restart' (chans' : channels) :
  (start_loop Serve Register RemoveAgain plugins i started restart chans log).1
  = Some (started', restart', chans') →
  ∀ k, chans k = true → chans' k = true.
Proof.
  revert i started restart chans log.
  induction plugins as [|p plugins IH]; intros i started restart chans log;
    cbn [start_loop].
  { by intros [= _ _ <-]. }
  destruct (size (devices p) =? 0)%nat; [apply IH|].
  assert (∀ closed err,
            Start Serve Register RemoveAgain p (chans i) = Some (closed, err) →
            ∀ k, chans k = true → (<[i := closed]> chans) k = true) as Hstep.
  { intros closed err Hstart k Hk. destruct (decide (k = i)) as [->|Hne].
    - rewrite fn_lookup_insert. rewrite Hk in Hstart.
      unfold Start, Stop in Hstart.
      destruct (Serve p), (Register p), (RemoveAgain p); by simplify_eq/=.
    - by rewrite fn_lookup_insert_ne. }
  destruct (Start Serve Register RemoveAgain p (chans i))
    as [[closed [err|]]|] eqn:Hstart; [| |done].
  - intros [= _ _ <-]. by apply (Hstep closed (Some err)).
  - intros Hrun k Hk. apply (IH _ _ _ _ _ Hrun). by apply (Hstep closed None).
Qed.

(** A pass that runs to its end, from any log. *)
Lemma startPlugins_run
    (Serve Register Remove RemoveAgain : NvidiaDevicePlugin → option error)
    (pm pm' : PluginManager) (chans chans' : channels) (log0 log : list call) :
  startPlugins Serve Register Remove RemoveAgain pm chans log0
  = (Some (pm', chans'), log) →
  pm_started pm' = true
  ∧ pm_restartTimeout pm'
    = pm_restartTimeout pm
      || existsb (Start_fails Serve Register) (filter has_devices (pm_plugins pm))
  ∧ pm_plugins pm' = pm_plugins pm
  ∧ pm_devices pm' = pm_devices pm
  ∧ pm_restart pm' = pm_restart pm
  ∧ log = log0
          ++ (CallStop <$> (if pm_started pm
                            then filter has_devices (pm_plugins pm) else []))
          ++ (CallStart <$> up_to_first_failure (Start_fails Serve Register)
                              (filter has_devices (pm_plugins pm)))
  ∧ (pm_started pm = true →
     ∀ i p, pm_plugins pm !! i = Some p → has_devices p → Remove p = None →
            chans' i = true).
Proof.
  unfold startPlugins, stopPlugins.
  assert (∃ chans0 : channels,
            (if pm_started pm then stop_loop Remove (pm_plugins pm) 0 chans log0
             else (Some chans, log0))
            = (Some chans0,
               log0 ++ (CallStop <$> (if pm_started pm
                                      then filter has_devices (pm_plugins pm)
                                      else [])))
            ∧ (pm_started pm = true →
               ∀ i p, pm_plugins pm !! i = Some p → has_devices p →
                      Remove p = None → chans0 i = true)
            ∨ (if pm_started pm then stop_loop Remove (pm_plugins pm) 0 chans log0
               else (Some chans, log0)).1 = None) as [chans0 [[-> Hclosed]|Hnone]].
  { destruct (pm_started pm).
    2:{ exists chans. left. by rewrite app_nil_r. }
    pose proof (stop_loop_spec Remove (pm_plugins pm) 0 chans log0) as Hspec.
    destruct (stop_loop Remove (pm_plugins pm) 0 chans log0) as [[chans0|] log1].
    - destruct Hspec as (-> & Hin & _). exists chans0. left. split; [done|].
      intros _ i p Hp Hdev Hr. by destruct (Hin i p Hp) as [[_ ?] _].
    - exists chans. by right. }
  2:{ destruct (if pm_started pm then _ else _) as [[?|] ?]; by simplify_eq/=. }
  destruct (start_loop_log Serve Register RemoveAgain (pm_plugins pm) 0 0 false
              chans0
              (log0 ++ (CallStop <$> (if pm_started pm
                                      then filter has_devices (pm_plugins pm)
                                      else []))))
    as [Hlog Hrestart].
  pose proof (start_loop_keeps_closed Serve Register RemoveAgain (pm_plugins pm)
                0 0 false chans0
                (log0 ++ (CallStop <$> (if pm_started pm
                                        then filter has_devices (pm_plugins pm)
                                        else [])))) as Hkeeps.
  destruct (start_loop Serve Register RemoveAgain (pm_plugins pm) 0 0 false
              chans0 _) as [[[[started restart] chans1]|] log1]; [|done].
  intros [= <- <- <-]. cbn [fst snd] in *.
  rewrite (Hrestart started restart chans1 eq_refl). cbn [orb].
  split_and!; try done.
  - destruct (existsb _ _); by rewrite ?orb_true_r, ?orb_false_r.
  - by rewrite Hlog, <-(assoc_L (++)).
  - intros Hstarted i p Hp Hdev Hr.
    apply (Hkeeps started restart chans1 eq_refl). by apply (Hclosed Hstarted i p).
Qed.

(** X13: what a StartPlugins pass that runs to its end does to the manager,
    and in which order. The pass marks the manager started and arms the
    retry timer exactly when [Start] fails for some server with devices (a
    timer armed before stays armed); it leaves the device map, the server
    list and the restart flag alone. If the manager was started already,
    every server with devices is stopped first, and all stops come before
    the first start; otherwise nothing is stopped. Then the servers with
    devices are started in order, up to the first failure. After a pass of
    a started manager, every server with devices whose socket could be
    removed has its stop channel closed, also when its [Start] returned
    nil. *)
Theorem startPlugins_effects
    (Serve Register Remove RemoveAgain : NvidiaDevicePlugin → option error)
    (pm pm' : PluginManager) (chans chans' : channels) (log : list call) :
  startPlugins Serve Register Remove RemoveAgain pm chans []
  = (Some (pm', chans'), log) →
  pm_started pm' = true
  ∧ pm_restartTimeout pm'
    = pm_restartTimeout pm
      || existsb (Start_fails Serve Register) (filter has_devices (pm_plugins pm))
  ∧ pm_plugins pm' = pm_plugins pm
  ∧ pm_devices pm' = pm_devices pm
  ∧ pm_restart pm' = pm_restart pm
  ∧ log = (CallStop <$> (if pm_started pm
                         then filter has_devices (pm_plugins pm) else []))
          ++ (CallStart <$> up_to_first_failure (Start_fails Serve Register)
                              (filter has_devices (pm_plugins pm)))
  ∧ (pm_started pm = true →
     ∀ i p, pm_plugins pm !! i = Some p → has_devices p → Remove p = None →
            chans' i = true).
Proof.
  intros Hrun. by apply (startPlugins_run _ _ _ _ _ _ _ _ _ _ Hrun).
Qed.

Lemma startPlugins_effects_witness :
  match startPlugins never_fails (fails_for "nvidia.com/b") never_fails
          never_fails
          (manager_with no_units []
             [sample_server "nvidia.com/a" ["GPU-0"];
              sample_server "nvidia.com/b" ["GPU-1"];
              sample_server "nvidia.com/c" ["GPU-2"]]) all_open [] with
  | (Some (pm', _), log) =>
      pm_restartTimeout pm' = true
      ∧ log = [CallStart (sample_server "nvidia.com/a" ["GPU-0"]);
               CallStart (sample_server "nvidia.com/b" ["GPU-1"])]
  | (None, _) => False
  end.
Proof.
  destruct (startPlugins never_fails (fails_for "nvidia.com/b") never_fails
              never_fails
              (manager_with no_units []
                 [sample_server "nvidia.com/a" ["GPU-0"];
                  sample_server "nvidia.com/b" ["GPU-1"];
                  sample_server "nvidia.com/c" ["GPU-2"]]) all_open [])
    as [[[pm' chans']|] log] eqn:Hrun.
  - destruct (startPlugins_effects _ _ _ _ _ _ _ _ _ Hrun)
      as (_ & Htimer & _ & _ & _ & Hlog & _).
    split; [exact Htimer|exact Hlog].
  - vm_compute in Hrun. discriminate Hrun.
Defined.





(** ** Replica-annotated ids *)

Lemma take_length_le n s : (String.length (GoStrings.take n s) ≤ n)%nat.
Proof.
  revert s. induction n as [|n IH]; intros [|c s]; simpl; try lia.
  specialize (IH s). lia.
Qed.

(** Before the first occurrence of a separator there is none. *)
Lemma Index_take_free s sub m :
  sub ≠ "" → GoStrings.Index s sub = Some m →
  ¬ occurs_in sub (GoStrings.take m s).
Proof.
  intros Hsub Hi (pre & suf & Heq).
  assert (String.length pre < m)%nat as Hlt.
  { pose proof (take_length_le m s) as Hle. rewrite Heq, !append_length in Hle.
    destruct sub; [done|]. simpl in Hle. lia. }
  pose proof (Index_first _ _ _ Hi _ Hlt) as Hno.
  assert (GoStrings.HasPrefix (GoStrings.drop (String.length pre) s) sub = true)
    as Hyes; [|congruence].
  apply HasPrefix_spec. exists (suf +:+ GoStrings.drop m s).
  rewrite <-(take_drop m s) at 1. rewrite Heq, !append_assoc. apply drop_app.
Qed.

Lemma GetID_cases r :
  (¬ occurs_in "::" r ∧ GetID r = r)
  ∨ (∃ m, GoStrings.Index r "::" = Some m ∧ GetID r = GoStrings.take m r).
Proof.
  unfold GetID, AnnotatedID_Split, GoStrings.SplitN. simpl.
  destruct (GoStrings.Index r "::") as [m|] eqn:Hi.
  - right. by exists m.
  - left. split; [by apply Index_None|done].
Qed.

(** X15: base ids and annotations. An id is annotated exactly when the
    separator "::" occurs in it. The base id of an id is the part before
    the first separator, the whole id when there is none: it is a prefix of
    the id, holds no separator, so is not annotated and is its own base id.
    A list has an annotated id exactly when one of its ids holds the
    separator, and its base ids are as many as its ids. *)
Theorem annotated_ids_base (r : string) (rs : list string) :
  (HasAnnotations r = true ↔ occurs_in "::" r)
  ∧ (HasAnnotations r = false → AnnotatedID_Split r = (r, 0))
  ∧ (∃ suf, r = GetID r +:+ suf)
  ∧ ¬ occurs_in "::" (GetID r)
  ∧ HasAnnotations (GetID r) = false
  ∧ GetID (GetID r) = GetID r
  ∧ (AnyHasAnnotations rs = true ↔ ∃ id, id ∈ rs ∧ occurs_in "::" id)
  ∧ length (AnnotatedIDs_GetIDs rs) = length rs.
Proof.
  assert (¬ occurs_in "::" (GetID r)) as Hfree.
  { destruct (GetID_cases r) as [[Hno ->]|(m & Hi & ->)]; [done|].
    by apply Index_take_free. }
  split_and!.
  - apply HasAnnotations_spec.
  - intros Hno. unfold AnnotatedID_Split. rewrite SplitN_no_separator; [done|].
    intros Ho%HasAnnotations_spec. congruence.
  - destruct (GetID_cases r) as [[_ ->]|(m & Hi & ->)].
    + exists "". by rewrite append_empty_r.
    + exists (GoStrings.drop m r). by rewrite take_drop.
  - exact Hfree.
  - destruct (HasAnnotations (GetID r)) eqn:Hann; [|done].
    by apply HasAnnotations_spec in Hann.
  - by destruct (GetID_cases (GetID r)) as [[_ ->]|(m & Hi%Index_Some & _)];
      [|destruct Hfree; destruct Hi as (suf & Hs & _);
        by exists (GoStrings.take m (GetID r)), suf].
  - destruct (AnyHasAnnotations rs) eqn:Hany.
    + split; [intros _|done].
      destruct (decide (Exists (λ id, HasAnnotations id = true) rs))
        as [Hex|Hnex].
      * apply Exists_exists in Hex as (id & Hid & Hann).
        exists id. split; [done|]. by apply HasAnnotations_spec.
      * assert (AnyHasAnnotations rs = false); [|congruence].
        apply AnyHasAnnotations_spec. intros id Hid Ho. apply Hnex.
        apply Exists_exists. exists id. split; [done|].
        by apply HasAnnotations_spec.
    + split; [done|]. intros (id & Hid & Ho).
      by destruct (proj1 (AnyHasAnnotations_spec rs) Hany id Hid).
  - apply length_fmap.
Qed.

(** ** Resource descriptors *)

Lemma Split_prefixed rest :
  ResourceName_Split ("nvidia.com/" +:+ rest) = ("nvidia.com", rest).
Proof.
  unfold ResourceName_Split, GoStrings.SplitN. cbn [Nat.sub GoStrings.genSplit].
  assert (GoStrings.Index ("nvidia.com/" +:+ rest) "/" = Some 10%nat) as ->.
  { reflexivity. }
  cbn [GoStrings.genSplit]. by destruct rest.
Qed.

Lemma NewResource_name pattern name :
  ∃ rest, Name (NewResource pattern name) = "nvidia.com/" +:+ rest
          ∧ (GoStrings.HasPrefix name "nvidia.com/" = true → name = "nvidia.com/" +:+ rest)
          ∧ (GoStrings.HasPrefix name "nvidia.com/" = false → rest = name).
Proof.
  unfold NewResource. cbn [Name].
  change (ResourceNamePrefix +:+ "/") with "nvidia.com/".
  destruct (GoStrings.HasPrefix name "nvidia.com/") eqn:Hp; cbn [negb].
  - apply HasPrefix_spec in Hp as [rest ->]. by exists rest.
  - by exists name.
Qed.

(** X16: resource names. [NewResource] keeps the pattern and returns a name
    that begins with "nvidia.com/": the name given when it begins so, and
    the name given behind that prefix otherwise; naming a resource by the
    name of a resource changes nothing more. The prefix of such a name, as
    [Split] cuts it, is "nvidia.com", and the socket of the server of such a
    resource is named after the rest of the name (a rest that is one path
    element, which [filepath.Join] leaves as it is). *)
Theorem NewResource_prefixed (pattern name : string) (ds : Devices) :
  Pattern (NewResource pattern name) = pattern
  ∧ GoStrings.HasPrefix (Name (NewResource pattern name)) "nvidia.com/" = true
  ∧ (GoStrings.HasPrefix name "nvidia.com/" = true →
     Name (NewResource pattern name) = name)
  ∧ (GoStrings.HasPrefix name "nvidia.com/" = false →
     Name (NewResource pattern name) = "nvidia.com/" +:+ name
     ∧ GetResourceName (Name (NewResource pattern name)) = name)
  ∧ NewResource pattern (Name (NewResource pattern name))
    = NewResource pattern name
  ∧ GetResourceNamePrefix (Name (NewResource pattern name)) = "nvidia.com"
  ∧ Name (NewResource pattern name)
    = "nvidia.com/" +:+ GetResourceName (Name (NewResource pattern name))
  ∧ (¬ occurs_in "/" (GetResourceName (Name (NewResource pattern name))) →
     socket (NewNvidiaDevicePlugin (Name (NewResource pattern name)) ds)
     = "/var/lib/kubelet/device-plugins/nvidia-"
       +:+ GetResourceName (Name (NewResource pattern name)) +:+ ".sock").
Proof.
  destruct (NewResource_name pattern name) as (rest & Hname & Hyes & Hno).
  assert (GoStrings.HasPrefix (Name (NewResource pattern name)) "nvidia.com/"
          = true) as Hprefix.
  { rewrite Hname. apply HasPrefix_spec. by exists rest. }
  unfold GetResourceName, GetResourceNamePrefix.
  split_and!.
  - done.
  - exact Hprefix.
  - intros Hp. by rewrite Hname, (Hyes Hp).
  - intros Hp. by rewrite Hname, Split_prefixed, (Hno Hp).
  - unfold NewResource at 1. cbn [Name].
    change (ResourceNamePrefix +:+ "/") with "nvidia.com/".
    rewrite Hprefix. reflexivity.
  - by rewrite Hname, Split_prefixed.
  - by rewrite Hname, Split_prefixed.
  - intros _. unfold NewNvidiaDevicePlugin, GetResourceName. cbn [socket].
    rewrite Hname, Split_prefixed. cbn [snd].
    by rewrite append_assoc.
Qed.

Lemma visit_profiles_fold acc mps :
  foldl visit_profile acc mps
  = acc ++ ((λ mp, {| Pattern := profile_string mp;
                      Name := "nvidia.com/mig-"
                              +:+ ReplaceAll (profile_string mp) "+" "." |})
              <$> filter (λ mp, profile_C mp = profile_G mp) mps).
Proof.
  revert acc. induction mps as [|mp mps IH]; intros acc.
  - by rewrite filter_nil, app_nil_r.
  - cbn [foldl]. rewrite IH. unfold visit_profile. case_decide as Hcg.
    + by rewrite filter_cons_False.
    + assert (profile_C mp = profile_G mp) as Heq by lia.
      rewrite filter_cons_True by done.
      rewrite fmap_cons, <-(assoc_L (++)). by do 2 f_equal.
Qed.

(** X17: the descriptors [NewResources] declares. Under the strategies
    "none" and "single" there is one, of pattern "GPU" and name
    "nvidia.com/gpu". Under "mixed" there is none when NVML is missing or
    cannot be initialised; otherwise there is one for every profile visited
    whose [C] equals its [G], in the order of the visit, with the profile as
    pattern and "nvidia.com/mig-" followed by the profile, every [+]
    replaced by a dot, as name. Under any other strategy there is none.
    Every name declared begins with "nvidia.com/". *)
Theorem NewResources_spec (nvmllib : machine) (strategy : string) :
  (∀ r, r ∈ NewResources nvmllib strategy →
        GoStrings.HasPrefix (Name r) "nvidia.com/" = true)
  ∧ (strategy = MigStrategyNone ∨ strategy = MigStrategySingle →
     NewResources nvmllib strategy
     = [{| Pattern := "GPU"; Name := "nvidia.com/gpu" |}])
  ∧ (strategy = MigStrategyMixed →
     hasNVML nvmllib = false ∨ init_succeeds nvmllib = false →
     NewResources nvmllib strategy = [])
  ∧ (strategy = MigStrategyMixed →
     hasNVML nvmllib = true → init_succeeds nvmllib = true →
     NewResources nvmllib strategy
     = (λ mp, {| Pattern := profile_string mp;
                 Name := "nvidia.com/mig-"
                         +:+ ReplaceAll (profile_string mp) "+" "." |})
         <$> filter (λ mp, profile_C mp = profile_G mp) (mig_profiles nvmllib))
  ∧ (strategy ≠ MigStrategyNone → strategy ≠ MigStrategySingle →
     strategy ≠ MigStrategyMixed → NewResources nvmllib strategy = []).
Proof.
  assert (strategy = MigStrategyMixed →
          hasNVML nvmllib = true → init_succeeds nvmllib = true →
          NewResources nvmllib strategy
          = (λ mp, {| Pattern := profile_string mp;
                      Name := "nvidia.com/mig-"
                              +:+ ReplaceAll (profile_string mp) "+" "." |})
              <$> filter (λ mp, profile_C mp = profile_G mp)
                    (mig_profiles nvmllib)) as Hmixed.
  { intros -> Hnvml Hinit. unfold NewResources. cbn [decide_rel].
    rewrite decide_False, decide_False, decide_True by done.
    rewrite Hnvml, Hinit. cbn [negb]. by rewrite visit_profiles_fold. }
  split_and!.
  - intros r. unfold NewResources.
    destruct (decide (strategy = MigStrategyNone)) as [->|Hnone].
    { intros ->%list_elem_of_singleton. reflexivity. }
    destruct (decide (strategy = MigStrategySingle)) as [->|Hsingle].
    { intros ->%list_elem_of_singleton. reflexivity. }
    destruct (decide (strategy = MigStrategyMixed)) as [->|Hmix];
      [|by intros ?%elem_of_nil].
    destruct (hasNVML nvmllib); [|by intros ?%elem_of_nil].
    destruct (init_succeeds nvmllib); [|by intros ?%elem_of_nil].
    cbn [negb]. rewrite visit_profiles_fold. cbn [app].
    intros (mp & -> & _)%list_elem_of_fmap. reflexivity.
  - intros [-> | ->]; reflexivity.
  - intros -> Hmissing. unfold NewResources.
    rewrite decide_False, decide_False, decide_True by done.
    destruct Hmissing as [-> | ->]; [done|]. by destruct (hasNVML nvmllib).
  - exact Hmixed.
  - intros Hnone Hsingle Hmix. unfold NewResources.
    by rewrite !decide_False.
Qed.

(** X18: the default descriptor asks for "GPU" in the name. Under the
    strategies "none" and "single", with the descriptors of [NewResources],
    a device name finds the descriptor "nvidia.com/gpu" exactly when "GPU"
    occurs in it; and a build over a whole device whose name holds no "GPU",
    and which is not passed over, fails. *)
Theorem default_descriptor_matches (nvmllib : machine) (strategy name : string) :
  strategy = MigStrategyNone ∨ strategy = MigStrategySingle →
  first_match (NewResources nvmllib strategy) name
  = Ok (if GoStrings.Contains name "GPU"
        then Some {| Pattern := "GPU"; Name := "nvidia.com/gpu" |} else None)
  ∧ ∀ (units : nvml) (gpu : gpu_unit),
      gpu ∈ nvml_gpus units → gpu_name gpu = Ok name →
      GoStrings.Contains name "GPU" = false →
      strategy = MigStrategyNone ∨ gpu_mig_enabled gpu = Ok false →
      is_Some (NewDeviceMap units (NewResources nvmllib strategy) strategy).2.
Proof.
  intros Hstrategy.
  assert (NewResources nvmllib strategy
          = [{| Pattern := "GPU"; Name := "nvidia.com/gpu" |}]) as ->.
  { by destruct Hstrategy as [-> | ->]. }
  assert (first_match [{| Pattern := "GPU"; Name := "nvidia.com/gpu" |}] name
          = Ok (if GoStrings.Contains name "GPU"
                then Some {| Pattern := "GPU"; Name := "nvidia.com/gpu" |}
                else None)) as Hfirst.
  { cbn [first_match Pattern]. rewrite pattern_matches_no_star by reflexivity.
    by destruct (GoStrings.Contains name "GPU"). }
  split; [exact Hfirst|]. intros units gpu Hgpu Hname Hno Hkept.
  set (b := {| Interface := units;
               resources := [{| Pattern := "GPU"; Name := "nvidia.com/gpu" |}];
               migStrategy := strategy |}).
  assert (is_Some (buildGPUDeviceMap b).2) as [err Herr].
  { apply buildGPUDeviceMap_fails. exists gpu. split; [done|].
    right. right. split.
    - intros [Hmig Hs]. destruct Hkept as [->|Hfalse]; [done|]. congruence.
    - left. exists name. split; [done|].
      intros r ->%list_elem_of_singleton. cbn [Pattern].
      by rewrite pattern_matches_no_star, Hno by reflexivity. }
  unfold NewDeviceMap, build. fold b. cbn [migStrategy b].
  destruct (buildGPUDeviceMap b) as [m e]. cbn [snd] in Herr. subst e.
  destruct Hstrategy as [-> | ->]; by eexists.
Qed.

Lemma default_descriptor_matches_witness :
  first_match (NewResources {| hasNVML := true; init_succeeds := true;
                               mig_profiles := [] |} MigStrategyNone)
    "Tesla T4"
  = Ok None
  ∧ is_Some (NewDeviceMap
               {| nvml_gpus := [sample_gpu "Tesla T4" "GPU-1"]; nvml_migs := [] |}
               (NewResources {| hasNVML := true; init_succeeds := true;
                                mig_profiles := [] |} MigStrategyNone)
               MigStrategyNone).2.
Proof.
  destruct (default_descriptor_matches
              {| hasNVML := true; init_succeeds := true; mig_profiles := [] |}
              MigStrategyNone "Tesla T4") as [Hfirst Hbuild]; [by left|].
  split; [exact Hfirst|].
  apply (Hbuild _ (sample_gpu "Tesla T4" "GPU-1")).
  - by left.
  - reflexivity.
  - reflexivity.
  - by left.
Defined.

(** ** Reading an inventory *)

Lemma GetUUIDs_loop_spec (l : list (string * Device)) (seen : gmap string bool)
    (res : list string) :
  NoDup res →
  (∀ u, seen !! u = Some true ↔ u ∈ res) →
  (∀ u b, seen !! u = Some b → b = true) →
  NoDup (GetUUIDs_loop l seen res)
  ∧ ∀ u, u ∈ GetUUIDs_loop l seen res
         ↔ u ∈ res ∨ ∃ kv, kv ∈ l ∧ Device_GetUUID kv.2 = u.
Proof.
  revert seen res. induction l as [|kv l IH]; intros seen res Hnd Hseen Htrue;
    cbn [GetUUIDs_loop].
  { split; [done|]. intros u. split; [by left|].
    intros [?|(kv & ?%elem_of_nil & _)]; done. }
  destruct (seen !! Device_GetUUID kv.2) as [b|] eqn:Hs; cbn [default].
  - rewrite (Htrue _ _ Hs) in Hs |- *.
    destruct (IH seen res Hnd Hseen Htrue) as [Hnd' Hin]. split; [done|].
    intros u. rewrite Hin. split.
    + intros [?|(kv' & Hkv' & Hu)]; [by left|]. right. exists kv'.
      split; [by right|done].
    + intros [?|(kv' & [->|Hkv']%elem_of_cons & Hu)]; [by left| |].
      * left. subst u. by apply Hseen.
      * right. by exists kv'.
  - assert (Device_GetUUID kv.2 ∉ res) as Hfresh.
    { intros Hin%Hseen. congruence. }
    destruct (IH (<[Device_GetUUID kv.2 := true]> seen)
                (res ++ [Device_GetUUID kv.2])) as [Hnd' Hin].
    + apply NoDup_app. split_and!; [done| |apply NoDup_singleton].
      intros u Hu ->%list_elem_of_singleton. done.
    + intros u. rewrite elem_of_app, list_elem_of_singleton.
      destruct (decide (u = Device_GetUUID kv.2)) as [->|Hne].
      * rewrite lookup_insert_eq. split; [by right|done].
      * rewrite lookup_insert_ne by done. rewrite Hseen. split; [by left|].
        by intros [?|?].
    + intros u b. destruct (decide (u = Device_GetUUID kv.2)) as [->|Hne].
      * rewrite lookup_insert_eq. by intros [= <-].
      * rewrite lookup_insert_ne by done. apply Htrue.
    + split; [done|]. intros u. rewrite Hin, elem_of_app, list_elem_of_singleton.
      split.
      * intros [[?| ->]|(kv' & Hkv' & Hu)]; [by left| |].
        -- right. exists kv. split; [by left|done].
        -- right. exists kv'. split; [by right|done].
      * intros [?|(kv' & [->|Hkv']%elem_of_cons & Hu)]; [by left; left| |].
        -- left. by right.
        -- right. by exists kv'.
Qed.

(** X19: [GetUUIDs] lists each base id once. Under a runtime that keeps
    Go's promises the list has no duplicate and holds exactly the base ids
    of the devices of the inventory. *)
Theorem GetUUIDs_spec `{rt : GoRuntime} (ok : GoRuntimeOk rt) (ds : Devices) :
  NoDup (GetUUIDs ds)
  ∧ ∀ u, u ∈ GetUUIDs ds ↔ ∃ k d, ds !! k = Some d ∧ Device_GetUUID d = u.
Proof.
  unfold GetUUIDs.
  destruct (GetUUIDs_loop_spec (range_order ds) ∅ []) as [Hnd Hin].
  - constructor.
  - intros u. rewrite lookup_empty. split; [done|]. by intros ?%elem_of_nil.
  - intros u b. by rewrite lookup_empty.
  - split; [done|]. intros u. rewrite Hin. split.
    + intros [?%elem_of_nil|([k d] & Hkd & Hu)]; [done|].
      exists k, d. split; [|done]. by apply (range_order_lookup ok).
    + intros (k & d & Hkd & Hu). right. exists (k, d). split; [|done].
      by apply (range_order_lookup ok).
Qed.

Lemma GetUUIDs_spec_witness :
  NoDup (GetUUIDs (rt := forward_runtime) (sample_inventory eight_replicas))
  ∧ ∀ u, u ∈ GetUUIDs (rt := forward_runtime) (sample_inventory eight_replicas)
         ↔ ∃ k d, sample_inventory eight_replicas !! k = Some d
                  ∧ Device_GetUUID d = u.
Proof. apply (GetUUIDs_spec forward_runtime_ok). Defined.

Lemma find_index_spec index (l : list (string * Device)) :
  match find_index index l with
  | Some d => Index d = index ∧ ∃ k, (k, d) ∈ l
  | None => ∀ kv, kv ∈ l → Index kv.2 ≠ index
  end.
Proof.
  induction l as [|[k d] l IH]; cbn [find_index].
  - by intros kv ?%elem_of_nil.
  - cbn [snd]. case_decide as Hi.
    + split; [done|]. exists k. by left.
    + destruct (find_index index l) as [d'|].
      * destruct IH as [Hd' [k' Hk']]. split; [done|]. exists k'. by right.
      * intros kv [->|Hkv]%elem_of_cons; [done|by apply IH].
Qed.

(** X20: [GetByIndex] finds a device by its index. Under a runtime that
    keeps Go's promises it returns nil exactly when no device of the
    inventory has the index, and a device it returns is one of the
    inventory with that index. *)
Theorem GetByIndex_spec `{rt : GoRuntime} (ok : GoRuntimeOk rt) (ds : Devices)
    (index : string) :
  (GetByIndex ds index = None ↔ ∀ k d, ds !! k = Some d → Index d ≠ index)
  ∧ ∀ d, GetByIndex ds index = Some d →
         Index d = index ∧ ∃ k, ds !! k = Some d.
Proof.
  unfold GetByIndex.
  pose proof (find_index_spec index (range_order ds)) as Hspec.
  destruct (find_index index (range_order ds)) as [d|].
  - destruct Hspec as [Hd [k Hk%(range_order_lookup ok)]]. split.
    + split; [done|]. intros Hnone. by destruct (Hnone k d Hk).
    + intros d' [= <-]. split; [done|]. by exists k.
  - split; [|done]. split; [|done]. intros _ k d Hkd.
    apply (Hspec (k, d)). by apply (range_order_lookup ok).
Qed.

Lemma GetByIndex_spec_witness :
  (GetByIndex (rt := forward_runtime) (sample_inventory ["GPU-0"]) "7" = None
   ↔ ∀ k d, sample_inventory ["GPU-0"] !! k = Some d → Index d ≠ "7")
  ∧ ∀ d, GetByIndex (rt := forward_runtime) (sample_inventory ["GPU-0"]) "7"
         = Some d →
         Index d = "7" ∧ ∃ k, sample_inventory ["GPU-0"] !! k = Some d.
Proof. apply (GetByIndex_spec forward_runtime_ok). Defined.

Lemma GetPaths_fold (l : list (string * Device)) acc :
  foldl (λ res kv, res ++ Paths kv.2) acc l = acc ++ (l ≫= (λ kv, Paths kv.2)).
Proof.
  revert acc. induction l as [|kv l IH]; intros acc; cbn [foldl].
  - by rewrite app_nil_r.
  - rewrite IH. cbn [mbind list_bind]. by rewrite (assoc_L (++)).
Qed.

(** X21: the lists read from an inventory. Under a runtime that keeps Go's
    promises, [GetIDs] and [GetIndices] hold the id and the index of every
    device, one place per device, and [GetPaths] holds exactly the paths of
    the devices; in an inventory keyed by id, [GetIDs] is a listing of the
    keys. When the inventory supports aligned allocation, no path returned
    is "/dev/dxg" and no index returned holds a colon. *)
Theorem inventory_lists `{rt : GoRuntime} (ok : GoRuntimeOk rt) (ds : Devices) :
  GetIDs ds ≡ₚ (λ kv, ID kv.2) <$> map_to_list ds
  ∧ GetIndices ds ≡ₚ (λ kv, Index kv.2) <$> map_to_list ds
  ∧ length (GetIDs ds) = size ds
  ∧ length (GetIndices ds) = size ds
  ∧ (keyed_by_id ds → GetIDs ds ≡ₚ elements (dom ds))
  ∧ (∀ p, p ∈ Devices_GetPaths ds ↔ ∃ k d, ds !! k = Some d ∧ p ∈ Paths d)
  ∧ (AlignedAllocationSupported ds = true →
     ("/dev/dxg" ∉ Devices_GetPaths ds)
     ∧ ∀ i, i ∈ GetIndices ds → ¬ occurs_in ":" i).
Proof.
  assert (∀ p, p ∈ Devices_GetPaths ds ↔ ∃ k d, ds !! k = Some d ∧ p ∈ Paths d)
    as Hpaths.
  { intros p. unfold Devices_GetPaths. rewrite GetPaths_fold, app_nil_l.
    rewrite list_elem_of_bind. split.
    - intros ([k d] & Hp & Hkd%(range_order_lookup ok)). by exists k, d.
    - intros (k & d & Hkd & Hp). exists (k, d). split; [done|].
      by apply (range_order_lookup ok). }
  unfold GetIDs, GetIndices. split_and!.
  - by rewrite (range_order_perm rt ok).
  - by rewrite (range_order_perm rt ok).
  - rewrite length_fmap, (range_order_perm rt ok). apply length_map_to_list.
  - rewrite length_fmap, (range_order_perm rt ok). apply length_map_to_list.
  - apply (GetIDs_keyed ok).
  - exact Hpaths.
  - intros Haligned.
    pose proof (proj1 (AlignedAllocationSupported_spec ok ds) Haligned) as Hall.
    split.
    + intros (k & d & Hkd & Hp)%Hpaths. by destruct (Hall k d Hkd) as [_ Hno].
    + intros i ([k d] & -> & Hkd%(range_order_lookup ok))%list_elem_of_fmap.
      by destruct (Hall k d Hkd) as [Hno _].
Qed.

Lemma inventory_lists_witness :
  length (GetIDs (rt := backward_runtime) (sample_inventory eight_replicas))
  = size (sample_inventory eight_replicas).
Proof.
  destruct (inventory_lists backward_runtime_ok (sample_inventory eight_replicas))
    as (_ & _ & Hlen & _).
  exact Hlen.
Defined.

(** ** The handler of preferred allocations *)

Lemma GetPreferredAllocation_loop_ok `{rt : GoRuntime} alignedAlloc plugin reqs
    acc resps :
  GetPreferredAllocation_loop alignedAlloc plugin reqs acc = Some (Ok resps)
  ↔ ∃ new, resps = acc ++ new
           ∧ Forall2 (λ req ids,
                        request_allocation alignedAlloc plugin req
                        = Some (Ok ids)) reqs new.
Proof.
  revert acc. induction reqs as [|req reqs IH]; intros acc;
    cbn [GetPreferredAllocation_loop].
  - split.
    + intros [= <-]. exists []. by rewrite app_nil_r.
    + intros (new & -> & ->%Forall2_nil_inv_l). by rewrite app_nil_r.
  - fold (request_allocation alignedAlloc plugin req).
    destruct (request_allocation alignedAlloc plugin req) as [[ids|err]|] eqn:Hreq.
    + rewrite IH. split.
      * intros (new & -> & Hall). exists (ids :: new).
        rewrite <-(assoc_L (++)). split; [done|]. by constructor.
      * intros (new & -> & Hall).
        apply Forall2_cons_inv_l in Hall as (ids' & new' & Hids & Hall & ->).
        assert (ids' = ids) as -> by congruence.
        exists new'. by rewrite <-(assoc_L (++)).
    + split; [done|]. intros (new & _ & Hall).
      apply Forall2_cons_inv_l in Hall as (ids' & new' & Hids & _). congruence.
    + split; [done|]. intros (new & _ & Hall).
      apply Forall2_cons_inv_l in Hall as (ids' & new' & Hids & _). congruence.
Qed.

Lemma GetPreferredAllocation_loop_fails `{rt : GoRuntime} alignedAlloc plugin
    before req after acc :
  Forall (λ r, ∃ ids, request_allocation alignedAlloc plugin r = Some (Ok ids))
    before →
  (∀ cause, request_allocation alignedAlloc plugin req = Some (Err cause) →
     GetPreferredAllocation_loop alignedAlloc plugin (before ++ req :: after) acc
     = Some (Err (ErrPreferredAllocation cause)))
  ∧ (request_allocation alignedAlloc plugin req = None →
     GetPreferredAllocation_loop alignedAlloc plugin (before ++ req :: after) acc
     = None).
Proof.
  revert acc. induction before as [|r before IH]; intros acc Hbefore.
  - cbn [app GetPreferredAllocation_loop].
    fold (request_allocation alignedAlloc plugin req).
    split; [intros cause Hreq|intros Hreq]; by rewrite Hreq.
  - apply Forall_cons in Hbefore as [[ids Hr] Hbefore].
    cbn [app GetPreferredAllocation_loop].
    fold (request_allocation alignedAlloc plugin r). rewrite Hr.
    by apply IH.
Qed.

(** X22: the handler [GetPreferredAllocation] answers all container
    requests or none. It succeeds exactly when the allocation of every
    request succeeds, and then answers each request, in order, with the ids
    allocated for it; at the first request whose allocation fails it returns
    that error, wrapped, and no response; a panic of an allocation is a
    panic of the handler. *)
Theorem GetPreferredAllocation_all_or_nothing `{rt : GoRuntime}
    (alignedAlloc : NvidiaDevicePlugin → list string → list string → Z
                    → option (result (list string)))
    (plugin : NvidiaDevicePlugin)
    (reqs : list ContainerPreferredAllocationRequest) :
  (∀ resps,
     GetPreferredAllocation alignedAlloc plugin reqs = Some (Ok resps)
     ↔ Forall2 (λ req ids,
                  request_allocation alignedAlloc plugin req = Some (Ok ids))
         reqs resps)
  ∧ (∀ before req after,
       reqs = before ++ req :: after →
       Forall (λ r, ∃ ids,
                 request_allocation alignedAlloc plugin r = Some (Ok ids))
         before →
       (∀ cause, request_allocation alignedAlloc plugin req = Some (Err cause) →
          GetPreferredAllocation alignedAlloc plugin reqs
          = Some (Err (ErrPreferredAllocation cause)))
       ∧ (request_allocation alignedAlloc plugin req = None →
          GetPreferredAllocation alignedAlloc plugin reqs = None))
  ∧ GetPreferredAllocation alignedAlloc plugin [] = Some (Ok []).
Proof.
  unfold GetPreferredAllocation. split_and!.
  - intros resps. rewrite GetPreferredAllocation_loop_ok. split.
    + by intros (new & -> & Hall).
    + intros Hall. by exists resps.
  - intros before req after -> Hbefore.
    by apply GetPreferredAllocation_loop_fails.
  - done.
Qed.
